(** * vue-i18n-audit: extraction, catalog flattening, validation and
      hardcoded-text detection, embedded from the TypeScript sources.

    Conventions of the embedding.
    - A JavaScript string is a [string] that holds its UTF-8 encoding (the
      program reads every file as utf-8 and its own literals are ASCII).
      [s.length], [substring] and [match.index] count UTF-16 code units
      ([units], [code_units]); [trim] and [\s] know the white space and
      the line terminators of ECMAScript in their encoded form; [\w],
      [\d], [\b] and the letter ranges are ASCII, as they are without the
      [u] flag.
    - A JavaScript regular expression is a term of [regex] interpreted by a
      backtracking matcher with the priorities of ECMAScript (greedy
      quantifiers, leftmost alternative first, numbered captures,
      backreferences).  It reads the encoded text byte by byte; every
      pattern of the program starts at an ASCII character or an anchor and
      its classes meet an encoded character only as a whole.
    - [path.relative], the pattern parser behind [new RegExp(string)] and
      [String.prototype.toUpperCase] (the case tables of Unicode) are
      built-ins of the host: they are Section variables. *)

From Stdlib Require Import String Ascii List ZArith Lia Floats Uint63.
From stdpp Require Import gmap strings list sorting.

Local Open Scope string_scope.
Local Open Scope list_scope.
Local Open Scope nat_scope.

(** ** Characters and strings of the host language *)

Module JS.

Definition dquote : ascii := "034"%char.
Definition newline : ascii := "010"%char.

Definition code (c : ascii) : nat := nat_of_ascii c.

Definition between (lo hi n : nat) : bool := (lo <=? n) && (n <=? hi).

Definition is_digit (c : ascii) : bool := between 48 57 (code c).
Definition is_upper (c : ascii) : bool := between 65 90 (code c).
Definition is_lower (c : ascii) : bool := between 97 122 (code c).

(** [\w] *)
Definition is_word (c : ascii) : bool :=
  is_digit c || is_upper c || is_lower c || (code c =? 95).

(** White space and line terminators of ECMAScript, as [\s] and [trim]
    know them, by their encoding.  One byte: U+0009 to U+000D, U+0020. *)
Definition is_space (c : ascii) : bool :=
  between 9 13 (code c) || (code c =? 32).

(** Two bytes: U+00A0 *)
Definition is_space2 (a b : ascii) : bool :=
  (code a =? 194) && (code b =? 160).

(** Three bytes: U+1680; U+2000 to U+200A, U+2028, U+2029, U+202F; U+205F;
    U+3000; U+FEFF *)
Definition is_space3 (a b c : ascii) : bool :=
  ((code a =? 225) && (code b =? 154) && (code c =? 128))
  || ((code a =? 226) && (code b =? 128)
      && (between 128 138 (code c) || between 168 169 (code c) || (code c =? 175)))
  || ((code a =? 226) && (code b =? 129) && (code c =? 159))
  || ((code a =? 227) && (code b =? 128) && (code c =? 128))
  || ((code a =? 239) && (code b =? 187) && (code c =? 191)).

(** The number of bytes of the white-space character that starts [l], 0
    when none does *)
Definition space_len (l : list ascii) : nat :=
  match l with
  | a :: r =>
      if is_space a then 1
      else match r with
           | b :: r' =>
               if is_space2 a b then 2
               else match r' with
                    | c :: _ => if is_space3 a b c then 3 else 0
                    | [] => 0
                    end
           | [] => 0
           end
  | [] => 0
  end.

(** The same for the character that ends a text, read from its last byte
    backwards *)
Definition space_len_end (l : list ascii) : nat :=
  match l with
  | c :: r =>
      if is_space c then 1
      else match r with
           | b :: r' =>
               if is_space2 b c then 2
               else match r' with
                    | a :: _ => if is_space3 a b c then 3 else 0
                    | [] => 0
                    end
           | [] => 0
           end
  | [] => 0
  end.

(** Remove white-space characters at the head for as long as there are
    any; each turn removes at least one byte, so [length l] turns are
    enough. *)
Fixpoint strip (len : list ascii -> nat) (turns : nat) (l : list ascii)
  : list ascii :=
  match turns with
  | 0 => l
  | S turns' =>
      match len l with
      | 0 => l
      | S n => strip len turns' (drop (S n) l)
      end
  end.

Definition trimStart (l : list ascii) : list ascii :=
  strip space_len (length l) l.

Definition trimEnd (l : list ascii) : list ascii :=
  rev (strip space_len_end (length l) (rev l)).

Definition chars (s : string) : list ascii := list_ascii_of_string s.
Definition str (l : list ascii) : string := string_of_list_ascii l.

(** [s.trim()] *)
Definition trim (s : string) : string :=
  str (trimEnd (trimStart (chars s))).

(** Canonical forms of a character for the [i] flag: only the ASCII
    letters have one that differs. *)
Definition upper (c : ascii) : ascii :=
  if is_lower c then ascii_of_nat (code c - 32) else c.
Definition lower (c : ascii) : ascii :=
  if is_upper c then ascii_of_nat (code c + 32) else c.

(** *** UTF-16 code units

    A byte from 128 to 191 continues a character; a character whose first
    byte is 240 or more lies outside the basic plane and takes two code
    units. *)
Definition is_continuation (c : ascii) : bool := between 128 191 (code c).

(** [cut l]: the continuation bytes that start [l], and the code units of
    what follows.  A unit is given by the bytes of its character; of the
    two units of a character outside the basic plane the first carries the
    four bytes and the second none, so a text cut between the two keeps the
    character on the left. *)
Fixpoint cut (l : list ascii) : list ascii * list (list ascii) :=
  match l with
  | [] => ([], [])
  | c :: l' =>
      let '(pending, us) := cut l' in
      if is_continuation c then (c :: pending, us)
      else if 240 <=? code c then ([], (c :: pending) :: [] :: us)
      else ([], (c :: pending) :: us)
  end.

Definition code_units (s : string) : list (list ascii) :=
  let '(pending, us) := cut (chars s) in
  match pending with [] => us | _ :: _ => pending :: us end.

(** [s.length] *)
Definition units (s : string) : nat := length (code_units s).

(** [s.startsWith(p)] *)
Definition startsWith (s p : string) : bool := String.prefix p s.

(** [s.includes(p)] *)
Fixpoint includes (s p : string) : bool :=
  String.prefix p s ||
  match s with
  | String _ s' => includes s' p
  | EmptyString => false
  end.

(** [s.split('\n')]: never empty, the empty string gives one empty line *)
Fixpoint split_at (sep : ascii) (l : list ascii) : list ascii * list (list ascii) :=
  match l with
  | [] => ([], [])
  | c :: l' =>
      let '(cur, more) := split_at sep l' in
      if Ascii.eqb c sep then ([], cur :: more) else (c :: cur, more)
  end.

Definition split_lines (s : string) : list string :=
  let '(cur, more) := split_at newline (chars s) in map str (cur :: more).

(** [s.substring(a, b)] for [a <= b]: the code units from [a] to [b] *)
Definition substring (s : string) (a b : nat) : string :=
  str (concat (take (b - a) (drop a (code_units s)))).

(** truthiness of a string *)
Definition truthy (s : string) : bool := negb (String.eqb s "").

End JS.

(** ** Regular expressions *)

Module Regex.
Import JS.

(** Members of a bracket class; [\d], [\w] and the one-byte part of [\s]
    are classes too. *)
Inductive citem : Type :=
| CChar (c : ascii)
| CRange (lo hi : ascii)
| CDigit
| CWord
| CSpace.

Inductive regex : Type :=
| Eps
| Chr (c : ascii)
| Cls (neg : bool) (items : list citem)
| Seq (r1 r2 : regex)
| Alt (r1 r2 : regex)
| Star (r : regex)
| Grp (n : nat) (r : regex)
| Bref (n : nat)
| Bol
| Eol
| WordB.

(** Derived forms *)
Definition Plus (r : regex) : regex := Seq r (Star r).
Definition Opt (r : regex) : regex := Alt r Eps.
Definition cat (rs : list regex) : regex := foldr Seq Eps rs.
Definition lit (s : string) : regex := cat (map Chr (chars s)).
Fixpoint upto (n : nat) (r : regex) : regex :=
  match n with
  | 0 => Eps
  | S n' => Opt (Seq r (upto n' r))
  end.
Fixpoint times (n : nat) (r : regex) : regex :=
  match n with
  | 0 => Eps
  | S n' => Seq r (times n' r)
  end.
(** [r{lo,hi}] *)
Definition Rep (lo hi : nat) (r : regex) : regex :=
  Seq (times lo r) (upto (hi - lo) r).

Definition digit : regex := Cls false [CDigit].
Definition word : regex := Cls false [CWord].
(** [\s]: a one-byte white-space character or the encoding of another
    one, see [JS.is_space], [JS.is_space2] and [JS.is_space3].  The
    encodings have no common prefix with one another beyond their first
    bytes, so at most one branch matches at a position. *)
Definition space : regex :=
  Alt (Cls false [CSpace])
  (Alt (Seq (Chr "194") (Chr "160"))
  (Alt (Seq (Chr "225") (Seq (Chr "154") (Chr "128")))
  (Alt (Seq (Chr "226")
            (Alt (Seq (Chr "128")
                      (Cls false [CRange "128" "138"; CRange "168" "169";
                                  CChar "175"]))
                 (Seq (Chr "129") (Chr "159"))))
  (Alt (Seq (Chr "227") (Seq (Chr "128") (Chr "128")))
       (Seq (Chr "239") (Seq (Chr "187") (Chr "191"))))))).
Definition oneof (s : string) : regex := Cls false (map CChar (chars s)).
Definition noneof (s : string) : regex := Cls true (map CChar (chars s)).

(** A compiled expression: the pattern and its [i] flag.  The [g] flag only
    changes how [exec] is driven, see [exec] and [test]. *)
Record RegExp : Type := mkRegExp { re_pat : regex; re_icase : bool }.

Definition item_has (it : citem) (c : ascii) : bool :=
  match it with
  | CChar a => Ascii.eqb a c
  | CRange lo hi => between (code lo) (code hi) (code c)
  | CDigit => is_digit c
  | CWord => is_word c
  | CSpace => is_space c
  end.

Definition char_eq (ic : bool) (a c : ascii) : bool :=
  if ic then Ascii.eqb (upper a) (upper c) else Ascii.eqb a c.

(** With the [i] flag a class contains [c] when it contains a character
    with the same canonical form. *)
Definition item_match (ic : bool) (it : citem) (c : ascii) : bool :=
  item_has it c || (ic && (item_has it (upper c) || item_has it (lower c))).

Definition cls_match (ic neg : bool) (items : list citem) (c : ascii) : bool :=
  xorb neg (existsb (fun it => item_match ic it c) items).

(** Matcher state: the input is split at the current position, [m_left] is
    the consumed part, last character first. *)
Record mstate : Type := mkState {
  m_left : list ascii;
  m_right : list ascii;
  m_caps : gmap nat (list ascii)
}.

Definition advance (st : mstate) (c : ascii) (rest : list ascii) : mstate :=
  {| m_left := c :: m_left st; m_right := rest; m_caps := m_caps st |}.

Fixpoint advance_by (w : list ascii) (st : mstate) : option mstate :=
  match w with
  | [] => Some st
  | a :: w' =>
      match m_right st with
      | c :: rest => advance_by w' (advance st c rest)
      | [] => None
      end
  end.

Fixpoint prefix_ic (ic : bool) (w l : list ascii) : bool :=
  match w, l with
  | [], _ => true
  | a :: w', c :: l' => char_eq ic a c && prefix_ic ic w' l'
  | _ :: _, [] => false
  end.

(** The text consumed between two states of one run *)
Definition consumed (st st' : mstate) : list ascii :=
  take (length (m_right st) - length (m_right st')) (m_right st).

Definition set_cap (n : nat) (w : list ascii) (st : mstate) : mstate :=
  {| m_left := m_left st; m_right := m_right st; m_caps := <[n := w]> (m_caps st) |}.

Definition is_word_at (l : list ascii) : bool :=
  match l with
  | c :: _ => is_word c
  | [] => false
  end.

(** The greedy loop of a starred [body]: one more turn of the body if it
    consumes something, the continuation otherwise.  A turn that consumes
    nothing is rejected, as in ECMAScript's RepeatMatcher, so there are at
    most as many turns as characters left and [n] starts at that number
    ([run_star] below is the equation without [n]). *)
Fixpoint star_loop (body : mstate -> (mstate -> option mstate) -> option mstate)
  (k : mstate -> option mstate) (n : nat) (st : mstate) {struct n} : option mstate :=
  match n with
  | 0 => k st
  | S n' =>
      match body st (fun st' =>
               if length (m_right st') <? length (m_right st)
               then star_loop body k n' st' else None) with
      | Some res => Some res
      | None => k st
      end
  end.

(** A lower bound on what a path of the pattern consumes *)
Fixpoint min_len (r : regex) : nat :=
  match r with
  | Chr _ | Cls _ _ => 1
  | Seq r1 r2 => min_len r1 + min_len r2
  | Alt r1 r2 => Nat.min (min_len r1) (min_len r2)
  | Grp _ r1 => min_len r1
  | Eps | Star _ | Bref _ | Bol | Eol | WordB => 0
  end.

Section Matcher.
Variable ic : bool.

(** Backtracking matcher in continuation-passing style.  Captures set in
    an earlier turn of a loop are not cleared; no pattern of this program
    reads a group that sits under a quantifier. *)
Fixpoint run (r : regex) (st : mstate) (k : mstate -> option mstate)
  {struct r} : option mstate :=
  match r with
  | Eps => k st
  | Chr a =>
      match m_right st with
      | c :: rest => if char_eq ic a c then k (advance st c rest) else None
      | [] => None
      end
  | Cls neg items =>
      match m_right st with
      | c :: rest => if cls_match ic neg items c then k (advance st c rest) else None
      | [] => None
      end
  | Seq r1 r2 => run r1 st (fun st1 => run r2 st1 k)
  | Alt r1 r2 =>
      match run r1 st k with
      | Some res => Some res
      | None => run r2 st k
      end
  | Star r1 => star_loop (run r1) k (length (m_right st)) st
  | Grp n r1 => run r1 st (fun st' => k (set_cap n (consumed st st') st'))
  | Bref n =>
      match m_caps st !! n with
      | None => k st
      | Some w =>
          if prefix_ic ic w (m_right st)
          then match advance_by w st with
               | Some st' => k st'
               | None => None
               end
          else None
      end
  | Bol => match m_left st with [] => k st | _ :: _ => None end
  | Eol => match m_right st with [] => k st | _ :: _ => None end
  | WordB =>
      if xorb (is_word_at (m_left st)) (is_word_at (m_right st))
      then k st else None
  end.

Definition match_at (r : regex) (left right : list ascii) : option mstate :=
  run r {| m_left := left; m_right := right; m_caps := ∅ |} Some.

(** Leftmost match at or after the current position *)
Fixpoint search (r : regex) (left right : list ascii) : option (nat * mstate) :=
  match match_at r left right with
  | Some st => Some (length left, st)
  | None =>
      match right with
      | c :: right' => search r (c :: left) right'
      | [] => None
      end
  end.
End Matcher.

(** The result array of [exec]: [match.index], the index after the match
    (the new [lastIndex] of a global expression), [match[0]] and the
    groups. *)
Record match_result : Type := mkMatch {
  mr_index : nat;
  mr_end : nat;
  mr_whole : string;
  mr_caps : gmap nat (list ascii)
}.

(** [match[n]] for [n >= 1]; a group that did not take part is [undefined],
    written [""] here. *)
Definition group (m : match_result) (n : nat) : string :=
  match mr_caps m !! n with
  | Some w => str w
  | None => ""
  end.

(** [re.exec(s)] on a global expression whose [lastIndex] is [lastIndex] *)
Definition exec (re : RegExp) (s : list ascii) (lastIndex : nat) : option match_result :=
  if length s <? lastIndex then None
  else
    match search (re_icase re) (re_pat re) (rev (take lastIndex s)) (drop lastIndex s) with
    | Some (i, st) =>
        let e := length (m_left st) in
        Some {| mr_index := i; mr_end := e;
                mr_whole := str (take (e - i) (drop i s));
                mr_caps := m_caps st |}
    | None => None
    end.

(** [while ((match = re.exec(s)) !== null) { ... }] with a fresh global
    expression: the successive matches.  Every pattern driven this way in
    the program consumes at least one character, so the loop makes at most
    [length s + 1] calls. *)
Fixpoint exec_loop (fuel : nat) (re : RegExp) (s : list ascii) (lastIndex : nat)
  : list match_result :=
  match fuel with
  | 0 => []
  | S fuel' =>
      match exec re s lastIndex with
      | Some m => m :: exec_loop fuel' re s (mr_end m)
      | None => []
      end
  end.

Definition exec_all (re : RegExp) (s : string) : list match_result :=
  exec_loop (S (String.length s)) re (chars s) 0.

(** [re.test(s)] on an expression without the [g] flag *)
Definition test (re : RegExp) (s : string) : bool :=
  match search (re_icase re) (re_pat re) [] (chars s) with
  | Some _ => true
  | None => false
  end.

(** *** Declarative reading of a pattern

    [matches ic r st st'] holds when [r] can take the matcher from [st] to
    [st'], whatever the priorities.  Every result of [run] is such a
    path ([run_sound] below). *)
Inductive matches (ic : bool) : regex -> mstate -> mstate -> Prop :=
| M_Eps st : matches ic Eps st st
| M_Chr a c rest st :
    m_right st = c :: rest -> char_eq ic a c = true ->
    matches ic (Chr a) st (advance st c rest)
| M_Cls neg items c rest st :
    m_right st = c :: rest -> cls_match ic neg items c = true ->
    matches ic (Cls neg items) st (advance st c rest)
| M_Seq r1 r2 st st1 st2 :
    matches ic r1 st st1 -> matches ic r2 st1 st2 ->
    matches ic (Seq r1 r2) st st2
| M_AltL r1 r2 st st' : matches ic r1 st st' -> matches ic (Alt r1 r2) st st'
| M_AltR r1 r2 st st' : matches ic r2 st st' -> matches ic (Alt r1 r2) st st'
| M_Star0 r st : matches ic (Star r) st st
| M_StarS r st st1 st2 :
    matches ic r st st1 -> matches ic (Star r) st1 st2 ->
    matches ic (Star r) st st2
| M_Grp n r st st' :
    matches ic r st st' ->
    matches ic (Grp n r) st (set_cap n (consumed st st') st')
| M_BrefNone n st : m_caps st !! n = None -> matches ic (Bref n) st st
| M_Bref n w st st' :
    m_caps st !! n = Some w -> prefix_ic ic w (m_right st) = true ->
    advance_by w st = Some st' ->
    matches ic (Bref n) st st'
| M_Bol st : m_left st = [] -> matches ic Bol st st
| M_Eol st : m_right st = [] -> matches ic Eol st st
| M_WordB st :
    xorb (is_word_at (m_left st)) (is_word_at (m_right st)) = true ->
    matches ic WordB st st.

(** [frame st w st']: going from [st] to [st'] consumes exactly [w]. *)
Definition frame (st : mstate) (w : list ascii) (st' : mstate) : Prop :=
  m_right st = w ++ m_right st' /\ m_left st' = rev w ++ m_left st.

(** [match_of re s m]: [m] describes a path of [re] through [s] that starts
    at [mr_index m] with no capture set. *)
Definition match_of (re : RegExp) (s : list ascii) (m : match_result) : Prop :=
  exists st0 st' w,
    matches (re_icase re) (re_pat re) st0 st' /\
    frame st0 w st' /\
    m_caps st0 = ∅ /\
    s = rev (m_left st0) ++ m_right st0 /\
    mr_index m = length (m_left st0) /\
    mr_whole m = str w /\
    mr_caps m = m_caps st' /\
    mr_end m = mr_index m + length w /\
    min_len (re_pat re) <= length w.

End Regex.

(** ** Data model (types.ts) *)

Inductive context : Type := template | script.

Record TranslationKey : Type := mkKey {
  key : string;
  file : string;
  line : nat;
  ctx : context;
  isDynamic : bool;
  rawPattern : option string
}.

Record LocaleEntry : Type := mkEntry {
  e_key : string;
  e_value : string;
  e_file : string;
  isEmpty : bool
}.

Inductive issue_type : Type :=
| missing_translation | hardcoded_text | empty_value | dynamic_key.

Inductive severity : Type := error | warning | info.

Record AuditIssue : Type := mkIssue {
  i_type : issue_type;
  i_severity : severity;
  i_file : string;
  i_line : nat;
  i_key : option string;
  i_text : option string;
  i_message : string
}.

Record ParsedVueSFC : Type := mkParsed {
  filePath : string;
  p_template : option string;
  templateStartLine : nat;
  p_script : option string;
  scriptStartLine : nat;
  scriptSetup : option string;
  scriptSetupStartLine : nat
}.

Inductive confidence : Type := high | medium | low.

Record HardcodedString : Type := mkHardcoded {
  h_text : string;
  h_file : string;
  h_line : nat;
  h_confidence : confidence;
  h_context : string
}.

Record HardcodedTextRules : Type := mkRules {
  minLength : Z;
  excludeAllCaps : bool;
  excludePatterns : list string
}.

#[global] Instance context_eq_dec : EqDecision context.
Proof. solve_decision. Defined.
#[global] Instance issue_type_eq_dec : EqDecision issue_type.
Proof. solve_decision. Defined.
#[global] Instance severity_eq_dec : EqDecision severity.
Proof. solve_decision. Defined.

(** ** parser.ts *)

Definition calculateSourceLine (sectionLine sectionStartLine : nat) : nat :=
  sectionStartLine + sectionLine.

(** ** extractor.ts *)

Module Extractor.
Import JS Regex.

Definition quotes : string := String "'" (String dquote (String "`" "")).

(** [\s*] *)
Definition ws : regex := Star space.

(** [/\{\{\s*\$?t\s*\(\s*(['\x22`])([^'\x22`]+)\1/g]; here and below
    [\x22] stands for the double quote of the source pattern. *)
Definition interpolationPattern : RegExp :=
  mkRegExp
    (cat [lit "{{"; ws; Opt (Chr "$"); Chr "t"; ws; Chr "("; ws;
          Grp 1 (oneof quotes); Grp 2 (Plus (noneof quotes)); Bref 1])
    false.

(** [/:\w+(?:-\w+)*=[\x22']\s*\$?t\s*\(\s*(['\x22`])([^'\x22`]+)\1/g] *)
Definition boundAttrPattern : RegExp :=
  mkRegExp
    (cat [Chr ":"; Plus word; Star (Seq (Chr "-") (Plus word)); Chr "=";
          Cls false [CChar dquote; CChar "'"]; ws; Opt (Chr "$"); Chr "t"; ws;
          Chr "("; ws;
          Grp 1 (oneof quotes); Grp 2 (Plus (noneof quotes)); Bref 1])
    false.

(** [/\$?t\s*\(\s*`([^`]+)`/g] *)
Definition templateLiteralPattern : RegExp :=
  mkRegExp
    (cat [Opt (Chr "$"); Chr "t"; ws; Chr "("; ws; Chr "`";
          Grp 1 (Plus (noneof "`")); Chr "`"])
    false.

(** [/useI18n\s*\(/] *)
Definition useI18nPattern : RegExp :=
  mkRegExp (cat [lit "useI18n"; ws; Chr "("]) false.

(** [/const\s*\{\s*t\s*[,}]/] *)
Definition destructuredTPattern : RegExp :=
  mkRegExp (cat [lit "const"; ws; Chr "{"; ws; Chr "t"; ws; oneof ",}"]) false.

(** [/\bt\s*\(\s*(['\x22`])([^'\x22`]+)\1/g] *)
Definition simplePattern : RegExp :=
  mkRegExp
    (cat [WordB; Chr "t"; ws; Chr "("; ws;
          Grp 1 (oneof quotes); Grp 2 (Plus (noneof quotes)); Bref 1])
    false.

(** [/\bt\s*\(\s*`([^`]+)`/g] *)
Definition scriptTemplateLiteralPattern : RegExp :=
  mkRegExp
    (cat [WordB; Chr "t"; ws; Chr "("; ws; Chr "`";
          Grp 1 (Plus (noneof "`")); Chr "`"])
    false.

Definition staticKey (k filePath : string) (lineNumber : nat) (c : context)
  : TranslationKey :=
  {| key := k; file := filePath; line := lineNumber; ctx := c;
     isDynamic := false; rawPattern := None |}.

Definition dynamicKey (raw filePath : string) (lineNumber : nat) (c : context)
  : TranslationKey :=
  {| key := ""; file := filePath; line := lineNumber; ctx := c;
     isDynamic := true; rawPattern := Some ("`" +:+ raw +:+ "`") |}.

(** Body of the template-literal loop, shared by both extractors *)
Definition fromLiteral (filePath : string) (lineNumber : nat) (c : context)
  (m : match_result) : TranslationKey :=
  let rawPattern := group m 1 in
  if includes rawPattern "${"
  then dynamicKey rawPattern filePath lineNumber c
  else staticKey rawPattern filePath lineNumber c.

Definition templateLine (filePath : string) (startLine i : nat) (line : string)
  : list TranslationKey :=
  let lineNumber := calculateSourceLine (i + 1) startLine in
  map (fun m => staticKey (group m 2) filePath lineNumber template)
      (exec_all interpolationPattern line)
  ++ map (fun m => staticKey (group m 2) filePath lineNumber template)
      (exec_all boundAttrPattern line)
  ++ map (fromLiteral filePath lineNumber template)
      (exec_all templateLiteralPattern line).

Definition extractFromTemplate (tpl filePath : string) (startLine : nat)
  : list TranslationKey :=
  concat (imap (templateLine filePath startLine) (split_lines tpl)).

Definition scriptLine (filePath : string) (startLine i : nat) (line : string)
  : list TranslationKey :=
  let lineNumber := calculateSourceLine (i + 1) startLine in
  if startsWith (trim line) "import " || startsWith (trim line) "type "
  then []
  else
    map (fun m => staticKey (group m 2) filePath lineNumber script)
        (exec_all simplePattern line)
    ++ map (fromLiteral filePath lineNumber script)
        (exec_all scriptTemplateLiteralPattern line).

Definition usesI18n (src : string) : bool :=
  test useI18nPattern src || test destructuredTPattern src.

Definition extractFromScript (src filePath : string) (startLine : nat)
  : list TranslationKey :=
  if negb (usesI18n src) then []
  else concat (imap (scriptLine filePath startLine) (split_lines src)).

(** A section is scanned when it is neither [null] nor the empty string. *)
Definition present (section : option string) : option string :=
  match section with
  | Some s => if truthy s then Some s else None
  | None => None
  end.

Definition extractTranslationKeys (parsed : ParsedVueSFC) : list TranslationKey :=
  match present (p_template parsed) with
  | Some t => extractFromTemplate t (filePath parsed) (templateStartLine parsed)
  | None => []
  end
  ++ match present (scriptSetup parsed) with
     | Some s => extractFromScript s (filePath parsed) (scriptSetupStartLine parsed)
     | None => []
     end
  ++ match present (p_script parsed) with
     | Some s => extractFromScript s (filePath parsed) (scriptStartLine parsed)
     | None => []
     end.

(** [getUniqueKeys]: a [Set] keeps its elements in insertion order.
    [sort()] without a comparator orders strings by UTF-16 code units;
    [String.le] orders the encoded text byte by byte, which is the order of
    the code points.  The two orders are the same on all text of the Basic
    Multilingual Plane, keys and paths in ASCII among it; they differ only
    between a character beyond U+FFFF and one from U+E000 to U+FFFF. *)
Definition set_add (s : string) (seen : list string) : list string :=
  if decide (s ∈ seen) then seen else seen ++ [s].

(** [!key.isDynamic && key.key] *)
Definition counted (k : TranslationKey) : bool :=
  negb (isDynamic k) && truthy (key k).

Definition uniqueSet (keys : list TranslationKey) : list string :=
  fold_left (fun seen k => if counted k then set_add (key k) seen else seen)
            keys [].

Definition sort (l : list string) : list string := merge_sort String.le l.

Definition getUniqueKeys (keys : list TranslationKey) : list string :=
  sort (uniqueSet keys).

Definition getDynamicKeys (keys : list TranslationKey) : list TranslationKey :=
  filter (fun k => isDynamic k = true) keys.

Definition getStaticKeys (keys : list TranslationKey) : list TranslationKey :=
  filter (fun k => counted k = true) keys.

Definition backtick : ascii := "`"%char.

(** [`([^`]+)`], the tail of both template-literal patterns *)
Definition literal_tail : list regex :=
  [Chr backtick; Grp 1 (Plus (noneof "`")); Chr backtick].

(** [(['\x22`])([^'\x22`]+)\1], the tail of the three quoted patterns *)
Definition quoted_tail : list regex :=
  [Grp 1 (oneof quotes); Grp 2 (Plus (noneof quotes)); Bref 1].

(** [from_line line k]: what is known of a record extracted from [line].
    A static record has a key; a dynamic one has none and its raw pattern
    is a backtick-delimited piece of the line. *)
Definition from_line (line : string) (k : TranslationKey) : Prop :=
  (isDynamic k = false /\ key k <> "" /\ rawPattern k = None) \/
  (isDynamic k = true /\ key k = "" /\
   exists body a b,
     rawPattern k = Some ("`" +:+ body +:+ "`") /\
     includes body "${" = true /\
     Forall (fun c => c <> backtick) (chars body) /\
     line = a +:+ ("`" +:+ body +:+ "`") +:+ b).

(** The sections of a file that the extractor may scan *)
Definition sections (parsed : ParsedVueSFC) : list string :=
  omap present [p_template parsed; scriptSetup parsed; p_script parsed].

End Extractor.

(** ** locales.ts *)

Module Locales.
Import JS.

Local Set Warnings "-register-all".

(** What [JSON.parse] and the fallback scanner return.  An object is the
    list of its own properties in [Object.entries] order. *)
Inductive value : Type :=
| VNull
| VBool (b : bool)
| VNum (n : Z)
| VStr (s : string)
| VArr (items : list value)
| VObj (fields : list (string * value)).

(** [prefix ? `${prefix}.${key}` : key] *)
Definition fullKeyOf (pre k : string) : string :=
  if truthy pre then pre +:+ "." +:+ k else k.

(** One turn of the loop of [flattenObject] on the property [fullKey];
    the object case is the recursive call of [flattenObject]. *)
Fixpoint flattenValue (file fullKey : string) (v : value) {struct v}
  : list LocaleEntry :=
  match v with
  | VObj fields =>
      (fix flattenFields (fs : list (string * value)) : list LocaleEntry :=
         match fs with
         | [] => []
         | (k, v') :: fs' =>
             flattenValue file (fullKeyOf fullKey k) v' ++ flattenFields fs'
         end) fields
  | VStr s =>
      [{| e_key := fullKey; e_value := s; e_file := file;
          isEmpty := String.eqb (trim s) "" |}]
  | VNull | VBool _ | VNum _ | VArr _ => []
  end.

Definition flattenObject (obj : list (string * value)) (pre file : string)
  : list LocaleEntry :=
  flat_map (fun '(k, v) => flattenValue file (fullKeyOf pre k) v) obj.

(** A locale file as [loadLocaleEntries] sees it once the directory has
    been listed: its path, its namespace [basename(file, '.ts')], and what
    [parseLocaleFile] returned ([None]: it threw). *)
Record LocaleFile : Type := mkLocaleFile {
  lf_path : string;
  lf_namespace : string;
  lf_parsed : option (list (string * value))
}.

Definition loadLocaleEntries (files : list LocaleFile) : list LocaleEntry :=
  flat_map (fun f =>
              if String.eqb (lf_namespace f) "index" then []
              else match lf_parsed f with
                   | Some obj => flattenObject obj (lf_namespace f) (lf_path f)
                   | None => []
                   end)
           files.

Definition createLocaleLookup (entries : list LocaleEntry) : gmap string LocaleEntry :=
  fold_left (fun lookup entry => <[e_key entry := entry]> lookup) entries ∅.

(** [isEmpty] says that the trimmed value is empty. *)
Definition entry_ok (e : LocaleEntry) : Prop :=
  isEmpty e = String.eqb (trim (e_value e)) "".

(** The string leaves of a value with the keys that lead to them, in
    document order *)
Fixpoint leaves (v : value) {struct v} : list (list string * string) :=
  match v with
  | VObj fields =>
      (fix leavesFields (fs : list (string * value)) : list (list string * string) :=
         match fs with
         | [] => []
         | (k, v') :: fs' =>
             map (fun l => (k :: fst l, snd l)) (leaves v') ++ leavesFields fs'
         end) fields
  | VStr s => [([], s)]
  | VNull | VBool _ | VNum _ | VArr _ => []
  end.

Definition leavesOf (obj : list (string * value)) : list (list string * string) :=
  flat_map (fun '(k, v) => map (fun l => (k :: fst l, snd l)) (leaves v)) obj.

(** [ns.k1.k2...] *)
Definition dotted (ns : string) (path : list string) : string :=
  fold_left (fun acc k => acc +:+ "." +:+ k) path ns.

Definition entryOf (ns file : string) (l : list string * string) : LocaleEntry :=
  {| e_key := dotted ns (fst l); e_value := snd l; e_file := file;
     isEmpty := String.eqb (trim (snd l)) "" |}.

(** The same object with sibling properties enumerated in another order,
    at any depth *)
Inductive reorder : value -> value -> Prop :=
| reorder_same v : reorder v v
| reorder_obj fs fs' : reorder_fields fs fs' -> reorder (VObj fs) (VObj fs')
with reorder_fields : list (string * value) -> list (string * value) -> Prop :=
| rf_nil : reorder_fields [] []
| rf_skip k v v' fs fs' :
    reorder v v' -> reorder_fields fs fs' ->
    reorder_fields ((k, v) :: fs) ((k, v') :: fs')
| rf_swap a b fs : reorder_fields (a :: b :: fs) (b :: a :: fs)
| rf_trans fs1 fs2 fs3 :
    reorder_fields fs1 fs2 -> reorder_fields fs2 fs3 -> reorder_fields fs1 fs3.

Scheme reorder_mut := Minimality for reorder Sort Prop
  with reorder_fields_mut := Minimality for reorder_fields Sort Prop.

End Locales.

(** ** validator.ts *)

Module Validator.
Import JS.

Definition show (o : option string) : string :=
  match o with
  | Some s => s
  | None => "undefined"
  end.

Section WithHost.
(** [path.relative(from, to)] *)
Variable relative : string -> string -> string.

Definition getRelativePath (filePath projectRoot : string) : string :=
  relative projectRoot filePath.

(** The body of the loop of [validateKeys]: the issues pushed for one key *)
Definition validateKey (localeLookup : gmap string LocaleEntry)
  (projectRoot : string) (k : TranslationKey) : list AuditIssue :=
  if isDynamic k then
    [{| i_type := dynamic_key; i_severity := info;
        i_file := getRelativePath (file k) projectRoot;
        i_line := line k;
        i_key := rawPattern k;
        i_text := None;
        i_message := "Dynamic translation key detected: " +:+ show (rawPattern k)
                     +:+ ". Manual review required." |}]
  else
    match localeLookup !! key k with
    | None =>
        [{| i_type := missing_translation; i_severity := error;
            i_file := getRelativePath (file k) projectRoot;
            i_line := line k;
            i_key := Some (key k);
            i_text := None;
            i_message := "Translation key '" +:+ key k
                         +:+ "' not found in English locale" |}]
    | Some localeEntry =>
        if isEmpty localeEntry then
          [{| i_type := empty_value; i_severity := warning;
              i_file := getRelativePath (file k) projectRoot;
              i_line := line k;
              i_key := Some (key k);
              i_text := None;
              i_message := "Translation key '" +:+ key k
                           +:+ "' has an empty value" |}]
        else []
    end.

Definition validateKeys (keys : list TranslationKey)
  (localeLookup : gmap string LocaleEntry) (projectRoot : string)
  : list AuditIssue :=
  fold_left (fun (issues : list AuditIssue) k =>
               issues ++ validateKey localeLookup projectRoot k)
            keys [].

Definition findEmptyLocaleValues (entries : list LocaleEntry)
  (projectRoot : string) : list AuditIssue :=
  fold_left (fun (issues : list AuditIssue) entry =>
               if isEmpty entry then
                 issues ++
                 [{| i_type := empty_value; i_severity := warning;
                     i_file := getRelativePath (e_file entry) projectRoot;
                     i_line := 0;
                     i_key := Some (e_key entry);
                     i_text := None;
                     i_message := "Translation key '" +:+ e_key entry
                                  +:+ "' has an empty value in locale file" |}]
               else issues)
            entries [].
End WithHost.

Record IssueCounts : Type := mkCounts {
  missingTranslations : nat;
  emptyValues : nat;
  dynamicKeys : nat
}.

Definition countIssuesByType (issues : list AuditIssue) : IssueCounts :=
  fold_left (fun c issue =>
               match i_type issue with
               | missing_translation =>
                   mkCounts (S (missingTranslations c)) (emptyValues c) (dynamicKeys c)
               | empty_value =>
                   mkCounts (missingTranslations c) (S (emptyValues c)) (dynamicKeys c)
               | dynamic_key =>
                   mkCounts (missingTranslations c) (emptyValues c) (S (dynamicKeys c))
               | hardcoded_text => c
               end)
            issues (mkCounts 0 0 0).

End Validator.

(** ** hardcoded.ts *)

Module Hardcoded.
Import JS Regex.

Definition az : regex := Cls false [CRange "a" "z"].
Definition AZ : regex := Cls false [CRange "A" "Z"].
Definition anchored (rs : list regex) : regex := cat (Bol :: rs).

Definition DEFAULT_EXCLUDE_PATTERNS : list RegExp :=
  [ mkRegExp (anchored [lit "v-"]) false;                         (* /^v-/ *)
    mkRegExp (anchored [Chr "@"]) false;                          (* /^@/ *)
    mkRegExp (anchored [Chr ":"]) false;                          (* /^:/ *)
    mkRegExp (anchored [Chr "#"]) false;                          (* /^#/ *)
    mkRegExp (anchored [lit "route("]) false;                     (* /^route\(/ *)
    mkRegExp (anchored [lit "router."]) false;                    (* /^router\./ *)
    mkRegExp (anchored [lit "http"; Opt (Chr "s"); lit "://"]) false;
                                                                  (* /^https?:\/\// *)
    mkRegExp (anchored [lit "mailto:"]) false;                    (* /^mailto:/ *)
    mkRegExp (anchored [Chr "/"]) false;                          (* /^\// *)
    mkRegExp (anchored [Plus az; Plus (Grp 1 (Seq (Chr "-") (Plus az))); Eol]) false;
                                                                  (* /^[a-z]+(-[a-z]+)+$/ *)
    mkRegExp (anchored [Plus az; Chr "_"; Plus az]) true;         (* /^[a-z]+_[a-z]+/i *)
    mkRegExp (anchored [Plus digit; Eol]) false;                  (* /^\d+$/ *)
    mkRegExp (anchored [Chr "#"; Rep 3 8 (Cls false [CRange "0" "9"; CRange "a" "f"]); Eol])
             true;                                                (* /^#[0-9a-f]{3,8}$/i *)
    mkRegExp (anchored [lit "${"]) false                          (* /^\$\{/ *)
  ].

(** An element of [(RegExp | string)[]]; an expression is used through its
    [test] method only. *)
Inductive pattern : Type :=
| PRegExp (test : string -> bool)
| PString (s : string).

Fixpoint matchesExclusionPattern (text : string) (patterns : list pattern) : bool :=
  match patterns with
  | [] => false
  | PString p :: rest =>
      if startsWith text p then true else matchesExclusionPattern text rest
  | PRegExp re_test :: rest =>
      if re_test text then true else matchesExclusionPattern text rest
  end.

Definition alnum : regex :=
  Cls false [CRange "a" "z"; CRange "A" "Z"; CRange "0" "9"].

(** [/^[A-Z][a-zA-Z0-9]*$/] *)
Definition isComponentName (text : string) : bool :=
  test (mkRegExp (anchored [AZ; Star alnum; Eol]) false) text.

Definition isTechnicalIdentifier (text : string) : bool :=
  (* /^[A-Z][A-Z0-9_]*$/ *)
  if test (mkRegExp (anchored [AZ; Star (Cls false [CRange "A" "Z"; CRange "0" "9"; CChar "_"]); Eol])
                    false) text
  then true
  (* /^[a-z][a-zA-Z0-9]*$/ *)
  else if test (mkRegExp (anchored [az; Star alnum; Eol]) false) text
          && (units text <? 20)
  then true
  (* /^\.\w+$/ *)
  else if test (mkRegExp (anchored [Chr "."; Plus word; Eol]) false) text
  then true
  else false.

Definition calculateConfidence (text : string) : confidence :=
  let trimmed := trim text in
  (* /^[A-Z][a-z]/ *)
  if test (mkRegExp (anchored [AZ; az]) false) trimmed && includes trimmed " "
  then high
  (* /[.!?:,]$/ *)
  else if test (mkRegExp (cat [oneof ".!?:,"; Eol]) false) trimmed
          && (5 <? units trimmed)
  then high
  (* /^[A-Z][a-z]+$/ *)
  else if test (mkRegExp (anchored [AZ; Plus az; Eol]) false) trimmed
  then medium
  else if includes trimmed " " && (10 <? units trimmed)
  then medium
  else low.

Record TextNode : Type := mkNode {
  n_text : string;
  n_line : nat;
  n_context : string
}.

(** [/>([^<{]+)</g] *)
Definition textPattern : RegExp :=
  mkRegExp (cat [Chr ">"; Grp 1 (Plus (noneof "<{")); Chr "<"]) false.

(** [/^\s*$/] *)
Definition blankPattern : RegExp :=
  mkRegExp (anchored [Star space; Eol]) false.

Definition textNodesOfLine (i : nat) (line : string) : list TextNode :=
  flat_map (fun m =>
              let text := trim (group m 1) in
              if negb (truthy text) || test blankPattern text then []
              else if includes text "{{" || includes text "}}" then []
              else
                (* [match.index]: the code units before the match *)
                let index := units (str (take (mr_index m) (chars line))) in
                let contextStart := index - 20 in
                let contextEnd :=
                  Nat.min (units line) (index + units (mr_whole m) + 20) in
                [{| n_text := text; n_line := i + 1;
                    n_context := substring line contextStart contextEnd |}])
           (exec_all textPattern line).

Definition extractTextNodes (tpl : string) : list TextNode :=
  concat (imap textNodesOfLine (split_lines tpl)).

Section WithHost.
(** [path.relative(from, to)] *)
Variable relative : string -> string -> string.
(** [new RegExp(source)], given as the [test] method of the expression it
    returns; [None] when the constructor throws a SyntaxError *)
Variable new_RegExp : string -> option (string -> bool).
(** [s.toUpperCase()] *)
Variable toUpperCase : string -> string.

(** [rules.excludePatterns.map(p => new RegExp(p))]: the first invalid
    source aborts the call *)
Fixpoint compilePatterns (sources : list string) : option (list (string -> bool)) :=
  match sources with
  | [] => Some []
  | p :: rest =>
      match new_RegExp p with
      | None => None
      | Some re =>
          match compilePatterns rest with
          | None => None
          | Some res => Some (re :: res)
          end
      end
  end.

(** The filters of the loop of [detectHardcodedStrings]: [true] when the
    node is kept *)
Definition keepNode (rules : HardcodedTextRules) (excludePatterns : list pattern)
  (text : string) : bool :=
  if (Z.of_nat (units text) <? minLength rules)%Z then false
  else if excludeAllCaps rules && String.eqb text (toUpperCase text)
          && (2 <? units text) then false
  else if matchesExclusionPattern text excludePatterns then false
  else if isComponentName text then false
  else if isTechnicalIdentifier text then false
  else true.

(** [None]: the call throws *)
Definition detectHardcodedStrings (parsed : ParsedVueSFC)
  (rules : HardcodedTextRules) (projectRoot : string)
  : option (list HardcodedString) :=
  match Extractor.present (p_template parsed) with
  | None => Some []
  | Some tpl =>
      let textNodes := extractTextNodes tpl in
      match compilePatterns (excludePatterns rules) with
      | None => None
      | Some user =>
          let excludePatterns :=
            map (fun re => PRegExp (test re)) DEFAULT_EXCLUDE_PATTERNS
            ++ map PRegExp user in
          Some (flat_map (fun node =>
                  let text := n_text node in
                  if keepNode rules excludePatterns text then
                    [{| h_text := text;
                        h_file := relative projectRoot (filePath parsed);
                        h_line := calculateSourceLine (n_line node)
                                    (templateStartLine parsed);
                        h_confidence := calculateConfidence text;
                        h_context := n_context node |}]
                  else [])
                textNodes)
      end
  end.
End WithHost.

Definition confidenceLevel (c : confidence) : nat :=
  match c with high => 3 | medium => 2 | low => 1 end.

Definition filterByConfidence (strings : list HardcodedString)
  (minConfidence : confidence) : list HardcodedString :=
  filter (fun s => confidenceLevel minConfidence <= confidenceLevel (h_confidence s))
         strings.

(** A rule set with another pattern list, or another minimum length *)
Definition withPatterns (rules : HardcodedTextRules) (patterns : list string)
  : HardcodedTextRules :=
  {| minLength := minLength rules; excludeAllCaps := excludeAllCaps rules;
     excludePatterns := patterns |}.

Definition withMinLength (rules : HardcodedTextRules) (n : Z) : HardcodedTextRules :=
  {| minLength := n; excludeAllCaps := excludeAllCaps rules;
     excludePatterns := excludePatterns rules |}.

End Hardcoded.

(** ** audit.ts *)

Module Audit.
Import JS Regex Extractor Locales Validator Hardcoded.

(** JavaScript numbers are binary64 floats. *)
Definition num (z : Z) : float :=
  if (z <? 0)%Z then PrimFloat.opp (PrimFloat.of_uint63 (Uint63.of_Z (- z)))
  else PrimFloat.of_uint63 (Uint63.of_Z z).

(** [Math.round]: the integer nearest to [x], ties towards +∞, keeping the
    sign of a zero result *)
Definition Math_round (x : float) : float :=
  match Prim2SF x with
  | S754_finite s m e =>
      if (0 <=? e)%Z then x
      else
        let n := ((2 * (if s then Z.neg m else Z.pos m) + 2 ^ (- e)) / 2 ^ (1 - e))%Z in
        if (n =? 0)%Z && s then (-0)%float else num n
  | _ => x
  end.

(** [totalUniqueKeys > 0
      ? Math.round(((totalUniqueKeys - missingKeys) / totalUniqueKeys) * 1000) / 10
      : 100] *)
Definition coverage (totalUniqueKeys missingKeys : nat) : float :=
  if 0 <? totalUniqueKeys then
    (Math_round
       (((num (Z.of_nat totalUniqueKeys) - num (Z.of_nat missingKeys))
         / num (Z.of_nat totalUniqueKeys)) * 1000) / 10)%float
  else 100%float.

Inductive file_status : Type := clean | issues_found.

Record FileResult : Type := mkFileResult {
  fr_file : string;
  fr_status : file_status;
  keysFound : nat;
  issueCount : nat
}.

Record AuditSummary : Type := mkSummary {
  filesScanned : nat;
  totalKeysFound : nat;
  uniqueKeysFound : nat;
  s_missingTranslations : nat;
  hardcodedStrings : nat;
  s_emptyValues : nat;
  s_dynamicKeys : nat;
  coveragePercentage : float
}.

Record AuditReport : Type := mkReport {
  summary : AuditSummary;
  issues : list AuditIssue;
  fileResults : list FileResult
}.

(** The accumulators of the file loop of [runAudit] *)
Record Acc : Type := mkAcc {
  allIssues : list AuditIssue;
  allKeys : list TranslationKey;
  results : list FileResult
}.

Definition show_confidence (c : confidence) : string :=
  match c with high => "high" | medium => "medium" | low => "low" end.

Section WithHost.
Variable relative : string -> string -> string.
Variable new_RegExp : string -> option (string -> bool).
Variable toUpperCase : string -> string.

Definition hardcodedIssue (h : HardcodedString) : AuditIssue :=
  {| i_type := hardcoded_text; i_severity := warning;
     i_file := h_file h; i_line := h_line h;
     i_key := None; i_text := Some (h_text h);
     i_message := "Potential hardcoded text: " +:+ String dquote (h_text h)
                  +:+ String dquote " (confidence: "
                  +:+ show_confidence (h_confidence h) +:+ ")" |}.

(** One turn of the file loop; [parsed] is [None] when [parseVueSFC]
    throws. *)
Definition processFile (rules : HardcodedTextRules) (projectRoot : string)
  (localeLookup : gmap string LocaleEntry) (acc : Acc)
  (f : string * option ParsedVueSFC) : Acc :=
  let relPath := getRelativePath relative (fst f) projectRoot in
  match snd f with
  | Some parsed =>
      let keys := extractTranslationKeys parsed in
      let keyIssues := validateKeys relative keys localeLookup projectRoot in
      let hardcodedIssues :=
        match detectHardcodedStrings relative new_RegExp toUpperCase parsed rules projectRoot with
        | Some hardcodedStrings => map hardcodedIssue hardcodedStrings
        | None => []
        end in
      let fileIssues := keyIssues ++ hardcodedIssues in
      {| allIssues := allIssues acc ++ fileIssues;
         allKeys := allKeys acc ++ keys;
         results := results acc ++
           [{| fr_file := relPath;
               fr_status := if 0 <? length fileIssues then issues_found else clean;
               keysFound := length keys;
               issueCount := length fileIssues |}] |}
  | None =>
      {| allIssues := allIssues acc;
         allKeys := allKeys acc;
         results := results acc ++
           [{| fr_file := relPath; fr_status := issues_found;
               keysFound := 0; issueCount := 1 |}] |}
  end.

(** [runAudit] after the locale directory has been read and the Vue
    files found and read: [localeFiles] is the locale directory and
    [vueFiles] the scanned files with what [parseVueSFC] returns. *)
Definition runAudit (rules : HardcodedTextRules) (projectRoot : string)
  (localeFiles : list LocaleFile)
  (vueFiles : list (string * option ParsedVueSFC)) : AuditReport :=
  let localeEntries := loadLocaleEntries localeFiles in
  let localeLookup := createLocaleLookup localeEntries in
  let acc := fold_left (processFile rules projectRoot localeLookup) vueFiles
                       (mkAcc [] [] []) in
  let uniqueKeys := getUniqueKeys (allKeys acc) in
  let issueCounts := countIssuesByType (allIssues acc) in
  let hardcodedCount :=
    length (filter (fun i => i_type i = hardcoded_text) (allIssues acc)) in
  let totalUniqueKeys := length uniqueKeys in
  let missingKeys := missingTranslations issueCounts in
  {| summary :=
       {| filesScanned := length vueFiles;
          totalKeysFound := length (allKeys acc);
          uniqueKeysFound := length uniqueKeys;
          s_missingTranslations := missingTranslations issueCounts;
          hardcodedStrings := hardcodedCount;
          s_emptyValues := emptyValues issueCounts;
          s_dynamicKeys := dynamicKeys issueCounts;
          coveragePercentage := coverage totalUniqueKeys missingKeys |};
     issues := allIssues acc;
     fileResults := results acc |}.
End WithHost.

(** The number of unique static keys that are not in the lookup table *)
Definition missingUnique (lookup : gmap string LocaleEntry)
  (keys : list TranslationKey) : nat :=
  length (filter (fun s => lookup !! s = None) (getUniqueKeys keys)).

End Audit.

(** ** Sample inputs *)

Module Examples.
Import JS Regex Extractor Locales Hardcoded.

(** A stand-in for [path.relative]: drop the root and the slash. *)
Definition relative0 (from to : string) : string :=
  if String.prefix (from +:+ "/") to
  then String.substring (S (String.length from))
                        (String.length to - S (String.length from)) to
  else to.

(** A setup section that obtains [t] and makes a dynamic call *)
Definition page_dynamic : ParsedVueSFC :=
  {| filePath := "/app/Pages/Status.vue";
     p_template := None; templateStartLine := 1;
     p_script := None; scriptStartLine := 1;
     scriptSetup := Some "
const { t } = useI18n()
const label = t(`status.${state}`)
";
     scriptSetupStartLine := 5 |}.

Definition key_dynamic : TranslationKey :=
  {| key := ""; file := "/app/Pages/Status.vue"; line := 8; ctx := script;
     isDynamic := true; rawPattern := Some "`status.${state}`" |}.

Definition key_save : TranslationKey :=
  {| key := "common.save"; file := "/app/Pages/Form.vue"; line := 3;
     ctx := template; isDynamic := false; rawPattern := None |}.

(** A classic section with calls of an unrelated [t] *)
Definition unrelated_script : string :=
  "function t(x) { return x }
const a = t('hello.world') + t('other.key')".

(** A locale file with a blank value *)
Definition locale_common : LocaleFile :=
  {| lf_path := "/app/locales/en/common.ts"; lf_namespace := "common";
     lf_parsed := Some [("save", VStr "Save"); ("title", VStr "  ")] |}.

Definition key_title : TranslationKey :=
  {| key := "common.title"; file := "/app/Pages/Form.vue"; line := 4;
     ctx := template; isDynamic := false; rawPattern := None |}.

Definition entry_title : LocaleEntry :=
  {| e_key := "common.title"; e_value := "  ";
     e_file := "/app/locales/en/common.ts"; isEmpty := true |}.

(** The same key in two files *)
Definition entry_first : LocaleEntry :=
  {| e_key := "common.save"; e_value := "Save";
     e_file := "/app/locales/en/common.ts"; isEmpty := false |}.

Definition entry_second : LocaleEntry :=
  {| e_key := "common.save"; e_value := "Store";
     e_file := "/app/locales/en/forms.ts"; isEmpty := false |}.

Definition entry_other : LocaleEntry :=
  {| e_key := "forms.name"; e_value := "Name";
     e_file := "/app/locales/en/forms.ts"; isEmpty := false |}.

(** The object of the flattening example and a reordering of it *)
Definition nested : list (string * value) :=
  [("a", VObj [("b", VStr "x"); ("c", VStr "y")])].

Definition mixed : list (string * value) :=
  [("n", VNum 3); ("a", VObj [("b", VStr "x"); ("l", VArr [VStr "q"])]);
   ("z", VNull); ("t", VBool true)].

Definition nested_swapped : list (string * value) :=
  [("a", VObj [("c", VStr "y"); ("b", VStr "x")])].

(** A stand-in for [toUpperCase] that knows the letters of ASCII and, in
    their two-byte encoding, those of Latin-1 from U+00E0 to U+00FE *)
Fixpoint upper_bytes (l : list ascii) : list ascii :=
  match l with
  | a :: l' =>
      match l' with
      | b :: l'' =>
          if (code a =? 195) && between 160 190 (code b) && negb (code b =? 183)
          then a :: ascii_of_nat (code b - 32) :: upper_bytes l''
          else upper a :: upper_bytes l'
      | [] => [upper a]
      end
  | [] => []
  end.

Definition toUpperCase0 (s : string) : string := str (upper_bytes (chars s)).

(** A stand-in for the pattern parser that knows three sources *)
Definition new_RegExp0 (source : string) : option (string -> bool) :=
  if String.eqb source "^v-"
  then Some (test (mkRegExp (anchored [lit "v-"]) false))
  else if String.eqb source "^Lorem"
  then Some (test (mkRegExp (anchored [lit "Lorem"]) false))
  else if String.eqb source "ipsum$"
  then Some (test (mkRegExp (cat [lit "ipsum"; Eol]) false))
  else None.

Definition rules0 : HardcodedTextRules :=
  {| minLength := 3; excludeAllCaps := true; excludePatterns := ["^v-"] |}.

Definition page_text : ParsedVueSFC :=
  {| filePath := "/app/Pages/Home.vue";
     p_template := Some "<h1>Welcome to Dashboard</h1>
<p>Lorem ipsum</p><b>Hi</b>";
     templateStartLine := 1;
     p_script := None; scriptStartLine := 1;
     scriptSetup := None; scriptSetupStartLine := 1 |}.

Definition text_welcome : HardcodedString :=
  {| h_text := "Welcome to Dashboard"; h_file := "Pages/Home.vue"; h_line := 2;
     h_confidence := high; h_context := "<h1>Welcome to Dashboard</h1>" |}.

Definition text_lorem : HardcodedString :=
  {| h_text := "Lorem ipsum"; h_file := "Pages/Home.vue"; h_line := 3;
     h_confidence := high; h_context := "<p>Lorem ipsum</p><b>Hi</b>" |}.

(** One missing key used at two call sites *)
Definition page_twice : ParsedVueSFC :=
  {| filePath := "/app/Pages/Twice.vue";
     p_template := Some "<p>{{ t('a.b') }}</p>
<p>{{ t('a.b') }}</p>";
     templateStartLine := 1;
     p_script := None; scriptStartLine := 1;
     scriptSetup := None; scriptSetupStartLine := 1 |}.

(** A file with a markup section only, and a one-entry catalog *)
Definition markup (tpl : string) : ParsedVueSFC :=
  {| filePath := "/app/Pages/Page.vue";
     p_template := Some tpl; templateStartLine := 1;
     p_script := None; scriptStartLine := 1;
     scriptSetup := None; scriptSetupStartLine := 1 |}.

Definition catalog : gmap string LocaleEntry :=
  createLocaleLookup
    (loadLocaleEntries
       [{| lf_path := "/app/locales/en/common.ts"; lf_namespace := "common";
           lf_parsed := Some [("save", VStr "Save")] |}]).

End Examples.

(** ** audit.ts, reporter.ts: queries on a report *)

Module Report.
Import Audit.

#[global] Instance file_status_eq_dec : EqDecision file_status.
Proof. solve_decision. Defined.

Definition getIssuesByType (issues : list AuditIssue) (type : issue_type)
  : list AuditIssue :=
  filter (fun i => i_type i = type) issues.

Definition getFilesWithIssues (fileResults : list FileResult) : list FileResult :=
  filter (fun f => fr_status f = issues_found) fileResults.

Definition getCleanFiles (fileResults : list FileResult) : list FileResult :=
  filter (fun f => fr_status f = clean) fileResults.

(** [report.issues.filter(i => i.severity !== 'info').length] *)
Definition countActionableIssues (report : AuditReport) : nat :=
  length (filter (fun i => i_severity i <> info) (issues report)).

End Report.

(** ** scanner.ts *)

Module Scanner.
Import JS Extractor.

(** [scanVueFiles] from the answer of [globSync] on: [found] is the list it
    returns, [None] when it throws. *)
Definition scanVueFiles (includePartials : bool) (found : option (list string))
  : list string :=
  match found with
  | Some files =>
      sort (if includePartials then files
            else filter (fun f => includes f "/Partials/" = false) files)
  | None => []
  end.

End Scanner.

(** ** index.ts: how the commands choose their exit code *)

Module Cli.
Import JS Audit Report.

Definition EXIT_SUCCESS : nat := 0.
Definition EXIT_ISSUES_FOUND : nat := 1.
Definition EXIT_INVALID_ARGS : nat := 2.
Definition EXIT_FILE_ERROR : nat := 3.

(** The longest prefix of decimal digits *)
Fixpoint leadingDigits (l : list ascii) : list ascii :=
  match l with
  | c :: l' => if is_digit c then c :: leadingDigits l' else []
  | [] => []
  end.

Definition digitsValue (ds : list ascii) : Z :=
  fold_left (fun acc c => (10 * acc + Z.of_nat (code c - 48))%Z) ds 0%Z.

(** [parseInt(s, 10)]: leading white space is skipped, then an optional
    sign, then the longest run of digits; [None] is NaN.  The value is the
    exact integer (a double is exact below 2^53). *)
Definition parseInt (s : string) : option Z :=
  let l := trimStart (chars s) in
  let '(negative, rest) :=
    match l with
    | c :: r =>
        if Ascii.eqb c "-" then (true, r)
        else if Ascii.eqb c "+" then (false, r)
        else (false, l)
    | [] => (false, l)
    end in
  match leadingDigits rest with
  | [] => None
  | ds => Some (if negative then (- digitsValue ds)%Z else digitsValue ds)
  end.

(** The options of the [check] command that decide its exit code *)
Record CheckOptions : Type := mkCheckOptions {
  failOnMissing : bool;
  failOnHardcoded : bool;
  threshold : string
}.

(** The defaults that commander gives them *)
Definition defaultCheckOptions : CheckOptions :=
  {| failOnMissing := true; failOnHardcoded := false; threshold := "0" |}.

(** The exit code of [check] once [runAudit] has returned; a comparison
    with NaN is false. *)
Definition checkExit (options : CheckOptions) (report : AuditReport) : nat :=
  let issueCount :=
    (if failOnMissing options then s_missingTranslations (summary report) else 0)
    + (if failOnHardcoded options then hardcodedStrings (summary report) else 0) in
  match parseInt (threshold options) with
  | Some t => if (t <? Z.of_nat issueCount)%Z then EXIT_ISSUES_FOUND else EXIT_SUCCESS
  | None => EXIT_SUCCESS
  end.

(** The exit code of [audit] once the report has been written *)
Definition auditExit (report : AuditReport) : nat :=
  if 0 <? countActionableIssues report then EXIT_ISSUES_FOUND else EXIT_SUCCESS.

End Cli.

(** ** Characters a pattern cannot do without *)

Module RegexAnalysis.
Import JS Regex.

(** [must_have c r]: every path of [r], matched case-sensitively, consumes
    the character [c]. *)
Fixpoint must_have (c : ascii) (r : regex) : bool :=
  match r with
  | Chr a => Ascii.eqb a c
  | Seq r1 r2 => must_have c r1 || must_have c r2
  | Alt r1 r2 => must_have c r1 && must_have c r2
  | Grp _ r1 => must_have c r1
  | Eps | Cls _ _ | Star _ | Bref _ | Bol | Eol | WordB => false
  end.

(** The classes of the word patterns of hardcoded.ts *)
Definition upper_class : list citem := [CRange "A" "Z"].
Definition lower_class : list citem := [CRange "a" "z"].
Definition alnum_class : list citem :=
  [CRange "a" "z"; CRange "A" "Z"; CRange "0" "9"].

(** The prefixes that the built-in exclusion patterns of hardcoded.ts
    anchor at the start of a text *)
Definition builtin_prefixes : list string :=
  ["v-"; "@"; ":"; "#"; "route("; "router."; "http://"; "https://";
   "mailto:"; "/"; "${"].

End RegexAnalysis.

(** ** Markup used to state what the extractor finds *)

Module Markup.
Import JS Regex Extractor.

(** A line of markup: [{{ t('key') }}], or [{{ $t('key') }}] with
    [dollar]; [q] is the quote character. *)
Definition interpolation (dollar : bool) (q : ascii) (k : string) : string :=
  "{{ " +:+ (if dollar then "$t(" else "t(") +:+ String q (k +:+ String q ") }}").

(** [found_in_markup filePath n ln k]: [k] is what the loop body of
    [extractFromTemplate] pushes, with line number [n], for a match of one
    of its three patterns on the line [ln]; [found_in_code] is the same for
    the two patterns of [extractFromScript]. *)
Definition found_in_markup (filePath : string) (n : nat) (ln : string)
  (k : TranslationKey) : Prop :=
  exists m,
    (In m (exec_all interpolationPattern ln) /\
     k = staticKey (group m 2) filePath n template) \/
    (In m (exec_all boundAttrPattern ln) /\
     k = staticKey (group m 2) filePath n template) \/
    (In m (exec_all templateLiteralPattern ln) /\
     k = fromLiteral filePath n template m).

Definition found_in_code (filePath : string) (n : nat) (ln : string)
  (k : TranslationKey) : Prop :=
  exists m,
    (In m (exec_all simplePattern ln) /\
     k = staticKey (group m 2) filePath n script) \/
    (In m (exec_all scriptTemplateLiteralPattern ln) /\
     k = fromLiteral filePath n script m).

End Markup.

(** ** More sample data *)

Module Samples.
Import JS Regex Extractor Locales Hardcoded Audit Cli Examples.

(** One paragraph of plain lower-case words *)
Definition page_plain : ParsedVueSFC := markup "<p>hello wide world</p>".

Definition text_plain : HardcodedString :=
  {| h_text := "hello wide world"; h_file := "Pages/Page.vue"; h_line := 2;
     h_confidence := medium; h_context := "<p>hello wide world</p>" |}.

(** Rules with a pattern that is no valid expression *)
Definition rules_bad : HardcodedTextRules := withPatterns rules0 ["("].

(** An index file of a locale directory *)
Definition locale_index : LocaleFile :=
  {| lf_path := "/app/locales/en/index.ts"; lf_namespace := "index";
     lf_parsed := Some [("common", VStr "re-export")] |}.

Definition issue_save : AuditIssue :=
  {| i_type := missing_translation; i_severity := error;
     i_file := "Pages/Form.vue"; i_line := 3;
     i_key := Some "common.save"; i_text := None;
     i_message := "Translation key 'common.save' not found in English locale" |}.

Definition issue_title : AuditIssue :=
  {| i_type := empty_value; i_severity := warning;
     i_file := "Pages/Form.vue"; i_line := 4;
     i_key := Some "common.title"; i_text := None;
     i_message := "Translation key 'common.title' has an empty value" |}.

(** Options of the check command with a threshold of ten, and with a
    threshold that is no number *)
Definition check_ten : CheckOptions :=
  {| failOnMissing := true; failOnHardcoded := true; threshold := "10" |}.

Definition check_text : CheckOptions :=
  {| failOnMissing := true; failOnHardcoded := true; threshold := "ten" |}.

(** The report of a run that found the two call sites of [page_twice] *)
Definition report_twice : AuditReport :=
  runAudit relative0 new_RegExp0 toUpperCase0 rules0 "/app" []
           [("/app/Pages/Twice.vue", Some page_twice)].

End Samples.

(** * Properties *)

(** ** The matcher *)

Module RegexFacts.
Import JS Regex.

(** Every answer of the backtracking matcher is a path of the pattern. *)
Lemma run_sound ic r :
  forall st k res, run ic r st k = Some res ->
  exists st', matches ic r st st' /\ k st' = Some res.
Proof.
  induction r as [| a | neg items | r1 IH1 r2 IH2 | r1 IH1 r2 IH2 | r1 IH1
                 | n r1 IH1 | n | | |]; intros st k res H; simpl in H.
  - exists st. split; [constructor | exact H].
  - destruct (m_right st) as [| c rest] eqn:E; [discriminate |].
    destruct (char_eq ic a c) eqn:Ec; [| discriminate].
    eexists. split; [eapply M_Chr; eauto | exact H].
  - destruct (m_right st) as [| c rest] eqn:E; [discriminate |].
    destruct (cls_match ic neg items c) eqn:Ec; [| discriminate].
    eexists. split; [eapply M_Cls; eauto | exact H].
  - apply IH1 in H as (st1 & M1 & H).
    apply IH2 in H as (st2 & M2 & H).
    exists st2. split; [econstructor; eauto | exact H].
  - destruct (run ic r1 st k) as [res1 |] eqn:E.
    + apply IH1 in E as (st' & M & E). exists st'.
      split; [apply M_AltL; exact M | congruence].
    + apply IH2 in H as (st' & M & H). exists st'.
      split; [apply M_AltR; exact M | exact H].
  - remember (length (m_right st)) as fuel eqn:Hf. clear Hf.
    revert st H. induction fuel as [| fuel IHf]; intros st H; simpl in H.
    + exists st. split; [constructor | exact H].
    + match type of H with
      | match ?call with _ => _ end = _ => destruct call as [res1 |] eqn:E
      end.
      * assert (res1 = res) by congruence. subst res1.
        apply IH1 in E as (st1 & M1 & E).
        destruct (length (m_right st1) <? length (m_right st)); [| discriminate].
        apply IHf in E as (st2 & M2 & E).
        exists st2. split; [eapply M_StarS; eauto | exact E].
      * exists st. split; [constructor | exact H].
  - apply IH1 in H as (st' & M & H).
    eexists. split; [apply M_Grp; exact M | exact H].
  - destruct (m_caps st !! n) as [w |] eqn:E.
    + destruct (prefix_ic ic w (m_right st)) eqn:Ep; [| discriminate].
      destruct (advance_by w st) as [st' |] eqn:Ea; [| discriminate].
      exists st'. split; [eapply M_Bref; eauto | exact H].
    + exists st. split; [apply M_BrefNone; exact E | exact H].
  - destruct (m_left st) eqn:E; [| discriminate].
    exists st. split; [apply M_Bol; exact E | exact H].
  - destruct (m_right st) eqn:E; [| discriminate].
    exists st. split; [apply M_Eol; exact E | exact H].
  - destruct (xorb _ _) eqn:E; [| discriminate].
    exists st. split; [apply M_WordB; exact E | exact H].
Qed.

Lemma frame_refl st : frame st [] st.
Proof. split; reflexivity. Qed.

Lemma frame_trans st w1 st1 w2 st2 :
  frame st w1 st1 -> frame st1 w2 st2 -> frame st (w1 ++ w2) st2.
Proof.
  intros [R1 L1] [R2 L2]. split.
  - rewrite R1, R2. now rewrite <- app_assoc.
  - rewrite L2, L1, rev_app_distr. now rewrite <- app_assoc.
Qed.

Lemma frame_advance st c rest :
  m_right st = c :: rest -> frame st [c] (advance st c rest).
Proof. intros E. split; simpl; [exact E | reflexivity]. Qed.

Lemma frame_consumed st w st' : frame st w st' -> consumed st st' = w.
Proof.
  intros [R _]. unfold consumed. rewrite R, length_app.
  replace (length w + length (m_right st') - length (m_right st')) with (length w) by lia.
  now rewrite take_app_length.
Qed.

Lemma frame_set_cap st w st' n u :
  frame st w st' -> frame st w (set_cap n u st').
Proof. intros H. exact H. Qed.

Lemma advance_by_frame w : forall st st',
  advance_by w st = Some st' ->
  exists w', length w' = length w /\ frame st w' st' /\ m_caps st' = m_caps st.
Proof.
  induction w as [| a w IH]; intros st st' H; simpl in H.
  - injection H as <-. exists []. split; [reflexivity |].
    split; [apply frame_refl | reflexivity].
  - destruct (m_right st) as [| c rest] eqn:E; [discriminate |].
    apply IH in H as (w' & Hl & Hf & Hc).
    exists (c :: w'). split; [simpl; now rewrite Hl |].
    split; [| exact Hc].
    exact (frame_trans _ _ _ _ _ (frame_advance st c rest E) Hf).
Qed.

(** A path consumes a piece of the input and nothing else. *)
Lemma matches_frame ic r st st' :
  matches ic r st st' -> exists w, frame st w st'.
Proof.
  induction 1 as [st | a c rest st E _ | neg items c rest st E _
                 | r1 r2 st st1 st2 _ [w1 F1] _ [w2 F2]
                 | r1 r2 st st' _ IH | r1 r2 st st' _ IH
                 | r st | r st st1 st2 _ [w1 F1] _ [w2 F2]
                 | n r st st' _ [w F]
                 | n st _ | n w st st' _ _ Ha
                 | st _ | st _ | st _].
  - exists []. apply frame_refl.
  - exists [c]. now apply frame_advance.
  - exists [c]. now apply frame_advance.
  - exists (w1 ++ w2). eapply frame_trans; eauto.
  - exact IH.
  - exact IH.
  - exists []. apply frame_refl.
  - exists (w1 ++ w2). eapply frame_trans; eauto.
  - exists w. exact F.
  - exists []. apply frame_refl.
  - apply advance_by_frame in Ha as (w' & _ & F & _). now exists w'.
  - exists []. apply frame_refl.
  - exists []. apply frame_refl.
  - exists []. apply frame_refl.
Qed.

(** A path consumes at least [min_len]. *)
Lemma matches_min_len ic r st st' :
  matches ic r st st' -> exists w, frame st w st' /\ min_len r <= length w.
Proof.
  induction 1 as [st | a c rest st E _ | neg items c rest st E _
                 | r1 r2 st st1 st2 _ (w1 & F1 & L1) _ (w2 & F2 & L2)
                 | r1 r2 st st' _ (w & F & L) | r1 r2 st st' _ (w & F & L)
                 | r st | r st st1 st2 M1 _ M2 _
                 | n r st st' _ (w & F & L)
                 | n st _ | n w st st' _ _ Ha
                 | st _ | st _ | st _]; simpl.
  - exists []. split; [apply frame_refl | simpl; lia].
  - exists [c]. split; [now apply frame_advance | simpl; lia].
  - exists [c]. split; [now apply frame_advance | simpl; lia].
  - exists (w1 ++ w2). split; [eapply frame_trans; eauto |].
    rewrite length_app. lia.
  - exists w. split; [exact F | lia].
  - exists w. split; [exact F | lia].
  - exists []. split; [apply frame_refl | simpl; lia].
  - destruct (matches_frame _ _ _ _ M1) as [w1 F1].
    destruct (matches_frame _ _ _ _ M2) as [w2 F2].
    exists (w1 ++ w2). split; [eapply frame_trans; eauto | lia].
  - exists w. split; [exact F | exact L].
  - exists []. split; [apply frame_refl | simpl; lia].
  - apply advance_by_frame in Ha as (w' & _ & F & _). exists w'. split; [exact F | lia].
  - exists []. split; [apply frame_refl | simpl; lia].
  - exists []. split; [apply frame_refl | simpl; lia].
  - exists []. split; [apply frame_refl | simpl; lia].
Qed.

(** Inversion of the derived forms *)
Lemma matches_seq ic r1 r2 st st' :
  matches ic (Seq r1 r2) st st' ->
  exists st1, matches ic r1 st st1 /\ matches ic r2 st1 st'.
Proof. inversion 1; subst. eauto. Qed.

Lemma matches_eps ic st st' : matches ic Eps st st' -> st' = st.
Proof. now inversion 1. Qed.

Lemma matches_chr ic a st st' :
  matches ic (Chr a) st st' ->
  exists c rest, m_right st = c :: rest /\ char_eq ic a c = true /\
                 st' = advance st c rest.
Proof. inversion 1; subst. eauto 6. Qed.

Lemma matches_cls ic neg items st st' :
  matches ic (Cls neg items) st st' ->
  exists c rest, m_right st = c :: rest /\ cls_match ic neg items c = true /\
                 st' = advance st c rest.
Proof. inversion 1; subst. eauto 6. Qed.

Lemma matches_grp ic n r st st' :
  matches ic (Grp n r) st st' ->
  exists st1, matches ic r st st1 /\ st' = set_cap n (consumed st st1) st1.
Proof. inversion 1; subst. eauto. Qed.

Lemma matches_bref_caps ic n st st' :
  matches ic (Bref n) st st' -> m_caps st' = m_caps st.
Proof.
  inversion 1; subst; [reflexivity |].
  match goal with H : advance_by _ _ = Some _ |- _ =>
    apply advance_by_frame in H as (_ & _ & _ & Hc) end.
  exact Hc.
Qed.

Lemma matches_cat_app ic rs1 rs2 st st' :
  matches ic (cat (rs1 ++ rs2)) st st' ->
  exists st1, matches ic (cat rs1) st st1 /\ matches ic (cat rs2) st1 st'.
Proof.
  revert st. induction rs1 as [| r rs1 IH]; intros st H; simpl in *.
  - exists st. split; [constructor | exact H].
  - apply matches_seq in H as (st0 & M0 & H).
    apply IH in H as (st1 & M1 & M2).
    exists st1. split; [econstructor; eauto | exact M2].
Qed.

(** A starred class consumes characters of the class and leaves the
    captures alone. *)
Lemma matches_star_cls ic neg items st st' :
  matches ic (Star (Cls neg items)) st st' ->
  exists w, frame st w st' /\
            Forall (fun c => cls_match ic neg items c = true) w /\
            m_caps st' = m_caps st.
Proof.
  remember (Star (Cls neg items)) as r eqn:Hr.
  induction 1 as [| | | | | | r0 st | r0 st st1 st2 M1 _ _ IH2 | | | | | |];
    try discriminate Hr.
  - exists []. split; [apply frame_refl |]. split; [constructor | reflexivity].
  - injection Hr as ->.
    destruct (IH2 eq_refl) as (w2 & F2 & A2 & C2).
    apply matches_cls in M1 as (c & rest & E & Hc & ->).
    exists (c :: w2). split.
    + exact (frame_trans _ _ _ _ _ (frame_advance st c rest E) F2).
    + split; [constructor; assumption | exact C2].
Qed.

Lemma matches_plus_cls ic neg items st st' :
  matches ic (Plus (Cls neg items)) st st' ->
  exists w, frame st w st' /\ w <> [] /\
            Forall (fun c => cls_match ic neg items c = true) w /\
            m_caps st' = m_caps st.
Proof.
  intros H. apply matches_seq in H as (st1 & M1 & M2).
  apply matches_cls in M1 as (c & rest & E & Hc & ->).
  apply matches_star_cls in M2 as (w & F & A & C).
  exists (c :: w). split.
  - exact (frame_trans _ _ _ _ _ (frame_advance st c rest E) F).
  - split; [discriminate |]. split; [constructor; assumption | exact C].
Qed.

(** *** What [exec] returns *)

Lemma search_spec ic r : forall right left i st,
  search ic r left right = Some (i, st) ->
  exists skipped rest,
    right = skipped ++ rest /\ i = length left + length skipped /\
    match_at ic r (rev skipped ++ left) rest = Some st.
Proof.
  induction right as [| c right IH]; intros left i st H; simpl in H.
  - destruct (match_at ic r left []) as [st1 |] eqn:E; [| discriminate].
    injection H as <- <-. exists [], []. simpl.
    split; [reflexivity |]. split; [lia | exact E].
  - destruct (match_at ic r left (c :: right)) as [st1 |] eqn:E.
    + injection H as <- <-. exists [], (c :: right). simpl.
      split; [reflexivity |]. split; [lia | exact E].
    + apply IH in H as (skipped & rest & -> & -> & H).
      exists (c :: skipped), rest. simpl.
      split; [reflexivity |]. split; [lia |].
      now rewrite <- app_assoc.
Qed.

Lemma exec_spec re s j m : exec re s j = Some m -> match_of re s m.
Proof.
  unfold exec. destruct (length s <? j) eqn:Hj; [discriminate |].
  apply Nat.ltb_ge in Hj.
  destruct (search _ _ _ _) as [[i st] |] eqn:Hs; [| discriminate].
  intros H. injection H as <-.
  apply search_spec in Hs as (skipped & rest & Hd & Hi & Hm).
  unfold match_at in Hm.
  apply run_sound in Hm as (st' & M & Hk). injection Hk as ->.
  destruct (matches_min_len _ _ _ _ M) as (w & F & Hmin).
  assert (Hs : s = rev (rev skipped ++ rev (take j s)) ++ rest).
  { rewrite rev_app_distr, !rev_involutive, <- app_assoc, <- Hd.
    now rewrite take_drop. }
  assert (Hlen : i = length (rev skipped ++ rev (take j s))).
  { rewrite Hi, length_app, !length_rev. lia. }
  exists {| m_left := rev skipped ++ rev (take j s); m_right := rest; m_caps := ∅ |},
         st, w.
  simpl. split; [exact M |]. split; [exact F |]. split; [reflexivity |].
  split; [exact Hs |]. split; [exact Hlen |].
  destruct F as [FR FL]. simpl in FR, FL.
  assert (He : length (m_left st) - i = length w).
  { rewrite FL, length_app, length_rev, <- Hlen. lia. }
  split; [| split; [reflexivity | split; [| exact Hmin]]].
  - f_equal. rewrite He.
    rewrite Hs at 1. rewrite Hlen, <- (length_rev (rev skipped ++ _)).
    rewrite drop_app_length, FR. now rewrite take_app_length.
  - rewrite FL, length_app, length_rev, <- Hlen. lia.
Qed.

Lemma exec_index re s j m : exec re s j = Some m -> j <= mr_index m.
Proof.
  unfold exec. destruct (length s <? j) eqn:Hj; [discriminate |].
  apply Nat.ltb_ge in Hj.
  destruct (search _ _ _ _) as [[i st] |] eqn:Hs; [| discriminate].
  intros H. injection H as <-. simpl.
  apply search_spec in Hs as (skipped & rest & _ & -> & _).
  rewrite length_rev, length_take. lia.
Qed.

(** A match of a pattern that must consume something ends after the
    position the search started from. *)
Lemma exec_progress re s j m :
  0 < min_len (re_pat re) -> exec re s j = Some m -> j < mr_end m.
Proof.
  intros Hmin H. pose proof (exec_index _ _ _ _ H) as Hi.
  apply exec_spec in H as (st0 & st' & w & _ & _ & _ & _ & _ & _ & _ & He & Hw).
  lia.
Qed.

Lemma exec_loop_spec re s : forall fuel j m,
  In m (exec_loop fuel re s j) -> match_of re s m.
Proof.
  induction fuel as [| fuel IH]; intros j m H; simpl in H.
  - contradiction.
  - destruct (exec re s j) as [m1 |] eqn:E; [| contradiction].
    destruct H as [<- | H].
    + eapply exec_spec; eauto.
    + eapply IH; eauto.
Qed.

Lemma exec_all_spec re line m :
  In m (exec_all re line) -> match_of re (chars line) m.
Proof. apply exec_loop_spec. Qed.

Lemma length_chars s : length (chars s) = String.length s.
Proof. induction s as [| c s IH]; simpl; [reflexivity | now rewrite IH]. Qed.

(** The loop over [exec] stops by itself: more fuel changes nothing. *)
Lemma exec_loop_fuel re s :
  0 < min_len (re_pat re) ->
  forall fuel j extra,
    length s < j + fuel ->
    exec_loop (fuel + extra) re s j = exec_loop fuel re s j.
Proof.
  intros Hmin. induction fuel as [| fuel IH]; intros j extra Hj.
  - destruct extra as [| extra]; [reflexivity |]. simpl.
    unfold exec. assert (E : (length s <? j) = true) by (apply Nat.ltb_lt; lia).
    now rewrite E.
  - simpl. destruct (exec re s j) as [m |] eqn:E; [| reflexivity].
    f_equal. apply IH. pose proof (exec_progress _ _ _ _ Hmin E). lia.
Qed.

Lemma exec_all_fuel re s extra :
  0 < min_len (re_pat re) ->
  exec_loop (S (String.length s) + extra) re (chars s) 0 = exec_all re s.
Proof.
  intros Hmin. unfold exec_all. apply exec_loop_fuel; [exact Hmin |].
  rewrite length_chars. lia.
Qed.

(** *** The starred loop without its counter *)

Lemma advance_by_shorter w st st' :
  advance_by w st = Some st' -> length (m_right st') <= length (m_right st).
Proof.
  intros H. apply advance_by_frame in H as (w' & _ & [R _] & _).
  rewrite R, length_app. lia.
Qed.

(** The matcher only calls its continuation further in the input. *)
Lemma run_ext ic r : forall st k1 k2,
  (forall st', length (m_right st') <= length (m_right st) -> k1 st' = k2 st') ->
  run ic r st k1 = run ic r st k2.
Proof.
  induction r as [| a | neg items | r1 IH1 r2 IH2 | r1 IH1 r2 IH2 | r1 IH1
                 | n r1 IH1 | n | | |]; intros st k1 k2 Hk; simpl.
  - now apply Hk.
  - destruct (m_right st) as [| c rest] eqn:E; [reflexivity |].
    destruct (char_eq ic a c); [| reflexivity].
    apply Hk. simpl. try rewrite E. simpl. lia.
  - destruct (m_right st) as [| c rest] eqn:E; [reflexivity |].
    destruct (cls_match ic neg items c); [| reflexivity].
    apply Hk. simpl. try rewrite E. simpl. lia.
  - apply IH1. intros st1 H1. apply IH2. intros st2 H2. apply Hk. lia.
  - rewrite (IH1 st k1 k2 Hk), (IH2 st k1 k2 Hk). reflexivity.
  - assert (H : forall fuel st1,
               length (m_right st1) <= length (m_right st) ->
               star_loop (run ic r1) k1 fuel st1 = star_loop (run ic r1) k2 fuel st1).
    { induction fuel as [| fuel IHf]; intros st1 Hst; simpl.
      - now apply Hk.
      - rewrite (IH1 st1 _ (fun st' =>
                   if length (m_right st') <? length (m_right st1)
                   then star_loop (run ic r1) k2 fuel st' else None)).
        + now rewrite (Hk st1 Hst).
        + intros st' H'. destruct (length (m_right st') <? length (m_right st1));
            [| reflexivity].
          apply IHf. lia. }
    apply H. lia.
  - apply IH1. intros st' H'. apply Hk. simpl. exact H'.
  - destruct (m_caps st !! n) as [w |]; [| now apply Hk].
    destruct (prefix_ic ic w (m_right st)); [| reflexivity].
    destruct (advance_by w st) as [st' |] eqn:E; [| reflexivity].
    apply Hk. eapply advance_by_shorter; eauto.
  - destruct (m_left st); [now apply Hk | reflexivity].
  - pose proof (Hk st (Nat.le_refl _)) as Hst.
    destruct (m_right st); [exact Hst | reflexivity].
  - destruct (xorb _ _); [now apply Hk | reflexivity].
Qed.

(** With a continuation that always fails the matcher fails. *)
Lemma run_fail ic r : forall st k,
  (forall st', k st' = None) -> run ic r st k = None.
Proof.
  induction r as [| a | neg items | r1 IH1 r2 IH2 | r1 IH1 r2 IH2 | r1 IH1
                 | n r1 IH1 | n | | |]; intros st k Hk; simpl.
  - apply Hk.
  - destruct (m_right st) as [| c rest]; [reflexivity |].
    destruct (char_eq ic a c); auto.
  - destruct (m_right st) as [| c rest]; [reflexivity |].
    destruct (cls_match ic neg items c); auto.
  - apply IH1. intros st1. now apply IH2.
  - now rewrite IH1, IH2.
  - generalize (length (m_right st)). intros fuel. revert st.
    induction fuel as [| fuel IHf]; intros st; simpl; [apply Hk |].
    rewrite IH1; [apply Hk |].
    intros st'. destruct (_ <? _); [apply IHf | reflexivity].
  - apply IH1. intros st'. apply Hk.
  - destruct (m_caps st !! n) as [w |]; [| apply Hk].
    destruct (prefix_ic ic w (m_right st)); [| reflexivity].
    destruct (advance_by w st); [apply Hk | reflexivity].
  - destruct (m_left st); [apply Hk | reflexivity].
  - destruct (m_right st); [apply Hk | reflexivity].
  - destruct (xorb _ _); [apply Hk | reflexivity].
Qed.

(** Any counter that is at least the number of characters left gives the
    same loop. *)
Lemma star_loop_fuel ic r k : forall n st,
  length (m_right st) <= n ->
  star_loop (run ic r) k n st
  = star_loop (run ic r) k (length (m_right st)) st.
Proof.
  induction n as [n IH] using lt_wf_ind. intros st Hn.
  destruct n as [| n].
  - assert (E : length (m_right st) = 0) by lia. now rewrite E.
  - destruct (length (m_right st)) as [| m] eqn:E; simpl.
    + rewrite run_fail; [reflexivity |].
      intros st'. rewrite E. reflexivity.
    + f_equal. rewrite E.
      rewrite (run_ext ic r st _ (fun st' =>
                 if length (m_right st') <? S m
                 then star_loop (run ic r) k m st' else None));
        [reflexivity |].
      intros st' _. destruct (length (m_right st') <? S m) eqn:Hlt; [| reflexivity].
      apply Nat.ltb_lt in Hlt.
      rewrite (IH n) by lia. rewrite (IH m) by lia. reflexivity.
Qed.

(** The equation of ECMAScript's RepeatMatcher for [r*]: one more turn of
    [r] that consumes something, then the loop again; else the
    continuation. *)
Lemma run_star ic r st k :
  run ic (Star r) st k
  = match run ic r st (fun st' =>
            if length (m_right st') <? length (m_right st)
            then run ic (Star r) st' k else None) with
    | Some res => Some res
    | None => k st
    end.
Proof.
  simpl. destruct (length (m_right st)) as [| m] eqn:E; simpl.
  - rewrite run_fail; [reflexivity |]. intros st'. reflexivity.
  - rewrite E.
    rewrite (run_ext ic r st _ (fun st' =>
               if length (m_right st') <? S m
               then star_loop (run ic r) k (length (m_right st')) st' else None));
      [reflexivity |].
    intros st' _. destruct (length (m_right st') <? S m) eqn:Hlt; [| reflexivity].
    apply Nat.ltb_lt in Hlt. apply star_loop_fuel. lia.
Qed.

End RegexFacts.


(** ** Strings *)

Module JSFacts.
Import JS.

Lemma str_app a b : str (a ++ b) = str a +:+ str b.
Proof. induction a as [| c a IH]; simpl; [reflexivity | now rewrite IH]. Qed.

Lemma sapp_assoc a b c : (a +:+ b) +:+ c = a +:+ (b +:+ c).
Proof.
  induction a as [| x a IH]; [reflexivity |].
  change (String x ((a +:+ b) +:+ c) = String x (a +:+ (b +:+ c))).
  now rewrite IH.
Qed.

Lemma str_chars s : str (chars s) = s.
Proof. apply string_of_list_ascii_of_string. Qed.

Lemma chars_str l : chars (str l) = l.
Proof. apply list_ascii_of_string_of_list_ascii. Qed.

Lemma str_nonempty l : l <> [] -> str l <> "".
Proof. destruct l; [congruence | discriminate]. Qed.

Lemma truthy_str l : l <> [] -> truthy (str l) = true.
Proof. destruct l; [congruence | reflexivity]. Qed.

Lemma truthy_nonempty s : truthy s = true <-> s <> "".
Proof.
  unfold truthy. rewrite negb_true_iff. apply String.eqb_neq.
Qed.

Lemma prefix_app_r p : forall s b,
  String.prefix p s = true -> String.prefix p (s +:+ b) = true.
Proof.
  induction p as [| c p IH]; intros s b H; [now destruct (s +:+ b) |].
  destruct s as [| d s]; simpl in *; [discriminate |].
  destruct (ascii_dec c d); [now apply IH | discriminate].
Qed.

Lemma includes_app_r p : forall s b,
  includes s p = true -> includes (s +:+ b) p = true.
Proof.
  induction s as [| c s IH]; intros b H.
  - simpl in H. rewrite orb_false_r in H.
    destruct p; [| discriminate]. destruct b; reflexivity.
  - change (String c s +:+ b) with (String c (s +:+ b)).
    simpl in *. apply orb_true_iff in H as [H | H]; apply orb_true_iff.
    + left. destruct p as [| d p]; [reflexivity |].
      destruct (ascii_dec d c); [| discriminate].
      now apply prefix_app_r.
    + right. now apply IH.
Qed.

Lemma includes_app_l p s : forall a,
  includes s p = true -> includes (a +:+ s) p = true.
Proof.
  induction a as [| c a IH]; intros H; [exact H |].
  change (String c a +:+ s) with (String c (a +:+ s)).
  simpl. apply orb_true_iff. right. now apply IH.
Qed.

End JSFacts.

(** ** [trim] and [length] *)

Module TrimFacts.
Import JS JSFacts.

Section Strip.
Variable len : list ascii -> nat.
Hypothesis len_le : forall l, len l <= length l.

Lemma strip_keep n l : len l = 0 -> strip len n l = l.
Proof using Type. intros H. destruct n; simpl; [reflexivity | now rewrite H]. Qed.

(** What is removed is a prefix. *)
Lemma strip_split n : forall l, exists a, l = a ++ strip len n l.
Proof using Type.
  induction n as [| n IH]; intros l; simpl; [now exists [] |].
  destruct (len l) as [| k] eqn:E; [now exists [] |].
  destruct (IH (drop (S k) l)) as [a Ha].
  exists (take (S k) l ++ a). rewrite <- app_assoc, <- Ha. now rewrite take_drop.
Qed.

(** After as many turns as there are bytes nothing is left to remove. *)
Lemma strip_done n : forall l, length l <= n -> len (strip len n l) = 0.
Proof using len_le.
  induction n as [| n IH]; intros l Hl; simpl.
  - pose proof (len_le l). lia.
  - destruct (len l) as [| k] eqn:E; [exact E |].
    apply IH. rewrite length_drop. lia.
Qed.
End Strip.

Lemma space_len_le l : space_len l <= length l.
Proof.
  destruct l as [| a [| b [| c l]]]; simpl; repeat destruct (_ : bool); lia.
Qed.

Lemma space_len_end_le l : space_len_end l <= length l.
Proof.
  destruct l as [| a [| b [| c l]]]; simpl; repeat destruct (_ : bool); lia.
Qed.

(** A white-space character at the head of a text is one at the head of
    every longer text. *)
Lemma space_len_app l more : space_len l <> 0 -> space_len (l ++ more) = space_len l.
Proof.
  destruct l as [| a [| b [| c l]]]; simpl; intros H;
    try congruence; try reflexivity;
    destruct (is_space a); try reflexivity; try congruence;
    destruct (is_space2 a b); try reflexivity; congruence.
Qed.

(** An ASCII character that is no white space starts none. *)
Lemma space_len_ascii c l : code c < 128 -> is_space c = false -> space_len (c :: l) = 0.
Proof.
  intros Hc Hs. simpl. rewrite Hs.
  assert (E : forall n, 128 <= n -> (code c =? n) = false)
    by (intros n Hn; apply Nat.eqb_neq; lia).
  destruct l as [| b [| d l]]; [reflexivity | |];
    unfold is_space2, is_space3; rewrite ?E by lia; reflexivity.
Qed.

Lemma space_len_end_ascii c l :
  code c < 128 -> is_space c = false -> space_len_end (c :: l) = 0.
Proof.
  intros Hc Hs. simpl. rewrite Hs.
  assert (E : forall n, 128 <= n -> (code c =? n) = false)
    by (intros n Hn; apply Nat.eqb_neq; lia).
  destruct l as [| b [| d l]]; [reflexivity | |];
    unfold is_space2, is_space3, between; rewrite ?E by lia;
    repeat match goal with
           | |- context [(?n <=? code c)] =>
               replace (n <=? code c) with false by (symmetry; apply Nat.leb_gt; lia)
           end;
    rewrite ?andb_false_r; reflexivity.
Qed.

Lemma trimStart_split l : exists a, l = a ++ trimStart l.
Proof. apply strip_split. Qed.

Lemma trimStart_done l : space_len (trimStart l) = 0.
Proof. apply strip_done; [apply space_len_le | reflexivity]. Qed.

Lemma trimStart_keep l : space_len l = 0 -> trimStart l = l.
Proof. apply strip_keep. Qed.

Lemma trimEnd_split l : exists b, l = trimEnd l ++ b.
Proof.
  unfold trimEnd.
  destruct (strip_split space_len_end (length l) (rev l)) as [a Ha].
  exists (rev a). apply (f_equal (@rev ascii)) in Ha.
  now rewrite rev_involutive, rev_app_distr in Ha.
Qed.

Lemma trimEnd_done l : space_len_end (rev (trimEnd l)) = 0.
Proof.
  unfold trimEnd. rewrite rev_involutive.
  apply strip_done; [apply space_len_end_le | now rewrite length_rev].
Qed.

Lemma trimEnd_keep l : space_len_end (rev l) = 0 -> trimEnd l = l.
Proof.
  intros H. unfold trimEnd. rewrite (strip_keep _ _ _ H). apply rev_involutive.
Qed.

(** What [trim] keeps is a middle part of the text. *)
Lemma trim_split s : exists a b, chars s = a ++ chars (trim s) ++ b.
Proof.
  unfold trim. rewrite chars_str.
  destruct (trimStart_split (chars s)) as [a Ha].
  destruct (trimEnd_split (trimStart (chars s))) as [b Hb].
  exists a, b. now rewrite <- Hb.
Qed.

Lemma trim_chars s c : In c (chars (trim s)) -> In c (chars s).
Proof.
  destruct (trim_split s) as (a & b & ->). intros H.
  apply in_app_iff. right. apply in_app_iff. now left.
Qed.

Lemma trim_idem s : trim (trim s) = trim s.
Proof.
  unfold trim. rewrite chars_str. f_equal.
  set (a := trimStart (chars s)).
  assert (Hs : trimStart (trimEnd a) = trimEnd a).
  { apply trimStart_keep.
    destruct (Nat.eq_dec (space_len (trimEnd a)) 0) as [E | E]; [exact E |].
    destruct (trimEnd_split a) as [b Hb].
    pose proof (space_len_app (trimEnd a) b E) as H.
    rewrite <- Hb in H.
    assert (Hd : space_len a = 0) by apply trimStart_done. congruence. }
  rewrite Hs. apply trimEnd_keep. apply trimEnd_done.
Qed.

(** A text that starts and ends with ASCII characters that are no white
    space is its own trimmed form. *)
Lemma trim_keep c mid d :
  code c < 128 -> is_space c = false -> code d < 128 -> is_space d = false ->
  trim (str (c :: mid ++ [d])) = str (c :: mid ++ [d]).
Proof.
  intros Hc Hsc Hd Hsd. unfold trim. rewrite chars_str. f_equal.
  rewrite trimStart_keep by now apply space_len_ascii.
  apply trimEnd_keep.
  change (c :: mid ++ [d]) with ((c :: mid) ++ [d]).
  rewrite rev_app_distr. simpl rev at 1. simpl app.
  now apply space_len_end_ascii.
Qed.

(** *** Code units of ASCII text *)

Lemma cut_ascii l :
  Forall (fun c => code c < 128) l -> cut l = ([], map (fun c => [c]) l).
Proof.
  induction 1 as [| c l Hc _ IH]; [reflexivity |]. cbn [cut map]. rewrite IH.
  unfold is_continuation, between.
  replace (128 <=? code c) with false by (symmetry; apply Nat.leb_gt; lia).
  replace (240 <=? code c) with false by (symmetry; apply Nat.leb_gt; lia).
  reflexivity.
Qed.

(** On ASCII text [s.length] is the number of characters. *)
Lemma units_ascii s :
  Forall (fun c => code c < 128) (chars s) -> units s = String.length s.
Proof.
  intros H. unfold units, code_units. rewrite (cut_ascii _ H).
  rewrite length_map. unfold chars. clear H.
  induction s as [| c s IH]; [reflexivity |]. simpl. now rewrite IH.
Qed.

Lemma alnum_ascii c : is_digit c || is_upper c || is_lower c = true -> code c < 128.
Proof.
  destruct c as [[] [] [] [] [] [] [] []]; vm_compute; intros H;
    try discriminate H; lia.
Qed.

End TrimFacts.

(** ** Extraction *)

Module ExtractorFacts.
Import JS Regex RegexFacts JSFacts Extractor.

Lemma char_eq_eq a c : char_eq false a c = true -> c = a.
Proof. simpl. intros H. symmetry. now apply Ascii.eqb_eq. Qed.

Lemma noneof_backtick c :
  cls_match false true [CChar backtick] c = true -> c <> backtick.
Proof.
  intros H ->. vm_compute in H. discriminate H.
Qed.

Lemma literal_tail_shape st st' :
  matches false (cat literal_tail) st st' ->
  exists w, frame st (backtick :: w ++ [backtick]) st' /\ w <> [] /\
            Forall (fun c => c <> backtick) w /\
            m_caps st' !! 1 = Some w.
Proof.
  intros H. simpl in H.
  apply matches_seq in H as (s1 & M1 & H).
  apply matches_seq in H as (s2 & M2 & H).
  apply matches_seq in H as (s3 & M3 & H).
  apply matches_eps in H as ->.
  apply matches_chr in M1 as (c1 & rest1 & E1 & Hc1 & ->).
  apply char_eq_eq in Hc1 as ->.
  apply matches_grp in M2 as (s2' & M2 & ->).
  apply matches_plus_cls in M2 as (w & F & Hw & A & C).
  apply matches_chr in M3 as (c3 & rest3 & E3 & Hc3 & ->).
  apply char_eq_eq in Hc3 as ->.
  exists w. split; [| split; [exact Hw | split]].
  - change (backtick :: w ++ [backtick]) with ([backtick] ++ w ++ [backtick]).
    eapply frame_trans; [apply frame_advance; exact E1 |].
    eapply frame_trans; [apply frame_set_cap; exact F |].
    apply frame_advance. exact E3.
  - eapply Forall_impl; [exact A |]. intros c. apply noneof_backtick.
  - simpl. rewrite (frame_consumed _ _ _ F). apply lookup_insert_eq.
Qed.

Lemma quoted_tail_shape st st' :
  matches false (cat quoted_tail) st st' ->
  exists w, w <> [] /\ m_caps st' !! 2 = Some w.
Proof.
  intros H. simpl in H.
  apply matches_seq in H as (s1 & M1 & H).
  apply matches_seq in H as (s2 & M2 & H).
  apply matches_seq in H as (s3 & M3 & H).
  apply matches_eps in H as ->.
  apply matches_grp in M2 as (s2' & M2 & ->).
  apply matches_plus_cls in M2 as (w & F & Hw & _ & _).
  apply matches_bref_caps in M3.
  exists w. split; [exact Hw |].
  rewrite M3. simpl. rewrite (frame_consumed _ _ _ F). apply lookup_insert_eq.
Qed.

(** A match of a pattern that ends in [literal_tail] *)
Lemma literal_match pre re s m :
  re_icase re = false -> re_pat re = cat (pre ++ literal_tail) ->
  match_of re s m ->
  exists a w b,
    s = a ++ backtick :: w ++ backtick :: b /\ w <> [] /\
    Forall (fun c => c <> backtick) w /\ group m 1 = str w.
Proof.
  intros Hic Hpat (st0 & st' & w0 & M & _ & _ & Hs & _ & _ & Hcaps & _).
  rewrite Hic, Hpat in M.
  apply matches_cat_app in M as (st1 & M1 & M2).
  destruct (matches_frame _ _ _ _ M1) as [w1 [R1 _]].
  apply literal_tail_shape in M2 as (w & [R2 _] & Hw & A & C).
  exists (rev (m_left st0) ++ w1), w, (m_right st').
  split; [| split; [exact Hw | split; [exact A |]]].
  - rewrite Hs, R1, R2. simpl. rewrite <- !app_assoc. reflexivity.
  - unfold group. now rewrite Hcaps, C.
Qed.

(** A match of a pattern that ends in [quoted_tail] *)
Lemma quoted_match pre re s m :
  re_icase re = false -> re_pat re = cat (pre ++ quoted_tail) ->
  match_of re s m ->
  exists w, w <> [] /\ group m 2 = str w.
Proof.
  intros Hic Hpat (st0 & st' & w0 & M & _ & _ & _ & _ & _ & Hcaps & _).
  rewrite Hic, Hpat in M.
  apply matches_cat_app in M as (st1 & _ & M2).
  apply quoted_tail_shape in M2 as (w & Hw & C).
  exists w. split; [exact Hw |]. unfold group. now rewrite Hcaps, C.
Qed.

Lemma string_split a w b :
  str (a ++ backtick :: w ++ backtick :: b)
  = str a +:+ ("`" +:+ str w +:+ "`") +:+ str b.
Proof.
  rewrite str_app. f_equal.
  change (backtick :: w ++ backtick :: b) with ([backtick] ++ w ++ [backtick] ++ b).
  rewrite !str_app, !sapp_assoc. reflexivity.
Qed.

Lemma includes_literal body :
  includes body "${" = true -> includes ("`" +:+ body +:+ "`") "${" = true.
Proof. intros H. apply includes_app_l. now apply includes_app_r. Qed.

(** The record built for a template-literal match *)
Lemma fromLiteral_from_line pre re filePath lineNumber c line m :
  re_icase re = false -> re_pat re = cat (pre ++ literal_tail) ->
  In m (exec_all re line) ->
  from_line line (fromLiteral filePath lineNumber c m).
Proof.
  intros Hic Hpat Hm. apply exec_all_spec in Hm.
  destruct (literal_match pre re _ m Hic Hpat Hm) as (a & w & b & Hs & Hw & A & G).
  unfold fromLiteral. rewrite G.
  destruct (includes (str w) "${") eqn:Hi.
  - right. simpl. split; [reflexivity |]. split; [reflexivity |].
    exists (str w), (str a), (str b).
    split; [reflexivity |]. split; [exact Hi |].
    split; [now rewrite chars_str |].
    rewrite <- string_split, <- Hs. symmetry. apply str_chars.
  - left. simpl. split; [reflexivity |].
    split; [now apply str_nonempty | reflexivity].
Qed.

(** The record built for a quoted match *)
Lemma quoted_from_line pre re filePath lineNumber c line m :
  re_icase re = false -> re_pat re = cat (pre ++ quoted_tail) ->
  In m (exec_all re line) ->
  from_line line (staticKey (group m 2) filePath lineNumber c).
Proof.
  intros Hic Hpat Hm. apply exec_all_spec in Hm.
  destruct (quoted_match pre re _ m Hic Hpat Hm) as (w & Hw & G).
  left. simpl. split; [reflexivity |]. rewrite G.
  split; [now apply str_nonempty | reflexivity].
Qed.

Lemma templateLine_from_line filePath startLine i line k :
  In k (templateLine filePath startLine i line) -> from_line line k.
Proof.
  unfold templateLine. rewrite !in_app_iff, !in_map_iff.
  intros [(m & <- & Hm) | [(m & <- & Hm) | (m & <- & Hm)]].
  - exact (quoted_from_line
             [lit "{{"; ws; Opt (Chr "$"); Chr "t"; ws; Chr "("; ws]
             interpolationPattern _ _ _ _ _ eq_refl eq_refl Hm).
  - exact (quoted_from_line
             [Chr ":"; Plus word; Star (Seq (Chr "-") (Plus word)); Chr "=";
              Cls false [CChar dquote; CChar "'"]; ws; Opt (Chr "$"); Chr "t";
              ws; Chr "("; ws]
             boundAttrPattern _ _ _ _ _ eq_refl eq_refl Hm).
  - exact (fromLiteral_from_line [Opt (Chr "$"); Chr "t"; ws; Chr "("; ws]
             templateLiteralPattern _ _ _ _ _ eq_refl eq_refl Hm).
Qed.

Lemma scriptLine_from_line filePath startLine i line k :
  In k (scriptLine filePath startLine i line) -> from_line line k.
Proof.
  unfold scriptLine.
  destruct (startsWith (trim line) "import " || startsWith (trim line) "type ");
    [contradiction |].
  rewrite !in_app_iff, !in_map_iff.
  intros [(m & <- & Hm) | (m & <- & Hm)].
  - exact (quoted_from_line [WordB; Chr "t"; ws; Chr "("; ws]
             simplePattern _ _ _ _ _ eq_refl eq_refl Hm).
  - exact (fromLiteral_from_line [WordB; Chr "t"; ws; Chr "("; ws]
             scriptTemplateLiteralPattern _ _ _ _ _ eq_refl eq_refl Hm).
Qed.

Lemma in_concat_imap {A B} (f : nat -> A -> list B) l x :
  In x (concat (imap f l)) -> exists i y, l !! i = Some y /\ In x (f i y).
Proof.
  rewrite in_concat. intros (ys & Hys & Hx).
  apply list_elem_of_In, elem_of_lookup_imap_1 in Hys as (i & y & -> & Hl).
  eauto.
Qed.

Lemma extractFromTemplate_from_line tpl filePath startLine k :
  In k (extractFromTemplate tpl filePath startLine) ->
  exists line, In line (split_lines tpl) /\ from_line line k.
Proof.
  intros H. apply in_concat_imap in H as (i & line & Hl & H).
  exists line. split.
  - apply list_elem_of_In. eapply list_elem_of_lookup_2; eauto.
  - eapply templateLine_from_line; eauto.
Qed.

Lemma extractFromScript_from_line src filePath startLine k :
  In k (extractFromScript src filePath startLine) ->
  exists line, In line (split_lines src) /\ from_line line k.
Proof.
  unfold extractFromScript. destruct (negb (usesI18n src)); [contradiction |].
  intros H. apply in_concat_imap in H as (i & line & Hl & H).
  exists line. split.
  - apply list_elem_of_In. eapply list_elem_of_lookup_2; eauto.
  - eapply scriptLine_from_line; eauto.
Qed.

Lemma extractTranslationKeys_from_line parsed k :
  In k (extractTranslationKeys parsed) ->
  exists text line,
    In text (sections parsed) /\ In line (split_lines text) /\ from_line line k.
Proof.
  unfold extractTranslationKeys, sections. simpl.
  rewrite !in_app_iff.
  destruct (present (p_template parsed)) as [t |];
    destruct (present (scriptSetup parsed)) as [s1 |];
    destruct (present (p_script parsed)) as [s2 |]; simpl;
    intros [H | [H | H]]; try contradiction;
    first [ apply extractFromTemplate_from_line in H as (line & Hl & H)
          | apply extractFromScript_from_line in H as (line & Hl & H) ];
    eexists _, line; (split; [| split; [exact Hl | exact H]]); simpl; tauto.
Qed.

(** C9: every record of [extractTranslationKeys] is either dynamic, with an
    empty key and a raw pattern that begins and ends with a backtick and
    contains the interpolation opener, or static, with a non-empty key and
    no raw pattern. *)
Theorem extracted_key_invariant (parsed : ParsedVueSFC) (k : TranslationKey) :
  In k (extractTranslationKeys parsed) ->
  (isDynamic k = true ->
   key k = "" /\
   exists raw body,
     rawPattern k = Some raw /\ raw = "`" +:+ body +:+ "`" /\
     includes raw "${" = true) /\
  (isDynamic k = false -> key k <> "" /\ rawPattern k = None).
Proof.
  intros Hin.
  apply extractTranslationKeys_from_line in Hin as (text & ln & _ & _ & Hk).
  destruct Hk as [(Hs & Hkey & Hraw)
                 | (Hd & Hkey & body & a & b & Hraw & Hinc & _ & _)].
  - split; [congruence | tauto].
  - split; [| congruence]. intros _. split; [exact Hkey |].
    exists ("`" +:+ body +:+ "`"), body.
    split; [exact Hraw |]. split; [reflexivity |].
    now apply includes_literal.
Qed.

Lemma extracted_key_invariant_witness :
  In Examples.key_dynamic (extractTranslationKeys Examples.page_dynamic) /\
  (isDynamic Examples.key_dynamic = true ->
   key Examples.key_dynamic = "" /\
   exists raw body,
     rawPattern Examples.key_dynamic = Some raw /\ raw = "`" +:+ body +:+ "`" /\
     includes raw "${" = true) /\
  (isDynamic Examples.key_dynamic = false ->
   key Examples.key_dynamic <> "" /\ rawPattern Examples.key_dynamic = None).
Proof.
  assert (Hin : In Examples.key_dynamic (extractTranslationKeys Examples.page_dynamic))
    by (vm_compute; auto).
  split; [exact Hin |].
  exact (extracted_key_invariant Examples.page_dynamic Examples.key_dynamic Hin).
Defined.

(** C8: a script section in which neither [/useI18n\s*\(/] nor
    [/const\s*\{\s*t\s*[,}]/] matches yields no call site, whatever calls
    of [t] it contains. *)
Theorem no_evidence_no_call_sites (src filePath : string) (startLine : nat) :
  test useI18nPattern src = false ->
  test destructuredTPattern src = false ->
  extractFromScript src filePath startLine = [].
Proof.
  intros H1 H2. unfold extractFromScript, usesI18n. now rewrite H1, H2.
Qed.

Lemma no_evidence_no_call_sites_witness :
  test useI18nPattern Examples.unrelated_script = false /\
  test destructuredTPattern Examples.unrelated_script = false /\
  extractFromScript Examples.unrelated_script "/app/Pages/Util.vue" 1 = [].
Proof.
  split; [reflexivity |]. split; [reflexivity |].
  exact (no_evidence_no_call_sites Examples.unrelated_script "/app/Pages/Util.vue" 1
           eq_refl eq_refl).
Defined.

End ExtractorFacts.


(** ** Validation *)

Module ValidatorFacts.
Import JS Regex JSFacts Extractor ExtractorFacts Locales Validator.

Section WithHost.
Variable relative : string -> string -> string.

Lemma validateKeys_fold keys lookup root : forall acc,
  fold_left (fun (issues : list AuditIssue) k =>
               issues ++ validateKey relative lookup root k) keys acc
  = acc ++ flat_map (validateKey relative lookup root) keys.
Proof.
  induction keys as [| k keys IH]; intros acc; simpl.
  - now rewrite app_nil_r.
  - rewrite IH. now rewrite <- app_assoc.
Qed.

Lemma validateKeys_flat keys lookup root :
  validateKeys relative keys lookup root
  = flat_map (validateKey relative lookup root) keys.
Proof. unfold validateKeys. now rewrite validateKeys_fold. Qed.

(** The issues of a list are those of its keys, in order. *)
Lemma validateKeys_middle pre k post lookup root :
  validateKeys relative (pre ++ k :: post) lookup root
  = validateKeys relative pre lookup root
    ++ validateKey relative lookup root k
    ++ validateKeys relative post lookup root.
Proof. rewrite !validateKeys_flat, flat_map_app. reflexivity. Qed.
End WithHost.

(** A dynamic record found by the extractor has an empty key and a
    raw pattern that is, backticks included, a piece of a line of a scanned
    section lying between two consecutive backticks and containing the
    interpolation opener; whatever the lookup table holds, [validateKeys]
    pushes for it exactly one issue, of kind [dynamic_key] and severity
    [info], carrying that raw pattern. *)
Theorem dynamic_key_issue (relative : string -> string -> string)
  (parsed : ParsedVueSFC) (lookup : gmap string LocaleEntry) (root : string)
  (pre post : list TranslationKey) (k : TranslationKey) :
  In k (extractTranslationKeys parsed) ->
  isDynamic k = true ->
  key k = "" /\
  (exists body text line a b,
     rawPattern k = Some ("`" +:+ body +:+ "`") /\
     includes body "${" = true /\
     Forall (fun c => c <> backtick) (chars body) /\
     In text (sections parsed) /\ In line (split_lines text) /\
     line = a +:+ ("`" +:+ body +:+ "`") +:+ b) /\
  validateKeys relative (pre ++ k :: post) lookup root
  = validateKeys relative pre lookup root
    ++ [{| i_type := dynamic_key; i_severity := info;
           i_file := getRelativePath relative (file k) root;
           i_line := line k;
           i_key := rawPattern k;
           i_text := None;
           i_message := "Dynamic translation key detected: "
                        +:+ show (rawPattern k)
                        +:+ ". Manual review required." |}]
    ++ validateKeys relative post lookup root.
Proof.
  intros Hin Hdyn.
  apply extractTranslationKeys_from_line in Hin as (text & ln & Ht & Hl & Hk).
  destruct Hk as [(Hs & _) | (_ & Hkey & body & a & b & Hraw & Hinc & Hbt & Hline)];
    [congruence |].
  split; [exact Hkey |]. split.
  - exists body, text, ln, a, b. tauto.
  - rewrite validateKeys_middle. unfold validateKey. now rewrite Hdyn.
Qed.

(** C2: for a static call site whose key is not in the lookup table,
    [validateKeys] pushes exactly one issue, of kind [missing_translation]
    and severity [error], with the key and the line of the call site. *)
Theorem missing_translation_issue (relative : string -> string -> string)
  (lookup : gmap string LocaleEntry) (root : string)
  (pre post : list TranslationKey) (k : TranslationKey) :
  isDynamic k = false ->
  lookup !! key k = None ->
  validateKeys relative (pre ++ k :: post) lookup root
  = validateKeys relative pre lookup root
    ++ [{| i_type := missing_translation; i_severity := error;
           i_file := getRelativePath relative (file k) root;
           i_line := line k;
           i_key := Some (key k);
           i_text := None;
           i_message := "Translation key '" +:+ key k
                        +:+ "' not found in English locale" |}]
    ++ validateKeys relative post lookup root.
Proof.
  intros Hdyn Hnone. rewrite validateKeys_middle.
  unfold validateKey. now rewrite Hdyn, Hnone.
Qed.

Lemma dynamic_key_issue_witness :
  In Examples.key_dynamic (extractTranslationKeys Examples.page_dynamic) /\
  isDynamic Examples.key_dynamic = true /\
  validateKeys Examples.relative0 [Examples.key_dynamic] ∅ "/app"
  = [{| i_type := dynamic_key; i_severity := info;
        i_file := "Pages/Status.vue"; i_line := 8;
        i_key := Some "`status.${state}`"; i_text := None;
        i_message := "Dynamic translation key detected: `status.${state}`. Manual review required." |}].
Proof.
  assert (Hin : In Examples.key_dynamic (extractTranslationKeys Examples.page_dynamic))
    by (vm_compute; auto).
  split; [exact Hin |]. split; [reflexivity |].
  exact (proj2 (proj2 (dynamic_key_issue Examples.relative0 Examples.page_dynamic
                         ∅ "/app" [] [] Examples.key_dynamic Hin eq_refl))).
Defined.

Lemma missing_translation_issue_witness :
  isDynamic Examples.key_save = false /\
  (∅ : gmap string LocaleEntry) !! key Examples.key_save = None /\
  validateKeys Examples.relative0 [Examples.key_save] ∅ "/app"
  = [{| i_type := missing_translation; i_severity := error;
        i_file := "Pages/Form.vue"; i_line := 3;
        i_key := Some "common.save"; i_text := None;
        i_message := "Translation key 'common.save' not found in English locale" |}].
Proof.
  split; [reflexivity |]. split; [reflexivity |].
  exact (missing_translation_issue Examples.relative0 ∅ "/app" [] []
           Examples.key_save eq_refl eq_refl).
Defined.

End ValidatorFacts.

(** ** The catalog *)

Module LocalesFacts.
Import JS JSFacts Locales Validator ValidatorFacts.

(** Induction on a value that reaches the fields of nested objects *)
Section ValueInduction.
Variable P : value -> Prop.
Hypothesis HNull : P VNull.
Hypothesis HBool : forall b, P (VBool b).
Hypothesis HNum : forall n, P (VNum n).
Hypothesis HStr : forall s, P (VStr s).
Hypothesis HArr : forall items, P (VArr items).
Hypothesis HObj :
  forall fields, Forall (fun kv => P (snd kv)) fields -> P (VObj fields).

Fixpoint value_fields_ind (v : value) : P v :=
  match v with
  | VNull => HNull
  | VBool b => HBool b
  | VNum n => HNum n
  | VStr s => HStr s
  | VArr items => HArr items
  | VObj fields =>
      HObj fields
        ((fix go (fs : list (string * value)) : Forall (fun kv => P (snd kv)) fs :=
            match fs with
            | [] => List.Forall_nil _
            | (k, v') :: fs' =>
                @List.Forall_cons _ (fun kv => P (snd kv)) (k, v') fs'
                  (value_fields_ind v') (go fs')
            end) fields)
  end.
End ValueInduction.

Lemma flattenValue_obj file fullKey fields :
  flattenValue file fullKey (VObj fields) = flattenObject fields fullKey file.
Proof.
  unfold flattenObject. simpl.
  induction fields as [| [k v] fields IH]; [reflexivity |].
  simpl. now rewrite IH.
Qed.

Lemma leaves_obj fields : leaves (VObj fields) = leavesOf fields.
Proof.
  unfold leavesOf. simpl.
  induction fields as [| [k v] fields IH]; [reflexivity |].
  simpl. now rewrite IH.
Qed.

Lemma flattenValue_ok file v : forall fullKey,
  Forall entry_ok (flattenValue file fullKey v).
Proof.
  induction v as [| b | n | s | items | fields IH] using value_fields_ind;
    intros fullKey; try (simpl; constructor).
  - reflexivity.
  - constructor.
  - rewrite flattenValue_obj. unfold flattenObject.
    induction IH as [| [k v] fields Hv _ IHf]; simpl; [constructor |].
    apply Forall_app. split; [apply Hv | exact IHf].
Qed.

Lemma flattenObject_ok obj pre file : Forall entry_ok (flattenObject obj pre file).
Proof. rewrite <- flattenValue_obj. apply flattenValue_ok. Qed.

Lemma loadLocaleEntries_ok files : Forall entry_ok (loadLocaleEntries files).
Proof.
  unfold loadLocaleEntries.
  induction files as [| f files IH]; simpl; [constructor |].
  apply Forall_app. split; [| exact IH].
  destruct (String.eqb (lf_namespace f) "index"); [constructor |].
  destruct (lf_parsed f); [apply flattenObject_ok | constructor].
Qed.

(** What a lookup table built by [createLocaleLookup] can hold *)
Lemma lookup_fold_in entries : forall (m : gmap string LocaleEntry) k e,
  fold_left (fun lookup entry => <[e_key entry := entry]> lookup) entries m !! k
  = Some e ->
  In e entries \/ m !! k = Some e.
Proof.
  induction entries as [| x entries IH]; intros m k e H; simpl in H.
  - now right.
  - apply IH in H as [H | H]; [left; now right |].
    destruct (decide (e_key x = k)) as [Hk | Hk].
    + rewrite Hk, lookup_insert_eq in H. injection H as ->. left. now left.
    + rewrite lookup_insert_ne in H by exact Hk. now right.
Qed.

Lemma createLocaleLookup_in entries k e :
  createLocaleLookup entries !! k = Some e -> In e entries.
Proof.
  intros H. apply lookup_fold_in in H as [H | H]; [exact H |].
  now rewrite lookup_empty in H.
Qed.

(** Entries that come after and have other keys do not change a binding. *)
Lemma lookup_fold_other entries : forall (m : gmap string LocaleEntry) k,
  Forall (fun e => e_key e <> k) entries ->
  fold_left (fun lookup entry => <[e_key entry := entry]> lookup) entries m !! k
  = m !! k.
Proof.
  induction entries as [| x entries IH]; intros m k H; simpl; [reflexivity |].
  apply Forall_cons in H as [Hx H].
  rewrite IH by exact H. now apply lookup_insert_ne.
Qed.

(** C3: for a static call site whose key is in the lookup table built from
    the loaded locale files, [validateKeys] pushes exactly one issue, of
    kind [empty_value] and severity [warning], when the value of the
    entry is empty once trimmed, and no issue otherwise; [trim] strips all
    the white space and line terminators of ECMAScript, the no-break space
    and the byte order mark among them. *)
Theorem empty_value_issue (relative : string -> string -> string)
  (files : list LocaleFile) (root : string)
  (pre post : list TranslationKey) (k : TranslationKey) (e : LocaleEntry) :
  isDynamic k = false ->
  createLocaleLookup (loadLocaleEntries files) !! key k = Some e ->
  validateKeys relative (pre ++ k :: post)
               (createLocaleLookup (loadLocaleEntries files)) root
  = validateKeys relative pre (createLocaleLookup (loadLocaleEntries files)) root
    ++ (if String.eqb (trim (e_value e)) ""
        then [{| i_type := empty_value; i_severity := warning;
                 i_file := getRelativePath relative (file k) root;
                 i_line := line k;
                 i_key := Some (key k);
                 i_text := None;
                 i_message := "Translation key '" +:+ key k
                              +:+ "' has an empty value" |}]
        else [])
    ++ validateKeys relative post (createLocaleLookup (loadLocaleEntries files)) root.
Proof.
  intros Hdyn Hsome. rewrite validateKeys_middle.
  unfold validateKey. rewrite Hdyn, Hsome.
  assert (Hok : entry_ok e).
  { apply createLocaleLookup_in in Hsome.
    pose proof (loadLocaleEntries_ok files) as Hall.
    rewrite List.Forall_forall in Hall. now apply Hall. }
  unfold entry_ok in Hok. now rewrite Hok.
Qed.

Lemma createLocaleLookup_snoc entries x :
  createLocaleLookup (entries ++ [x]) = <[e_key x := x]> (createLocaleLookup entries).
Proof. unfold createLocaleLookup. now rewrite fold_left_app. Qed.

(** The table holds, for each key, the last entry of the list with that
    key. *)
Lemma createLocaleLookup_last entries k :
  createLocaleLookup entries !! k = last (filter (fun e => e_key e = k) entries).
Proof.
  induction entries as [| x entries IH] using rev_ind; [reflexivity |].
  rewrite createLocaleLookup_snoc, filter_app.
  destruct (decide (e_key x = k)) as [Hk | Hk].
  - rewrite Hk, lookup_insert_eq.
    rewrite filter_cons_True by exact Hk. rewrite filter_nil.
    now rewrite last_snoc.
  - rewrite lookup_insert_ne by exact Hk.
    rewrite filter_cons_False by exact Hk. rewrite filter_nil.
    now rewrite app_nil_r.
Qed.

(** C6: the lookup table maps each key to the last entry of the list that
    has it; so when two entries have the same key and none after the
    second has it, the table holds the second, as it stands. *)
Theorem createLocaleLookup_last_wins :
  (forall entries k,
     createLocaleLookup entries !! k
     = last (filter (fun e => e_key e = k) entries)) /\
  (forall (l1 l2 l3 : list LocaleEntry) (e1 e2 : LocaleEntry),
     e_key e1 = e_key e2 ->
     Forall (fun e => e_key e <> e_key e2) l3 ->
     createLocaleLookup (l1 ++ e1 :: l2 ++ e2 :: l3) !! e_key e2 = Some e2).
Proof.
  split; [exact createLocaleLookup_last |].
  intros l1 l2 l3 e1 e2 _ Hlast. unfold createLocaleLookup.
  rewrite fold_left_app. simpl. rewrite fold_left_app. simpl.
  rewrite lookup_fold_other by exact Hlast.
  apply lookup_insert_eq.
Qed.

Lemma empty_value_issue_witness :
  isDynamic Examples.key_title = false /\
  createLocaleLookup (loadLocaleEntries [Examples.locale_common])
    !! key Examples.key_title = Some Examples.entry_title /\
  validateKeys Examples.relative0 [Examples.key_title]
               (createLocaleLookup (loadLocaleEntries [Examples.locale_common]))
               "/app"
  = [{| i_type := empty_value; i_severity := warning;
        i_file := "Pages/Form.vue"; i_line := 4;
        i_key := Some "common.title"; i_text := None;
        i_message := "Translation key 'common.title' has an empty value" |}].
Proof.
  assert (Hl : createLocaleLookup (loadLocaleEntries [Examples.locale_common])
                 !! key Examples.key_title = Some Examples.entry_title)
    by (vm_compute; reflexivity).
  split; [reflexivity |]. split; [exact Hl |].
  exact (empty_value_issue Examples.relative0 [Examples.locale_common] "/app"
           [] [] Examples.key_title Examples.entry_title eq_refl Hl).
Defined.

Lemma createLocaleLookup_last_wins_witness :
  e_key Examples.entry_first = e_key Examples.entry_second /\
  Forall (fun e => e_key e <> e_key Examples.entry_second) [Examples.entry_other] /\
  createLocaleLookup
    ([] ++ Examples.entry_first :: [] ++ Examples.entry_second :: [Examples.entry_other])
    !! e_key Examples.entry_second
  = Some Examples.entry_second.
Proof.
  assert (Hl : Forall (fun e => e_key e <> e_key Examples.entry_second)
                      [Examples.entry_other]).
  { constructor; [discriminate | constructor]. }
  split; [reflexivity |]. split; [exact Hl |].
  exact (proj2 createLocaleLookup_last_wins [] [] [Examples.entry_other]
           Examples.entry_first Examples.entry_second eq_refl Hl).
Defined.

(** *** Flattening *)

Lemma sapp_nonempty a b : a <> "" -> a +:+ b <> "".
Proof. destruct a; [congruence | discriminate]. Qed.

Lemma fullKeyOf_dot pre k : pre <> "" -> fullKeyOf pre k = pre +:+ "." +:+ k.
Proof.
  intros H. unfold fullKeyOf.
  apply truthy_nonempty in H. now rewrite H.
Qed.

Lemma flattenValue_leaves file v : forall pre,
  pre <> "" -> flattenValue file pre v = map (entryOf pre file) (leaves v).
Proof.
  induction v as [| b | n | s | items | fields IH] using value_fields_ind;
    intros pre Hpre; try reflexivity.
  rewrite flattenValue_obj, leaves_obj. unfold flattenObject, leavesOf.
  induction IH as [| [k v] fields Hv _ IHf]; [reflexivity |].
  simpl. rewrite map_app, map_map, IHf. f_equal.
  simpl in Hv. rewrite (fullKeyOf_dot pre k Hpre).
  rewrite Hv by now apply sapp_nonempty.
  apply map_ext. intros [path s]. reflexivity.
Qed.

Lemma flattenObject_leaves obj ns file :
  ns <> "" -> flattenObject obj ns file = map (entryOf ns file) (leavesOf obj).
Proof.
  intros H. rewrite <- flattenValue_obj, <- leaves_obj.
  now apply flattenValue_leaves.
Qed.

Lemma reorder_fields_Permutation file :
  forall fs fs', reorder_fields fs fs' ->
  forall pre, Permutation (flattenObject fs pre file) (flattenObject fs' pre file).
Proof.
  apply (reorder_fields_mut
           (fun v v' => forall fullKey,
              Permutation (flattenValue file fullKey v) (flattenValue file fullKey v'))
           (fun fs fs' => forall pre,
              Permutation (flattenObject fs pre file) (flattenObject fs' pre file))).
  - intros v fullKey. reflexivity.
  - intros fs fs' _ IH fullKey. rewrite !flattenValue_obj. apply IH.
  - intros pre. reflexivity.
  - intros k v v' fs fs' _ IHv _ IHf pre. unfold flattenObject in *. simpl.
    apply Permutation_app; [apply IHv | apply IHf].
  - intros [ka va] [kb vb] fs pre. unfold flattenObject. simpl.
    rewrite !app_assoc. apply Permutation_app_tail, Permutation_app_comm.
  - intros fs1 fs2 fs3 _ IH1 _ IH2 pre.
    etransitivity; [apply IH1 | apply IH2].
Qed.

(** C5: under a namespace, [flattenObject] gives one entry per string
    leaf, keyed by the namespace and the keys on the way to the leaf
    joined by dots; the example object gives the two entries of the
    specification; enumerating sibling keys in another order gives the same
    entries up to their order; a number, boolean, array or null gives no
    entry. *)
Theorem flattenObject_string_leaves :
  (forall obj ns file,
     ns <> "" ->
     flattenObject obj ns file = map (entryOf ns file) (leavesOf obj)) /\
  (forall file,
     flattenObject Examples.nested "ns" file
     = [{| e_key := "ns.a.b"; e_value := "x"; e_file := file; isEmpty := false |};
        {| e_key := "ns.a.c"; e_value := "y"; e_file := file; isEmpty := false |}]) /\
  (forall obj obj' ns file,
     reorder_fields obj obj' ->
     Permutation (flattenObject obj ns file) (flattenObject obj' ns file)) /\
  (forall k v ns file,
     match v with VNull | VBool _ | VNum _ | VArr _ => True | _ => False end ->
     flattenObject [(k, v)] ns file = []).
Proof.
  split; [exact flattenObject_leaves |].
  split; [reflexivity |].
  split.
  - intros obj obj' ns file H. now apply reorder_fields_Permutation.
  - intros k v ns file Hv. destruct v; try contradiction; reflexivity.
Qed.

Lemma flattenObject_string_leaves_witness :
  "ns" <> "" /\
  reorder_fields Examples.nested Examples.nested_swapped /\
  flattenObject Examples.mixed "ns" "ns.ts"
  = map (entryOf "ns" "ns.ts") (leavesOf Examples.mixed) /\
  Permutation (flattenObject Examples.nested "ns" "ns.ts")
              (flattenObject Examples.nested_swapped "ns" "ns.ts").
Proof.
  assert (Hns : "ns" <> "") by discriminate.
  assert (Hre : reorder_fields Examples.nested Examples.nested_swapped).
  { apply rf_skip; [| apply rf_nil]. apply reorder_obj, rf_swap. }
  split; [exact Hns |]. split; [exact Hre |]. split.
  - exact (proj1 flattenObject_string_leaves Examples.mixed "ns" "ns.ts" Hns).
  - exact (proj1 (proj2 (proj2 flattenObject_string_leaves))
             Examples.nested Examples.nested_swapped "ns" "ns.ts" Hre).
Defined.

End LocalesFacts.

(** ** Unique keys *)

Module UniqueFacts.
Import JS JSFacts Extractor.

Lemma counted_spec k :
  counted k = true <-> isDynamic k = false /\ key k <> "".
Proof.
  unfold counted. rewrite andb_true_iff, negb_true_iff, truthy_nonempty.
  reflexivity.
Qed.

Lemma set_add_NoDup s seen : NoDup seen -> NoDup (set_add s seen).
Proof.
  intros H. unfold set_add. destruct (decide (s ∈ seen)) as [Hin | Hin]; [exact H |].
  apply NoDup_app. split; [exact H |]. split.
  - intros x Hx Hs. apply list_elem_of_singleton in Hs. now subst.
  - apply NoDup_singleton.
Qed.

Lemma set_add_elem s seen x : x ∈ set_add s seen <-> x ∈ seen \/ x = s.
Proof.
  unfold set_add. destruct (decide (s ∈ seen)) as [Hin | Hin].
  - split; [now left |]. intros [H | ->]; assumption.
  - rewrite elem_of_app, list_elem_of_singleton. reflexivity.
Qed.

Lemma uniqueSet_fold keys : forall seen,
  NoDup seen ->
  let res := fold_left (fun seen k =>
                          if counted k then set_add (key k) seen else seen)
                       keys seen in
  NoDup res /\
  forall s, s ∈ res <-> s ∈ seen \/ exists k, In k keys /\ counted k = true /\ key k = s.
Proof.
  induction keys as [| k keys IH]; intros seen Hnd; simpl.
  - split; [exact Hnd |]. intros s. split; [now left |].
    intros [H | (k & [] & _)]. exact H.
  - destruct (counted k) eqn:Hc.
    + destruct (IH (set_add (key k) seen) (set_add_NoDup _ _ Hnd)) as [Hn Hm].
      split; [exact Hn |]. intros s. rewrite Hm, set_add_elem. split.
      * intros [[H | ->] | (k' & Hin & Hc' & Hk)].
        -- now left.
        -- right. exists k. split; [now left | now split].
        -- right. exists k'. split; [now right | now split].
      * intros [H | (k' & [<- | Hin] & Hc' & Hk)].
        -- left. now left.
        -- left. now right.
        -- right. exists k'. now split.
    + destruct (IH seen Hnd) as [Hn Hm].
      split; [exact Hn |]. intros s. rewrite Hm. split.
      * intros [H | (k' & Hin & Hc' & Hk)]; [now left |].
        right. exists k'. split; [now right | now split].
      * intros [H | (k' & [<- | Hin] & Hc' & Hk)]; [now left | congruence |].
        right. exists k'. now split.
Qed.

Lemma le_neq_ltb a b : String.le a b -> a <> b -> String.ltb a b = true.
Proof.
  unfold String.le, String.leb, String.ltb. intros Hle Hne.
  destruct (String.compare a b) eqn:Hc.
  - now apply String.compare_eq_iff in Hc.
  - reflexivity.
  - contradiction.
Qed.

Lemma strictly_sorted l :
  StronglySorted String.le l -> NoDup l ->
  StronglySorted (fun a b => String.ltb a b = true) l.
Proof.
  induction 1 as [| x l Hs IH Hx]; intros Hnd; constructor.
  - apply IH. now apply NoDup_cons in Hnd as [_ Hnd].
  - apply NoDup_cons in Hnd as [Hnin _].
    rewrite List.Forall_forall in *. intros y Hy.
    apply le_neq_ltb; [now apply Hx |].
    intros ->. apply Hnin. now apply list_elem_of_In.
Qed.

(** C10: [getUniqueKeys] returns, in strictly ascending lexicographic
    order (so without duplicates), exactly the keys of the non-dynamic
    records of its input whose key is not empty. *)
Theorem getUniqueKeys_spec (keys : list TranslationKey) :
  StronglySorted (fun a b => String.ltb a b = true) (getUniqueKeys keys) /\
  NoDup (getUniqueKeys keys) /\
  forall s,
    In s (getUniqueKeys keys) <->
    exists k, In k keys /\ isDynamic k = false /\ key k <> "" /\ key k = s.
Proof.
  unfold getUniqueKeys, sort.
  destruct (uniqueSet_fold keys [] (NoDup_nil_2 (A:=string))) as [Hnd Hmem].
  fold (uniqueSet keys) in Hnd, Hmem.
  pose proof (merge_sort_Permutation String.le (uniqueSet keys)) as Hperm.
  assert (Hnd' : NoDup (merge_sort String.le (uniqueSet keys))).
  { now rewrite Hperm. }
  split; [| split; [exact Hnd' |]].
  - apply strictly_sorted; [| exact Hnd'].
    apply StronglySorted_merge_sort; apply _.
  - intros s. rewrite <- list_elem_of_In, Hperm, Hmem. split.
    + intros [H | (k & Hin & Hc & Hk)]; [now apply elem_of_nil in H |].
      apply counted_spec in Hc as [Hd Hne]. now exists k.
    + intros (k & Hin & Hd & Hne & Hk). right. exists k.
      split; [exact Hin |]. split; [now apply counted_spec | exact Hk].
Qed.

End UniqueFacts.

(** ** Hardcoded text *)

Module HardcodedFacts.
Import JS Regex Hardcoded.

Lemma matchesExclusionPattern_app text a b :
  matchesExclusionPattern text (a ++ b)
  = matchesExclusionPattern text a || matchesExclusionPattern text b.
Proof.
  induction a as [| [re_test | p] a IH]; simpl; [reflexivity | |].
  - destruct (re_test text); [reflexivity | exact IH].
  - destruct (startsWith text p); [reflexivity | exact IH].
Qed.

(** Keeping a node of one kind in a list is monotonic in the test. *)
Lemma flat_map_keep_sublist {A B} (keep keep' : A -> bool) (g : A -> B) l :
  (forall x, keep' x = true -> keep x = true) ->
  flat_map (fun x => if keep' x then [g x] else []) l
  `sublist_of` flat_map (fun x => if keep x then [g x] else []) l.
Proof.
  intros H. induction l as [| x l IH]; simpl; [constructor |].
  destruct (keep' x) eqn:E.
  - rewrite (H x E). simpl. now apply sublist_skip.
  - destruct (keep x); simpl; [now apply sublist_cons | exact IH].
Qed.

Section WithHost.
Variable relative : string -> string -> string.
Variable new_RegExp : string -> option (string -> bool).
Variable toUpperCase : string -> string.

Lemma compilePatterns_app xs ys :
  compilePatterns new_RegExp (xs ++ ys)
  = match compilePatterns new_RegExp xs, compilePatterns new_RegExp ys with
    | Some a, Some b => Some (a ++ b)
    | _, _ => None
    end.
Proof.
  induction xs as [| x xs IH]; simpl.
  - now destruct (compilePatterns new_RegExp ys).
  - destruct (new_RegExp x); [| reflexivity]. rewrite IH.
    destruct (compilePatterns new_RegExp xs); [| reflexivity].
    now destruct (compilePatterns new_RegExp ys).
Qed.

(** One more compiled pattern can only reject more. *)
Lemma keepNode_more_patterns rules rules' builtin lx re ly text :
  minLength rules' = minLength rules ->
  excludeAllCaps rules' = excludeAllCaps rules ->
  keepNode toUpperCase rules' (builtin ++ map PRegExp (lx ++ re :: ly)) text = true ->
  keepNode toUpperCase rules (builtin ++ map PRegExp (lx ++ ly)) text = true.
Proof.
  unfold keepNode. intros -> ->.
  destruct (Z.of_nat (units text) <? minLength rules)%Z; [discriminate |].
  destruct (excludeAllCaps rules && String.eqb text (toUpperCase text)
            && (2 <? units text)); [discriminate |].
  destruct (matchesExclusionPattern text (builtin ++ map PRegExp (lx ++ re :: ly)))
    eqn:E; [discriminate |].
  rewrite !map_app, !matchesExclusionPattern_app in *.
  apply orb_false_iff in E as [E1 E2].
  apply orb_false_iff in E2 as [E2 E3].
  simpl in E3. destruct (re text); [discriminate |].
  rewrite E1, E2, E3. intros H. exact H.
Qed.

(** A smaller minimum length can only reject less. *)
Lemma keepNode_smaller_min rules n n' patterns text :
  (n' <= n)%Z ->
  keepNode toUpperCase (withMinLength rules n) patterns text = true ->
  keepNode toUpperCase (withMinLength rules n') patterns text = true.
Proof.
  unfold keepNode. simpl. intros Hle.
  destruct (Z.of_nat (units text) <? n)%Z eqn:E; [discriminate |].
  apply Z.ltb_ge in E.
  assert (E' : (Z.of_nat (units text) <? n')%Z = false)
    by (apply Z.ltb_ge; lia).
  rewrite E'. intros H. exact H.
Qed.
End WithHost.

(** C7: when [detectHardcodedStrings] returns with one more exclusion
    pattern, it returns without it as well and the candidates found with
    the pattern are among those found without it, so they are not more;
    when it returns with some [minLength], it returns with any smaller one
    and the candidates found with the larger are among those found with
    the smaller, so they are not fewer. *)
Theorem hardcoded_filters_monotonic
  (relative : string -> string -> string)
  (new_RegExp : string -> option (string -> bool))
  (toUpperCase : string -> string)
  (parsed : ParsedVueSFC) (rules : HardcodedTextRules) (root : string) :
  (forall xs p ys l',
     detectHardcodedStrings relative new_RegExp toUpperCase parsed
       (withPatterns rules (xs ++ p :: ys)) root = Some l' ->
     exists l,
       detectHardcodedStrings relative new_RegExp toUpperCase parsed
         (withPatterns rules (xs ++ ys)) root = Some l /\
       l' `sublist_of` l /\ length l' <= length l) /\
  (forall n n' l,
     (n' <= n)%Z ->
     detectHardcodedStrings relative new_RegExp toUpperCase parsed
       (withMinLength rules n) root = Some l ->
     exists l',
       detectHardcodedStrings relative new_RegExp toUpperCase parsed
         (withMinLength rules n') root = Some l' /\
       l `sublist_of` l' /\ length l <= length l').
Proof.
  split.
  - intros xs p ys l'. unfold detectHardcodedStrings.
    destruct (Extractor.present (p_template parsed)) as [tpl |].
    + simpl. rewrite !compilePatterns_app. simpl.
      destruct (compilePatterns new_RegExp xs) as [lx |]; [| discriminate].
      destruct (new_RegExp p) as [re |]; [| discriminate].
      destruct (compilePatterns new_RegExp ys) as [ly |]; [| discriminate].
      intros H. injection H as <-. eexists. split; [reflexivity |].
      assert (Hsub : forall l1 l2 : list HardcodedString,
                 l1 `sublist_of` l2 -> l1 `sublist_of` l2 /\ length l1 <= length l2)
        by (intros l1 l2 Hs; split; [exact Hs | now apply sublist_length]).
      apply Hsub.
      apply (flat_map_keep_sublist
               (fun node => keepNode toUpperCase (withPatterns rules (xs ++ ys))
                              (map (fun re => PRegExp (test re)) DEFAULT_EXCLUDE_PATTERNS
                               ++ map PRegExp (lx ++ ly)) (n_text node))
               (fun node => keepNode toUpperCase (withPatterns rules (xs ++ p :: ys))
                              (map (fun re => PRegExp (test re)) DEFAULT_EXCLUDE_PATTERNS
                               ++ map PRegExp (lx ++ re :: ly)) (n_text node))).
      intros node. now apply keepNode_more_patterns.
    + intros H. injection H as <-. exists []. split; [reflexivity |].
      split; [constructor | simpl; lia].
  - intros n n' l Hle. unfold detectHardcodedStrings.
    destruct (Extractor.present (p_template parsed)) as [tpl |].
    + simpl. destruct (compilePatterns new_RegExp (excludePatterns rules)) as [user |];
        [| discriminate].
      intros H. injection H as <-. eexists. split; [reflexivity |].
      assert (Hsub : forall l1 l2 : list HardcodedString,
                 l1 `sublist_of` l2 -> l1 `sublist_of` l2 /\ length l1 <= length l2)
        by (intros l1 l2 Hs; split; [exact Hs | now apply sublist_length]).
      apply Hsub.
      apply (flat_map_keep_sublist
               (fun node => keepNode toUpperCase (withMinLength rules n')
                              (map (fun re => PRegExp (test re)) DEFAULT_EXCLUDE_PATTERNS
                               ++ map PRegExp user) (n_text node))
               (fun node => keepNode toUpperCase (withMinLength rules n)
                              (map (fun re => PRegExp (test re)) DEFAULT_EXCLUDE_PATTERNS
                               ++ map PRegExp user) (n_text node))).
      intros node. now apply keepNode_smaller_min.
    + intros H. injection H as <-. exists []. split; [reflexivity |].
      split; [constructor | simpl; lia].
Qed.

Lemma hardcoded_filters_monotonic_witness :
  detectHardcodedStrings Examples.relative0 Examples.new_RegExp0 Examples.toUpperCase0 Examples.page_text
    (withPatterns Examples.rules0 (["^v-"] ++ "^Lorem" :: [])) "/app"
  = Some [Examples.text_welcome] /\
  (exists l,
     detectHardcodedStrings Examples.relative0 Examples.new_RegExp0 Examples.toUpperCase0 Examples.page_text
       (withPatterns Examples.rules0 (["^v-"] ++ [])) "/app" = Some l /\
     [Examples.text_welcome] `sublist_of` l /\ length [Examples.text_welcome] <= length l) /\
  (3 <= 12)%Z /\
  detectHardcodedStrings Examples.relative0 Examples.new_RegExp0 Examples.toUpperCase0 Examples.page_text
    (withMinLength Examples.rules0 12) "/app"
  = Some [Examples.text_welcome] /\
  (exists l',
     detectHardcodedStrings Examples.relative0 Examples.new_RegExp0 Examples.toUpperCase0 Examples.page_text
       (withMinLength Examples.rules0 3) "/app" = Some l' /\
     [Examples.text_welcome] `sublist_of` l' /\ length [Examples.text_welcome] <= length l').
Proof.
  pose proof (hardcoded_filters_monotonic Examples.relative0 Examples.new_RegExp0 Examples.toUpperCase0
                Examples.page_text Examples.rules0 "/app") as [Hp Hm].
  assert (H1 : detectHardcodedStrings Examples.relative0 Examples.new_RegExp0 Examples.toUpperCase0
                 Examples.page_text
                 (withPatterns Examples.rules0 (["^v-"] ++ "^Lorem" :: [])) "/app"
               = Some [Examples.text_welcome]) by (vm_compute; reflexivity).
  assert (H2 : detectHardcodedStrings Examples.relative0 Examples.new_RegExp0 Examples.toUpperCase0
                 Examples.page_text (withMinLength Examples.rules0 12) "/app"
               = Some [Examples.text_welcome]) by (vm_compute; reflexivity).
  assert (H3 : (3 <= 12)%Z) by lia.
  split; [exact H1 |]. split; [exact (Hp _ _ _ _ H1) |].
  split; [exact H3 |]. split; [exact H2 |].
  exact (Hm 12%Z 3%Z _ H3 H2).
Defined.

End HardcodedFacts.

(** ** The summary *)

Module AuditFacts.
Import JS Regex Extractor Locales Validator Hardcoded Audit.

(** C4, at one file that uses one missing key at two call sites: there is
    one unique key and it is missing, so the formula of the specification
    gives 0; [runAudit] takes the number of [missing_translation] issues,
    2, for the number of missing keys and reports -100. *)
Theorem coverage_counts_call_sites :
  let report :=
    runAudit Examples.relative0 Examples.new_RegExp0 Examples.toUpperCase0 Examples.rules0 "/app" []
             [("/app/Pages/Twice.vue", Some Examples.page_twice)] in
  uniqueKeysFound (summary report) = 1 /\
  missingUnique ∅ (extractTranslationKeys Examples.page_twice) = 1 /\
  s_missingTranslations (summary report) = 2 /\
  coveragePercentage (summary report) = (-100)%float /\
  coverage 1 1 = 0%float.
Proof. vm_compute. repeat split; reflexivity. Qed.

End AuditFacts.

(** ** The end-to-end scenarios of the specification, run on the model *)

Module Scenarios.
Import JS Regex RegexFacts Extractor Locales Validator Hardcoded Audit Examples.

(** The patterns driven by the [exec] loop all consume something, so the
    loop of the model is the loop of the source ([exec_all_fuel]). *)
Lemma driven_patterns_progress :
  Forall (fun re => 0 < min_len (re_pat re))
         [interpolationPattern; boundAttrPattern; templateLiteralPattern;
          simplePattern; scriptTemplateLiteralPattern; textPattern].
Proof. repeat constructor. Qed.

Example scenario1 :
  let keys := extractTranslationKeys (markup "{{ t('common.save') }}") in
  keys = [{| key := "common.save"; file := "/app/Pages/Page.vue"; line := 2;
             ctx := template; isDynamic := false; rawPattern := None |}] /\
  validateKeys Examples.relative0 keys catalog "/app" = [].
Proof. vm_compute. split; reflexivity. Qed.

Example scenario2 :
  validateKeys Examples.relative0
    (extractTranslationKeys (markup "{{ $t('dashboard.welcome') }}")) catalog "/app"
  = [{| i_type := missing_translation; i_severity := error;
        i_file := "Pages/Page.vue"; i_line := 2;
        i_key := Some "dashboard.welcome"; i_text := None;
        i_message := "Translation key 'dashboard.welcome' not found in English locale" |}].
Proof. vm_compute. reflexivity. Qed.

(** The quoted-key pattern takes a backtick for a quote, so a dynamic call
    in a script is recorded twice: once as a static key that is the text
    of the literal, once as a dynamic key. *)
Example scenario3 :
  extractTranslationKeys Examples.page_dynamic
  = [{| key := "status.${state}"; file := "/app/Pages/Status.vue"; line := 8;
        ctx := script; isDynamic := false; rawPattern := None |};
     Examples.key_dynamic] /\
  map i_type (validateKeys Examples.relative0
                (extractTranslationKeys Examples.page_dynamic) catalog "/app")
  = [missing_translation; dynamic_key].
Proof. vm_compute. split; reflexivity. Qed.

Example scenario4 :
  detectHardcodedStrings Examples.relative0 Examples.new_RegExp0 Examples.toUpperCase0
    (markup "<h1>Welcome to Dashboard</h1>") Examples.rules0 "/app"
  = Some [{| h_text := "Welcome to Dashboard"; h_file := "Pages/Page.vue";
             h_line := 2; h_confidence := high;
             h_context := "<h1>Welcome to Dashboard</h1>" |}].
Proof. vm_compute. reflexivity. Qed.

Example scenario5 :
  detectHardcodedStrings Examples.relative0 Examples.new_RegExp0 Examples.toUpperCase0
    (markup ("<div class=" +:+ String dquote ("flex-container" +:+ String dquote ">")))
    Examples.rules0 "/app"
  = Some [].
Proof. vm_compute. reflexivity. Qed.

End Scenarios.

(** * Further properties of the code *)

(** Non-membership in a list of known characters *)
Ltac not_in :=
  let H := fresh "H" in
  intros H; vm_compute in H;
  repeat (destruct H as [H | H]; [discriminate H |]); exact H.


(** ** validator.ts *)

Module ValidationMore.
Import JS Extractor Locales Validator ValidatorFacts LocalesFacts Audit Report.

Section WithHost.
Variable relative : string -> string -> string.

Lemma validateKey_nil lookup root k :
  validateKey relative lookup root k = [] <->
  isDynamic k = false /\ exists e, lookup !! key k = Some e /\ isEmpty e = false.
Proof.
  unfold validateKey. destruct (isDynamic k).
  - split; [discriminate | intros [H _]; discriminate].
  - destruct (lookup !! key k) as [e |].
    + destruct (isEmpty e) eqn:He.
      * split; [discriminate |]. intros (_ & e' & He' & Hf). congruence.
      * split; [| reflexivity]. intros _. split; [reflexivity |]. now exists e.
    + split; [discriminate |]. intros (_ & e & He & _). discriminate.
Qed.

Lemma validateKey_length lookup root k :
  length (validateKey relative lookup root k) <= 1.
Proof.
  unfold validateKey. destruct (isDynamic k); [simpl; lia |].
  destruct (lookup !! key k) as [e |]; [| simpl; lia].
  destruct (isEmpty e); simpl; lia.
Qed.

Lemma validateKey_issue lookup root k i :
  In i (validateKey relative lookup root k) ->
  i_file i = getRelativePath relative (file k) root /\
  i_line i = line k /\
  i_type i <> hardcoded_text /\
  (i_severity i = info <-> i_type i = dynamic_key) /\
  (i_type i = dynamic_key <-> isDynamic k = true).
Proof.
  unfold validateKey. destruct (isDynamic k) eqn:Hd.
  - intros [<- | []]. simpl. repeat split; try discriminate; reflexivity.
  - destruct (lookup !! key k) as [e |].
    + destruct (isEmpty e); [| contradiction].
      intros [<- | []]. simpl. repeat split; discriminate.
    + intros [<- | []]. simpl. repeat split; discriminate.
Qed.
End WithHost.

Lemma validateKeys_issue_in relative keys lookup root i :
  In i (validateKeys relative keys lookup root) ->
  exists k, In k keys /\
    i_file i = getRelativePath relative (file k) root /\
    i_line i = line k /\
    i_type i <> hardcoded_text /\
    (i_severity i = info <-> i_type i = dynamic_key) /\
    (i_type i = dynamic_key <-> isDynamic k = true).
Proof.
  rewrite validateKeys_flat. intros Hi.
  apply in_flat_map in Hi as (k & Hk & Hi).
  exists k. split; [exact Hk |]. now apply validateKey_issue in Hi.
Qed.

(** X1: [validateKeys] returns no issue exactly when every key is static
    and has an entry that is not empty. *)
Theorem validateKeys_clean_iff (relative : string -> string -> string)
  (keys : list TranslationKey) (lookup : gmap string LocaleEntry) (root : string) :
  validateKeys relative keys lookup root = [] <->
  Forall (fun k => isDynamic k = false /\
                   exists e, lookup !! key k = Some e /\ isEmpty e = false) keys.
Proof.
  rewrite validateKeys_flat.
  induction keys as [| k keys IH]; simpl.
  - split; [constructor | reflexivity].
  - rewrite Forall_cons. rewrite <- IH, <- validateKey_nil.
    split.
    + intros H. now apply app_eq_nil in H.
    + intros [-> ->]. reflexivity.
Qed.

(** X2: [validateKeys] pushes at most one issue per key; each issue has the
    relative path and the line of one of the keys, is never of kind
    [hardcoded_text], and is of severity [info] exactly when it is a
    [dynamic_key] issue. *)
Theorem validateKeys_issues_from_keys (relative : string -> string -> string)
  (keys : list TranslationKey) (lookup : gmap string LocaleEntry) (root : string) :
  length (validateKeys relative keys lookup root) <= length keys /\
  forall i, In i (validateKeys relative keys lookup root) ->
    i_type i <> hardcoded_text /\
    (i_severity i = info <-> i_type i = dynamic_key) /\
    exists k, In k keys /\
      i_file i = getRelativePath relative (file k) root /\ i_line i = line k /\
      (i_type i = dynamic_key <-> isDynamic k = true).
Proof.
  split.
  - rewrite validateKeys_flat.
    induction keys as [| k keys IH]; simpl; [lia |].
    rewrite length_app. pose proof (validateKey_length relative lookup root k). lia.
  - intros i Hi.
    apply validateKeys_issue_in in Hi as (k & Hk & Hf & Hl & Ht & Hs & Hd).
    split; [exact Ht |]. split; [exact Hs |]. now exists k.
Qed.

Lemma validateKeys_issues_from_keys_witness :
  In Samples.issue_save (validateKeys Examples.relative0 [Examples.key_save] ∅ "/app") /\
  i_type Samples.issue_save <> hardcoded_text /\
  (i_severity Samples.issue_save = info <-> i_type Samples.issue_save = dynamic_key).
Proof.
  assert (Hin : In Samples.issue_save
                   (validateKeys Examples.relative0 [Examples.key_save] ∅ "/app"))
    by (vm_compute; auto).
  pose proof (proj2 (validateKeys_issues_from_keys Examples.relative0
                       [Examples.key_save] ∅ "/app") Samples.issue_save Hin)
    as (H1 & H2 & _).
  split; [exact Hin |]. split; [exact H1 | exact H2].
Defined.

(** The tally is additive. *)
Lemma countIssues_fold issues : forall c,
  fold_left (fun c issue =>
               match i_type issue with
               | missing_translation =>
                   mkCounts (S (missingTranslations c)) (emptyValues c) (dynamicKeys c)
               | empty_value =>
                   mkCounts (missingTranslations c) (S (emptyValues c)) (dynamicKeys c)
               | dynamic_key =>
                   mkCounts (missingTranslations c) (emptyValues c) (S (dynamicKeys c))
               | hardcoded_text => c
               end) issues c
  = mkCounts
      (missingTranslations c + length (getIssuesByType issues missing_translation))
      (emptyValues c + length (getIssuesByType issues empty_value))
      (dynamicKeys c + length (getIssuesByType issues dynamic_key)).
Proof.
  unfold getIssuesByType.
  induction issues as [| i issues IH]; intros [m e d]; simpl.
  - f_equal; lia.
  - rewrite IH. rewrite !filter_cons.
    destruct (i_type i); simpl;
      repeat (destruct (decide _) as [? | ?]; try congruence); simpl; f_equal; lia.
Qed.

Lemma length_by_type issues :
  length (getIssuesByType issues missing_translation)
  + length (getIssuesByType issues empty_value)
  + length (getIssuesByType issues dynamic_key)
  + length (getIssuesByType issues hardcoded_text)
  = length issues.
Proof.
  unfold getIssuesByType.
  induction issues as [| i issues IH]; [reflexivity |].
  rewrite !filter_cons.
  destruct (i_type i); simpl;
    repeat (destruct (decide _) as [? | ?]; try congruence); simpl; lia.
Qed.

Lemma counts_by_type issues :
  countIssuesByType issues
  = mkCounts (length (getIssuesByType issues missing_translation))
             (length (getIssuesByType issues empty_value))
             (length (getIssuesByType issues dynamic_key)).
Proof. unfold countIssuesByType. now rewrite countIssues_fold. Qed.

(** X3: the three counters of [countIssuesByType] are the numbers of issues
    that [getIssuesByType] selects for the three kinds, and with the
    number of [hardcoded_text] issues they add up to the number of
    issues. *)
Theorem countIssuesByType_spec (issues : list AuditIssue) :
  missingTranslations (countIssuesByType issues)
  = length (getIssuesByType issues missing_translation) /\
  emptyValues (countIssuesByType issues)
  = length (getIssuesByType issues empty_value) /\
  dynamicKeys (countIssuesByType issues)
  = length (getIssuesByType issues dynamic_key) /\
  missingTranslations (countIssuesByType issues)
  + emptyValues (countIssuesByType issues)
  + dynamicKeys (countIssuesByType issues)
  + length (getIssuesByType issues hardcoded_text)
  = length issues.
Proof.
  rewrite counts_by_type. simpl. repeat split. apply length_by_type.
Qed.

Lemma by_type_validateKeys relative keys lookup root :
  length (getIssuesByType (validateKeys relative keys lookup root) dynamic_key)
  = length (getDynamicKeys keys) /\
  length (getIssuesByType (validateKeys relative keys lookup root) missing_translation)
  = length (filter (fun k => isDynamic k = false /\ lookup !! key k = None) keys) /\
  length (getIssuesByType (validateKeys relative keys lookup root) hardcoded_text) = 0.
Proof.
  rewrite validateKeys_flat. unfold getIssuesByType, getDynamicKeys.
  induction keys as [| k keys (IH1 & IH2 & IH3)]; [repeat split |].
  simpl. rewrite !filter_app, !length_app, IH1, IH2, IH3, !filter_cons.
  unfold validateKey. destruct (isDynamic k) eqn:Hd.
  - rewrite !filter_cons, !filter_nil. simpl.
    repeat (destruct (decide _) as [? | ?]; try (exfalso; intuition congruence));
      simpl; repeat split; lia.
  - destruct (lookup !! key k) as [e |] eqn:He.
    + destruct (isEmpty e); rewrite ?filter_cons, !filter_nil; simpl;
        repeat (destruct (decide _) as [? | ?]; try (exfalso; intuition congruence));
        simpl; repeat split; lia.
    + rewrite !filter_cons, !filter_nil. simpl.
      repeat (destruct (decide _) as [? | ?]; try (exfalso; intuition congruence));
        simpl; repeat split; lia.
Qed.

(** X4: on the issues of [validateKeys] the tally counts as many dynamic
    keys as [getDynamicKeys] selects, as many missing translations as there
    are static keys absent from the table, and its three counters add up
    to the number of issues. *)
Theorem validateKeys_tally (relative : string -> string -> string)
  (keys : list TranslationKey) (lookup : gmap string LocaleEntry) (root : string) :
  let c := countIssuesByType (validateKeys relative keys lookup root) in
  dynamicKeys c = length (getDynamicKeys keys) /\
  missingTranslations c
  = length (filter (fun k => isDynamic k = false /\ lookup !! key k = None) keys) /\
  missingTranslations c + emptyValues c + dynamicKeys c
  = length (validateKeys relative keys lookup root).
Proof.
  simpl. rewrite counts_by_type. simpl.
  destruct (by_type_validateKeys relative keys lookup root) as (Hd & Hm & Hh).
  split; [exact Hd |]. split; [exact Hm |].
  pose proof (length_by_type (validateKeys relative keys lookup root)). lia.
Qed.

End ValidationMore.

(** ** audit.ts *)

Module AuditMore.
Import JS Regex Extractor Locales Validator ValidatorFacts Hardcoded Audit Report
       ValidationMore.

Section WithHost.
Variable relative : string -> string -> string.
Variable new_RegExp : string -> option (string -> bool).
Variable toUpperCase : string -> string.
Variable rules : HardcodedTextRules.
Variable root : string.
Variable lookup : gmap string LocaleEntry.

(** The file loop of [runAudit] from empty accumulators *)
Abbreviation loop files :=
  (fold_left (processFile relative new_RegExp toUpperCase rules root lookup) files (mkAcc [] [] [])).

Lemma loop_from files : forall acc,
  fold_left (processFile relative new_RegExp toUpperCase rules root lookup) files acc
  = {| allIssues := allIssues acc ++ allIssues (loop files);
       allKeys := allKeys acc ++ allKeys (loop files);
       results := results acc ++ results (loop files) |}.
Proof.
  induction files as [| f files IH]; intros acc; simpl.
  - rewrite !app_nil_r. now destruct acc.
  - rewrite IH. rewrite (IH (processFile _ _ _ _ _ _ (mkAcc [] [] []) f)).
    unfold processFile. destruct (snd f) as [parsed |]; simpl;
      rewrite <- ?app_assoc; reflexivity.
Qed.

Lemma loop_app a b :
  loop (a ++ b)
  = {| allIssues := allIssues (loop a) ++ allIssues (loop b);
       allKeys := allKeys (loop a) ++ allKeys (loop b);
       results := results (loop a) ++ results (loop b) |}.
Proof. rewrite fold_left_app. apply loop_from. Qed.

Lemma loop_cons f files :
  loop (f :: files)
  = {| allIssues := allIssues (loop [f]) ++ allIssues (loop files);
       allKeys := allKeys (loop [f]) ++ allKeys (loop files);
       results := results (loop [f]) ++ results (loop files) |}.
Proof. apply (loop_app [f] files). Qed.

(** Every issue of the loop is informational exactly when it is a dynamic
    key. *)
Lemma loop_severity files :
  Forall (fun i => i_severity i = info <-> i_type i = dynamic_key)
         (allIssues (loop files)).
Proof.
  induction files as [| f files IH]; [constructor |].
  rewrite loop_cons. simpl. apply Forall_app. split; [| exact IH].
  unfold processFile. destruct (snd f) as [parsed |]; simpl; [| constructor].
  apply Forall_app. split.
  - rewrite List.Forall_forall. intros i Hi.
    apply validateKeys_issue_in in Hi as (k & _ & _ & _ & _ & Hs & _). exact Hs.
  - destruct (detectHardcodedStrings _ _ _ _ _ _) as [hs |]; [| constructor].
    rewrite List.Forall_forall. intros i Hi. apply in_map_iff in Hi as (h & <- & _).
    simpl. split; discriminate.
Qed.
Lemma loop_issues_flat files :
  allIssues (loop files) = flat_map (fun f => allIssues (loop [f])) files.
Proof.
  induction files as [| f files IH]; [reflexivity |].
  rewrite loop_cons. cbn [allIssues flat_map]. now rewrite IH.
Qed.

Lemma loop_issue_in files i :
  In i (allIssues (loop files)) <->
  exists f, In f files /\ In i (allIssues (loop [f])).
Proof.
  induction files as [| f files IH].
  - simpl. split; [contradiction | intros (f & [] & _)].
  - rewrite loop_cons. cbn [allIssues]. rewrite in_app_iff, IH. split.
    + intros [H | (g & Hg & H)]; [exists f | exists g]; (split; [simpl; auto | exact H]).
    + intros (g & [<- | Hg] & H); [now left | right; now exists g].
Qed.

Lemma loop_results files :
  map fr_file (results (loop files))
  = map (fun f => getRelativePath relative (fst f) root) files /\
  length (allKeys (loop files)) = sum_list_with keysFound (results (loop files)) /\
  sum_list_with issueCount (results (loop files))
  = length (allIssues (loop files)) + length (filter (fun f => snd f = None) files) /\
  Forall (fun r => fr_status r = clean <-> issueCount r = 0) (results (loop files)).
Proof.
  induction files as [| f files (IH1 & IH2 & IH3 & IH4)].
  - simpl. repeat split; constructor.
  - rewrite loop_cons. cbn [allIssues allKeys results].
    rewrite !map_app, !length_app, !sum_list_with_app, IH1, <- IH2, IH3, filter_cons.
    unfold processFile. destruct f as [path [parsed |]]; simpl.
    + destruct (decide (Some parsed = None)) as [? | _]; [discriminate |].
      repeat split; try lia.
      constructor; [| exact IH4]. simpl.
      match goal with |- context [0 <? ?n] => destruct (Nat.ltb_spec 0 n) end;
        split; intros; try congruence; lia.
    + destruct (decide (@None ParsedVueSFC = None)) as [_ | ?]; [| congruence].
      simpl. repeat split; try lia.
      constructor; [| exact IH4]. simpl. split; discriminate.
Qed.

(** A missing-translation issue exists exactly when some parsed file has a
    static key that the table does not hold. *)
Lemma loop_missing files :
  (exists i, In i (allIssues (loop files)) /\ i_type i = missing_translation) <->
  (exists path parsed k,
     In (path, Some parsed) files /\ In k (extractTranslationKeys parsed) /\
     isDynamic k = false /\ lookup !! key k = None).
Proof.
  split.
  - intros (i & Hi & Ht). apply loop_issue_in in Hi as ([path [parsed |]] & Hf & Hi);
      simpl in Hi; [| contradiction].
    exists path, parsed. apply in_app_iff in Hi as [Hi | Hi].
    + rewrite validateKeys_flat in Hi. apply in_flat_map in Hi as (k & Hk & Hi).
      exists k. split; [exact Hf |]. split; [exact Hk |].
      unfold validateKey in Hi. destruct (isDynamic k).
      * destruct Hi as [<- | []]. discriminate.
      * destruct (lookup !! key k) as [e |]; [| now split].
        destruct (isEmpty e); [| contradiction].
        destruct Hi as [<- | []]. discriminate.
    + destruct (detectHardcodedStrings _ _ _ _ _ _) as [hs |]; [| contradiction].
      apply in_map_iff in Hi as (h & <- & _). discriminate.
  - intros (path & parsed & k & Hf & Hk & Hd & Hn).
    eexists. split; [| shelve].
    apply loop_issue_in. exists (path, Some parsed). split; [exact Hf |].
    simpl. apply in_app_iff. left. rewrite validateKeys_flat.
    apply in_flat_map. exists k. split; [exact Hk |].
    unfold validateKey. rewrite Hd, Hn. left. reflexivity.
    Unshelve. reflexivity.
Qed.
End WithHost.

Lemma length_set_add s seen : length (set_add s seen) <= S (length seen).
Proof.
  unfold set_add. destruct (decide (s ∈ seen)); [lia |].
  rewrite length_app. simpl. lia.
Qed.

Lemma length_uniqueSet_fold keys : forall seen,
  length (fold_left (fun seen k => if counted k then set_add (key k) seen else seen)
                    keys seen)
  <= length seen + length keys.
Proof.
  induction keys as [| k keys IH]; intros seen; simpl; [lia |].
  etransitivity; [apply IH |].
  destruct (counted k); [| lia].
  pose proof (length_set_add (key k) seen). lia.
Qed.

Lemma length_getUniqueKeys keys : length (getUniqueKeys keys) <= length keys.
Proof.
  unfold getUniqueKeys, sort.
  rewrite (Permutation_length (merge_sort_Permutation String.le (uniqueSet keys))).
  apply (length_uniqueSet_fold keys []).
Qed.

Lemma length_filter_equiv {A} (P Q : A -> Prop)
  `{forall x, Decision (P x)} `{forall x, Decision (Q x)} (l : list A) :
  Forall (fun x => P x <-> Q x) l -> length (filter P l) = length (filter Q l).
Proof.
  induction 1 as [| x l Hx _ IH]; [reflexivity |].
  rewrite !filter_cons.
  destruct (decide (P x)), (decide (Q x)); simpl; try lia; tauto.
Qed.

Lemma status_partition (rs : list FileResult) :
  length (getFilesWithIssues rs) + length (getCleanFiles rs) = length rs.
Proof.
  unfold getFilesWithIssues, getCleanFiles.
  induction rs as [| r rs IH]; [reflexivity |].
  rewrite !filter_cons.
  destruct (decide (fr_status r = issues_found)) as [Hf | Hf];
    destruct (decide (fr_status r = clean)) as [Hs | Hs]; simpl; try lia.
  - congruence.
  - destruct (fr_status r); congruence.
Qed.

(** X5: the issues, the file results and the key count of [runAudit] on a
    list of files are those of its parts put one after the other, and the
    file results name the files in scan order by their relative paths. *)
Theorem runAudit_in_scan_order
  (relative : string -> string -> string)
  (new_RegExp : string -> option (string -> bool))
  (toUpperCase : string -> string)
  (rules : HardcodedTextRules) (root : string) (localeFiles : list LocaleFile)
  (a b : list (string * option ParsedVueSFC)) :
  let R := runAudit relative new_RegExp toUpperCase rules root localeFiles in
  issues (R (a ++ b)) = issues (R a) ++ issues (R b) /\
  fileResults (R (a ++ b)) = fileResults (R a) ++ fileResults (R b) /\
  totalKeysFound (summary (R (a ++ b)))
  = totalKeysFound (summary (R a)) + totalKeysFound (summary (R b)) /\
  map fr_file (fileResults (R (a ++ b)))
  = map (fun f => getRelativePath relative (fst f) root) (a ++ b).
Proof.
  simpl. unfold runAudit. cbn [issues fileResults summary totalKeysFound].
  rewrite loop_app. cbn [allIssues allKeys results].
  repeat split.
  - apply length_app.
  - rewrite !map_app.
    rewrite (proj1 (loop_results relative new_RegExp toUpperCase rules root
                      (createLocaleLookup (loadLocaleEntries localeFiles)) a)).
    rewrite (proj1 (loop_results relative new_RegExp toUpperCase rules root
                      (createLocaleLookup (loadLocaleEntries localeFiles)) b)).
    reflexivity.
Qed.

(** X6: in a report there is one file result per scanned file; the total
    key count is the sum of the per-file key counts; the per-file issue
    counts add up to the number of issues plus one for each file that
    could not be parsed; a file is clean exactly when its issue count
    is 0. *)
Theorem runAudit_bookkeeping
  (relative : string -> string -> string)
  (new_RegExp : string -> option (string -> bool))
  (toUpperCase : string -> string)
  (rules : HardcodedTextRules) (root : string) (localeFiles : list LocaleFile)
  (vueFiles : list (string * option ParsedVueSFC)) :
  let R := runAudit relative new_RegExp toUpperCase rules root localeFiles vueFiles in
  length (fileResults R) = filesScanned (summary R) /\
  totalKeysFound (summary R) = sum_list_with keysFound (fileResults R) /\
  sum_list_with issueCount (fileResults R)
  = length (issues R) + length (filter (fun f => snd f = None) vueFiles) /\
  getCleanFiles (fileResults R) = filter (fun r => issueCount r = 0) (fileResults R) /\
  length (getFilesWithIssues (fileResults R)) + length (getCleanFiles (fileResults R))
  = filesScanned (summary R).
Proof.
  simpl. unfold runAudit. cbn [issues fileResults summary totalKeysFound filesScanned].
  set (lookup := createLocaleLookup (loadLocaleEntries localeFiles)).
  destruct (loop_results relative new_RegExp toUpperCase rules root lookup vueFiles)
    as (Hn & Hk & Hi & Hc).
  assert (Hlen : length (results (fold_left
                   (processFile relative new_RegExp toUpperCase rules root lookup) vueFiles
                   (mkAcc [] [] []))) = length vueFiles).
  { rewrite <- (length_map fr_file), Hn. apply length_map. }
  split; [exact Hlen |]. split; [exact Hk |]. split; [exact Hi |].
  rewrite <- Hlen. clear Hlen Hn Hk Hi. split.
  - unfold getCleanFiles.
    induction Hc as [| r rs Hr _ IH]; [reflexivity |].
    rewrite !filter_cons, IH.
    destruct (decide (fr_status r = clean)) as [Hs | Hs];
      destruct (decide (issueCount r = 0)) as [Hz | Hz]; tauto.
  - apply status_partition.
Qed.

(** X7: a file that [parseVueSFC] cannot read adds one file result, with
    status [issues_found] and an issue count of 1, and changes nothing
    else: the issues and every figure of the summary but the number of
    files scanned are those of the run without it. *)
Theorem runAudit_unreadable_file
  (relative : string -> string -> string)
  (new_RegExp : string -> option (string -> bool))
  (toUpperCase : string -> string)
  (rules : HardcodedTextRules) (root : string) (localeFiles : list LocaleFile)
  (a b : list (string * option ParsedVueSFC)) (path : string) :
  let R := runAudit relative new_RegExp toUpperCase rules root localeFiles in
  issues (R (a ++ (path, None) :: b)) = issues (R (a ++ b)) /\
  fileResults (R (a ++ (path, None) :: b))
  = fileResults (R a)
    ++ {| fr_file := getRelativePath relative path root; fr_status := issues_found;
          keysFound := 0; issueCount := 1 |}
    :: fileResults (R b) /\
  summary (R (a ++ (path, None) :: b))
  = {| filesScanned := S (filesScanned (summary (R (a ++ b))));
       totalKeysFound := totalKeysFound (summary (R (a ++ b)));
       uniqueKeysFound := uniqueKeysFound (summary (R (a ++ b)));
       s_missingTranslations := s_missingTranslations (summary (R (a ++ b)));
       hardcodedStrings := hardcodedStrings (summary (R (a ++ b)));
       s_emptyValues := s_emptyValues (summary (R (a ++ b)));
       s_dynamicKeys := s_dynamicKeys (summary (R (a ++ b)));
       coveragePercentage := coveragePercentage (summary (R (a ++ b))) |}.
Proof.
  simpl. unfold runAudit.
  cbn [issues fileResults summary filesScanned totalKeysFound uniqueKeysFound
       s_missingTranslations hardcodedStrings s_emptyValues s_dynamicKeys
       coveragePercentage].
  rewrite !loop_app, (loop_cons _ _ _ _ _ _ (path, None) b).
  cbn [allIssues allKeys results]. simpl.
  split; [reflexivity |]. split; [reflexivity |].
  f_equal. rewrite !length_app. simpl. lia.
Qed.

(** X8: in a report the four counters of the summary add up to the number
    of issues, there are no more unique keys than keys, and the issues
    that are not informational, which decide the exit code of the audit
    command, are the missing translations, the empty values and the
    hardcoded strings: dynamic keys never count. *)
Theorem runAudit_summary_totals
  (relative : string -> string -> string)
  (new_RegExp : string -> option (string -> bool))
  (toUpperCase : string -> string)
  (rules : HardcodedTextRules) (root : string) (localeFiles : list LocaleFile)
  (vueFiles : list (string * option ParsedVueSFC)) :
  let R := runAudit relative new_RegExp toUpperCase rules root localeFiles vueFiles in
  s_missingTranslations (summary R) + s_emptyValues (summary R)
  + s_dynamicKeys (summary R) + hardcodedStrings (summary R)
  = length (issues R) /\
  uniqueKeysFound (summary R) <= totalKeysFound (summary R) /\
  countActionableIssues R
  = s_missingTranslations (summary R) + s_emptyValues (summary R)
    + hardcodedStrings (summary R).
Proof.
  simpl. unfold runAudit, countActionableIssues.
  cbn [issues summary totalKeysFound uniqueKeysFound
       s_missingTranslations hardcodedStrings s_emptyValues s_dynamicKeys].
  set (acc := fold_left _ vueFiles _).
  rewrite counts_by_type. cbn [missingTranslations emptyValues dynamicKeys].
  pose proof (length_by_type (allIssues acc)) as Hsum.
  unfold getIssuesByType in *.
  split; [lia |]. split; [apply length_getUniqueKeys |].
  assert (Hsev : length (filter (fun i => i_severity i <> info) (allIssues acc))
                 = length (filter (fun i => i_type i <> dynamic_key) (allIssues acc))).
  { apply length_filter_equiv.
    eapply Forall_impl; [apply loop_severity |]. simpl. intros i Hi. tauto. }
  rewrite Hsev.
  pose proof (filter_app_complement (fun i => i_type i = dynamic_key) (allIssues acc))
    as Hperm.
  apply Permutation_length in Hperm. rewrite length_app in Hperm. lia.
Qed.

End AuditMore.

(** ** index.ts *)

Module CliFacts.
Import JS Regex Extractor Locales Validator Hardcoded Audit Report Cli
       ValidationMore AuditMore.

Lemma length_filter_pos {A} (P : A -> Prop) `{forall x, Decision (P x)} (l : list A) :
  0 < length (filter P l) <-> exists x, In x l /\ P x.
Proof.
  induction l as [| x l IH]; simpl.
  - split; [lia | intros (x & [] & _)].
  - rewrite filter_cons. destruct (decide (P x)) as [Hx | Hx]; simpl.
    + split; [intros _; exists x; auto | lia].
    + rewrite IH. split.
      * intros (y & Hy & Hp). exists y. auto.
      * intros (y & [<- | Hy] & Hp); [contradiction | now exists y].
Qed.

(** X9: with its default options the check command exits with 1 exactly
    when some file that could be parsed uses a static key that the catalog
    does not hold, and with 0 otherwise; hardcoded strings, empty values
    and dynamic keys do not make it fail. *)
Theorem check_fails_on_missing_key
  (relative : string -> string -> string)
  (new_RegExp : string -> option (string -> bool))
  (toUpperCase : string -> string)
  (rules : HardcodedTextRules) (root : string) (localeFiles : list LocaleFile)
  (vueFiles : list (string * option ParsedVueSFC)) :
  let R := runAudit relative new_RegExp toUpperCase rules root localeFiles vueFiles in
  (checkExit defaultCheckOptions R = EXIT_ISSUES_FOUND <->
   exists path parsed k,
     In (path, Some parsed) vueFiles /\ In k (extractTranslationKeys parsed) /\
     isDynamic k = false /\
     createLocaleLookup (loadLocaleEntries localeFiles) !! key k = None) /\
  (checkExit defaultCheckOptions R = EXIT_ISSUES_FOUND \/
   checkExit defaultCheckOptions R = EXIT_SUCCESS).
Proof.
  simpl. unfold checkExit. simpl.
  change (digitsValue ["0"%char]) with 0%Z.
  rewrite Nat.add_0_r. rewrite counts_by_type. cbn [missingTranslations].
  rewrite <- (loop_missing relative new_RegExp toUpperCase rules root
                (createLocaleLookup (loadLocaleEntries localeFiles)) vueFiles).
  unfold getIssuesByType.
  match goal with |- context [(0 <? ?n)%Z] => destruct (Z.ltb_spec 0 n) as [E | E] end.
  - split; [| now left]. split; [intros _ | reflexivity].
    apply (length_filter_pos (fun i => i_type i = missing_translation)). lia.
  - split; [| now right]. split; [discriminate |].
    intros Hex.
    apply (length_filter_pos (fun i => i_type i = missing_translation)) in Hex. lia.
Qed.

Lemma digit_not_space c :
  is_digit c = true -> code c < 128 /\ is_space c = false.
Proof.
  destruct c as [[] [] [] [] [] [] [] []]; vm_compute; intros H;
    try discriminate H; split; try reflexivity; lia.
Qed.

Lemma digit_not_sign c :
  is_digit c = true -> Ascii.eqb c "-" = false /\ Ascii.eqb c "+" = false.
Proof. destruct c as [[] [] [] [] [] [] [] []]; vm_compute; intuition congruence. Qed.

Lemma leadingDigits_all ds :
  Forall (fun c => is_digit c = true) ds -> leadingDigits ds = ds.
Proof.
  induction 1 as [| c ds Hc _ IH]; [reflexivity |]. simpl. now rewrite Hc, IH.
Qed.

(** [parseInt] of a decimal numeral *)
Lemma parseInt_digits ds :
  ds <> [] -> Forall (fun c => is_digit c = true) ds ->
  parseInt (str ds) = Some (digitsValue ds).
Proof.
  intros Hne Hall. unfold parseInt. rewrite JSFacts.chars_str.
  destruct ds as [| c ds]; [congruence |].
  pose proof (leadingDigits_all _ Hall) as Hl.
  apply Forall_cons in Hall as [Hc Hall].
  destruct (digit_not_space c Hc) as [Ha Hs].
  rewrite TrimFacts.trimStart_keep by now apply TrimFacts.space_len_ascii.
  destruct (digit_not_sign c Hc) as [-> ->]. now rewrite Hl.
Qed.

(** [parseInt] of a text that does not start like a number *)
Lemma parseInt_NaN c rest :
  code c < 128 -> is_space c = false -> is_digit c = false ->
  c <> "-"%char -> c <> "+"%char ->
  parseInt (String c rest) = None.
Proof.
  intros Ha Hs Hd Hm Hp. unfold parseInt. cbn [chars list_ascii_of_string].
  rewrite TrimFacts.trimStart_keep by now apply TrimFacts.space_len_ascii.
  apply Ascii.eqb_neq in Hm, Hp. rewrite Hm, Hp.
  cbn [leadingDigits]. now rewrite Hd.
Qed.

(** X10: when the threshold of the check command is a decimal numeral, the
    command exits with 1 exactly when the counted issues (missing
    translations unless switched off, plus hardcoded strings when switched
    on) exceed it, and with 0 otherwise; when the threshold is empty or
    starts with an ASCII character that is no white space, sign or digit,
    it is not a number and the command exits with 0 whatever the report
    holds. *)
Theorem check_threshold (options : CheckOptions) (report : AuditReport) :
  let issueCount :=
    (if failOnMissing options then s_missingTranslations (summary report) else 0)
    + (if failOnHardcoded options then hardcodedStrings (summary report) else 0) in
  (forall ds,
     ds <> [] -> Forall (fun c => is_digit c = true) ds ->
     threshold options = str ds ->
     (checkExit options report = EXIT_ISSUES_FOUND
      <-> (digitsValue ds < Z.of_nat issueCount)%Z) /\
     (checkExit options report = EXIT_SUCCESS
      <-> (Z.of_nat issueCount <= digitsValue ds)%Z)) /\
  (threshold options = "" -> checkExit options report = EXIT_SUCCESS) /\
  (forall c rest,
     threshold options = String c rest ->
     code c < 128 -> is_space c = false -> is_digit c = false ->
     c <> "-"%char -> c <> "+"%char ->
     checkExit options report = EXIT_SUCCESS).
Proof.
  cbn zeta. split; [| split].
  - intros ds Hne Hall Ht. unfold checkExit. rewrite Ht, (parseInt_digits ds Hne Hall).
    match goal with |- context [(?a <? ?b)%Z] => destruct (Z.ltb_spec a b) end;
      unfold EXIT_ISSUES_FOUND, EXIT_SUCCESS; split; split; intros; try lia;
      try discriminate; reflexivity.
  - intros Ht. unfold checkExit. rewrite Ht. reflexivity.
  - intros c rest Ht Ha Hs Hd Hm Hp. unfold checkExit.
    now rewrite Ht, (parseInt_NaN c rest Ha Hs Hd Hm Hp).
Qed.

Lemma check_threshold_witness :
  ["1"%char; "0"%char] <> [] /\
  Forall (fun c => is_digit c = true) ["1"%char; "0"%char] /\
  threshold Samples.check_ten = str ["1"%char; "0"%char] /\
  checkExit Samples.check_ten Samples.report_twice = EXIT_SUCCESS /\
  threshold Samples.check_text = String "t" "en" /\
  code "t" < 128 /\ is_space "t" = false /\ is_digit "t" = false /\
  "t"%char <> "-"%char /\ "t"%char <> "+"%char /\
  checkExit Samples.check_text Samples.report_twice = EXIT_SUCCESS.
Proof.
  assert (Hne : ["1"%char; "0"%char] <> []) by discriminate.
  assert (Hall : Forall (fun c => is_digit c = true) ["1"%char; "0"%char])
    by (repeat constructor).
  assert (Hm : "t"%char <> "-"%char) by discriminate.
  assert (Hp : "t"%char <> "+"%char) by discriminate.
  assert (Hc : code "t" < 128) by (vm_compute; lia).
  pose proof (check_threshold Samples.check_ten Samples.report_twice) as [Hnum _].
  pose proof (check_threshold Samples.check_text Samples.report_twice) as [_ [_ Hnan]].
  split; [exact Hne |]. split; [exact Hall |]. split; [reflexivity |].
  split.
  - apply (proj2 (proj2 (Hnum _ Hne Hall eq_refl))). vm_compute. discriminate.
  - split; [reflexivity |]. split; [exact Hc |].
    split; [reflexivity |]. split; [reflexivity |].
    split; [exact Hm |]. split; [exact Hp |].
    exact (Hnan "t"%char "en" eq_refl Hc eq_refl eq_refl Hm Hp).
Defined.

(** X26: once the report is written, the audit command exits with 1
    exactly when the report holds an
    issue that is no dynamic key (a missing translation, an empty value or
    a hardcoded string), and with 0 exactly when every issue is a dynamic
    key; files that could not be parsed do not change its exit code. *)
Theorem audit_exit_code
  (relative : string -> string -> string)
  (new_RegExp : string -> option (string -> bool))
  (toUpperCase : string -> string)
  (rules : HardcodedTextRules) (root : string) (localeFiles : list LocaleFile)
  (vueFiles : list (string * option ParsedVueSFC)) :
  let R := runAudit relative new_RegExp toUpperCase rules root localeFiles vueFiles in
  (auditExit R = EXIT_ISSUES_FOUND <->
   exists i, In i (issues R) /\ i_type i <> dynamic_key) /\
  (auditExit R = EXIT_SUCCESS <->
   Forall (fun i => i_type i = dynamic_key) (issues R)) /\
  auditExit R
  = auditExit (runAudit relative new_RegExp toUpperCase rules root localeFiles
                        (filter (fun f => snd f <> None) vueFiles)).
Proof.
  cbn zeta.
  assert (Hsev : forall files,
             Forall (fun i => i_severity i = info <-> i_type i = dynamic_key)
                    (issues (runAudit relative new_RegExp toUpperCase rules root localeFiles files)))
    by (intros files; apply loop_severity).
  assert (Hex : forall files,
             auditExit (runAudit relative new_RegExp toUpperCase rules root localeFiles files)
             = EXIT_ISSUES_FOUND <->
             exists i, In i (issues (runAudit relative new_RegExp toUpperCase rules root
                                              localeFiles files))
                       /\ i_type i <> dynamic_key).
  { intros files. specialize (Hsev files). rewrite List.Forall_forall in Hsev.
    unfold auditExit, countActionableIssues.
    match goal with |- context [0 <? ?n] => destruct (Nat.ltb_spec 0 n) as [Hn | Hn] end.
    - apply length_filter_pos in Hn as (i & Hi & Hs).
      split; [| reflexivity]. intros _. exists i. split; [exact Hi |].
      intros Ht. apply Hs. now apply Hsev.
    - split; [discriminate |]. intros (i & Hi & Ht). exfalso.
      assert (Hpos : 0 < length (filter (fun i => i_severity i <> info)
                                        (issues (runAudit relative new_RegExp toUpperCase rules root
                                                          localeFiles files)))).
      { apply length_filter_pos. exists i. split; [exact Hi |].
        intros Hs. apply Ht. now apply Hsev. }
      lia. }
  assert (Hcases : forall files,
             auditExit (runAudit relative new_RegExp toUpperCase rules root localeFiles files)
             = EXIT_ISSUES_FOUND \/
             auditExit (runAudit relative new_RegExp toUpperCase rules root localeFiles files)
             = EXIT_SUCCESS).
  { intros files. unfold auditExit. destruct (0 <? _); auto. }
  assert (Hissues : issues (runAudit relative new_RegExp toUpperCase rules root localeFiles vueFiles)
                    = issues (runAudit relative new_RegExp toUpperCase rules root localeFiles
                                       (filter (fun f => snd f <> None) vueFiles))).
  { unfold runAudit. cbn [issues].
    rewrite !(loop_issues_flat relative new_RegExp toUpperCase rules root).
    induction vueFiles as [| f files IH]; [reflexivity |].
    rewrite filter_cons. destruct f as [path [parsed |]]; cbn [snd].
    - destruct (decide (Some parsed <> None)) as [_ | Hn];
        [| exfalso; apply Hn; discriminate].
      cbn [flat_map]. now rewrite IH.
    - destruct (decide (@None ParsedVueSFC <> None)) as [Hn | _];
        [exfalso; now apply Hn |].
      cbn [flat_map]. rewrite <- IH. reflexivity. }
  split; [apply Hex |]. split.
  - rewrite List.Forall_forall. split.
    + intros Hs i Hi. destruct (decide (i_type i = dynamic_key)) as [Ht | Ht];
        [exact Ht |].
      assert (Hf : auditExit (runAudit relative new_RegExp toUpperCase rules root localeFiles vueFiles)
                   = EXIT_ISSUES_FOUND) by (apply Hex; now exists i).
      rewrite Hs in Hf. discriminate.
    + intros Hall. destruct (Hcases vueFiles) as [Hf | Hs]; [| exact Hs].
      apply Hex in Hf as (i & Hi & Ht). exfalso. apply Ht. now apply Hall.
  - destruct (Hcases vueFiles) as [Hf | Hs].
    + rewrite Hf. symmetry. apply Hex. apply Hex in Hf as (i & Hi & Ht).
      exists i. split; [now rewrite <- Hissues | exact Ht].
    + rewrite Hs.
      destruct (Hcases (filter (fun f => snd f <> None) vueFiles)) as [Hf' | Hs'];
        [| now rewrite Hs'].
      apply Hex in Hf' as (i & Hi & Ht). rewrite <- Hissues in Hi.
      assert (Hf : auditExit (runAudit relative new_RegExp toUpperCase rules root localeFiles vueFiles)
                   = EXIT_ISSUES_FOUND) by (apply Hex; now exists i).
      rewrite Hs in Hf. discriminate.
Qed.

End CliFacts.

(** ** locales.ts *)

Module LocalesMore.
Import JS JSFacts Locales LocalesFacts Validator ValidatorFacts ValidationMore.

Lemma filter_key_In (entries : list LocaleEntry) k e :
  In e (filter (fun e => e_key e = k) entries) <-> In e entries /\ e_key e = k.
Proof. rewrite <- !list_elem_of_In, list_elem_of_filter. tauto. Qed.

Lemma createLocaleLookup_size entries :
  size (createLocaleLookup entries) <= length entries.
Proof.
  induction entries as [| x entries IH] using rev_ind.
  - unfold createLocaleLookup. simpl. now rewrite map_size_empty.
  - rewrite createLocaleLookup_snoc, length_app. simpl.
    rewrite map_size_insert.
    destruct (createLocaleLookup entries !! e_key x); simpl; lia.
Qed.

(** X11: a lookup table built by [createLocaleLookup] holds under a key
    only an entry of the list that has this key; it holds nothing under a
    key exactly when no entry has it; when no two entries share a key each
    entry is found under its key; the table has no more keys than there
    are entries. *)
Theorem createLocaleLookup_spec (entries : list LocaleEntry) :
  (forall k e, createLocaleLookup entries !! k = Some e ->
               In e entries /\ e_key e = k) /\
  (forall k, createLocaleLookup entries !! k = None <->
             forall e, In e entries -> e_key e <> k) /\
  (NoDup (map e_key entries) ->
   forall e, In e entries -> createLocaleLookup entries !! e_key e = Some e) /\
  size (createLocaleLookup entries) <= length entries.
Proof.
  split; [| split; [| split]].
  - intros k e H. rewrite createLocaleLookup_last in H.
    apply last_Some_elem_of, list_elem_of_In, filter_key_In in H. exact H.
  - intros k. rewrite createLocaleLookup_last, last_None. split.
    + intros H e He Hk.
      assert (Hin : In e (filter (fun e => e_key e = k) entries))
        by (apply filter_key_In; now split).
      rewrite H in Hin. contradiction.
    + intros H. destruct (filter _ entries) as [| e rest] eqn:E; [reflexivity |].
      assert (Hin : In e (filter (fun e => e_key e = k) entries))
        by (rewrite E; now left).
      apply filter_key_In in Hin as [He Hk]. now apply H in He.
  - intros Hnd e He. rewrite createLocaleLookup_last.
    induction entries as [| x entries IH]; [contradiction |].
    simpl in Hnd. apply NoDup_cons in Hnd as [Hx Hnd].
    rewrite filter_cons. destruct He as [-> | He].
    + destruct (decide (e_key e = e_key e)) as [_ | ?]; [| congruence].
      assert (Hnone : filter (fun e0 => e_key e0 = e_key e) entries = []).
      { destruct (filter _ entries) as [| y rest] eqn:E; [reflexivity |].
        assert (Hin : In y (filter (fun e0 => e_key e0 = e_key e) entries))
          by (rewrite E; now left).
        apply filter_key_In in Hin as [Hy Hk]. exfalso. apply Hx.
        rewrite <- Hk. apply list_elem_of_In, in_map, Hy. }
      now rewrite Hnone.
    + destruct (decide (e_key x = e_key e)) as [Hk | Hk].
      * exfalso. apply Hx. rewrite Hk. apply list_elem_of_In, in_map, He.
      * now apply IH.
  - apply createLocaleLookup_size.
Qed.

Lemma createLocaleLookup_spec_witness :
  NoDup (map e_key [Examples.entry_first; Examples.entry_other]) /\
  In Examples.entry_other [Examples.entry_first; Examples.entry_other] /\
  createLocaleLookup [Examples.entry_first; Examples.entry_other]
    !! e_key Examples.entry_other
  = Some Examples.entry_other.
Proof.
  assert (Hn : NoDup (map e_key [Examples.entry_first; Examples.entry_other])).
  { apply NoDup_cons_2; [| apply NoDup_singleton].
    intros H. apply list_elem_of_singleton in H. discriminate H. }
  assert (Hin : In Examples.entry_other [Examples.entry_first; Examples.entry_other])
    by (right; left; reflexivity).
  split; [exact Hn |]. split; [exact Hin |].
  exact (proj1 (proj2 (proj2 (createLocaleLookup_spec
                                [Examples.entry_first; Examples.entry_other])))
           Hn Examples.entry_other Hin).
Defined.

Lemma fullKeyOf_prefix pre k : pre <> "" -> exists rest, fullKeyOf pre k = pre +:+ "." +:+ rest.
Proof. intros H. exists k. now apply fullKeyOf_dot. Qed.

Lemma flattenValue_prefix file v : forall pre fullKey e,
  pre <> "" ->
  (exists rest, fullKey = pre +:+ "." +:+ rest) ->
  In e (flattenValue file fullKey v) ->
  e_file e = file /\ exists rest, e_key e = pre +:+ "." +:+ rest.
Proof.
  induction v as [| b | n | s | items | fields IH] using value_fields_ind;
    intros pre fullKey e Hpre Hfull He; try contradiction.
  - destruct He as [<- | []]. simpl. now split.
  - rewrite flattenValue_obj in He. unfold flattenObject in He.
    apply in_flat_map in He as ([k v] & Hkv & He).
    rewrite List.Forall_forall in IH.
    apply (IH (k, v) Hkv pre (fullKeyOf fullKey k) e Hpre); [| exact He].
    destruct Hfull as (rest & ->).
    rewrite fullKeyOf_dot by now apply sapp_nonempty.
    exists (rest +:+ "." +:+ k). now rewrite !sapp_assoc.
Qed.

(** X12: [loadLocaleEntries] puts the entries of the files one after the
    other in directory order; the index file and a file that cannot be
    parsed give nothing and do not disturb the others; every entry
    carries the path of its file and, when the namespace of the file is
    not empty, a key that starts with the namespace and a dot. *)
Theorem loadLocaleEntries_per_file :
  (forall a b, loadLocaleEntries (a ++ b) = loadLocaleEntries a ++ loadLocaleEntries b) /\
  (forall a f b,
     lf_namespace f = "index" \/ lf_parsed f = None ->
     loadLocaleEntries (a ++ f :: b) = loadLocaleEntries (a ++ b)) /\
  (forall files e,
     In e (loadLocaleEntries files) ->
     exists f, In f files /\ lf_namespace f <> "index" /\
       e_file e = lf_path f /\
       (lf_namespace f <> "" ->
        exists rest, e_key e = lf_namespace f +:+ "." +:+ rest)).
Proof.
  split; [| split].
  - intros a b. unfold loadLocaleEntries. apply flat_map_app.
  - intros a f b Hf. unfold loadLocaleEntries.
    rewrite !flat_map_app. simpl. f_equal.
    destruct Hf as [-> | ->]; [reflexivity |].
    now destruct (String.eqb (lf_namespace f) "index").
  - intros files e He. unfold loadLocaleEntries in He.
    apply in_flat_map in He as (f & Hf & He).
    exists f. split; [exact Hf |].
    destruct (String.eqb_spec (lf_namespace f) "index") as [| Hidx]; [contradiction |].
    split; [exact Hidx |].
    destruct (lf_parsed f) as [obj |]; [| contradiction].
    unfold flattenObject in He. apply in_flat_map in He as ([k v] & _ & He).
    destruct (String.eqb_spec (lf_namespace f) "") as [Hns | Hns].
    + split; [| congruence]. clear Hns.
      revert He. generalize (fullKeyOf (lf_namespace f) k).
      induction v as [| b | n | s | items | fields IH] using value_fields_ind;
        intros fullKey He; try contradiction.
      * destruct He as [<- | []]. reflexivity.
      * rewrite flattenValue_obj in He. unfold flattenObject in He.
        apply in_flat_map in He as ([k' v'] & Hkv & He).
        rewrite List.Forall_forall in IH. exact (IH _ Hkv _ He).
    + destruct (flattenValue_prefix _ _ (lf_namespace f) _ e Hns
                  (fullKeyOf_prefix _ k Hns) He) as [Hfile Hkey].
      split; [exact Hfile | intros _; exact Hkey].
Qed.

Lemma loadLocaleEntries_per_file_witness :
  (lf_namespace Samples.locale_index = "index" \/
   lf_parsed Samples.locale_index = None) /\
  loadLocaleEntries ([Examples.locale_common] ++ Samples.locale_index :: [])
  = loadLocaleEntries ([Examples.locale_common] ++ []).
Proof.
  assert (H : lf_namespace Samples.locale_index = "index" \/
              lf_parsed Samples.locale_index = None) by (left; reflexivity).
  split; [exact H |].
  exact (proj1 (proj2 loadLocaleEntries_per_file)
           [Examples.locale_common] Samples.locale_index [] H).
Defined.

Section WithHost.
Variable relative : string -> string -> string.

Lemma findEmpty_fold entries root : forall acc,
  fold_left (fun (issues : list AuditIssue) entry =>
               if isEmpty entry then
                 issues ++
                 [{| i_type := empty_value; i_severity := warning;
                     i_file := getRelativePath relative (e_file entry) root;
                     i_line := 0;
                     i_key := Some (e_key entry);
                     i_text := None;
                     i_message := "Translation key '" +:+ e_key entry
                                  +:+ "' has an empty value in locale file" |}]
               else issues) entries acc
  = acc ++ findEmptyLocaleValues relative entries root.
Proof.
  unfold findEmptyLocaleValues.
  induction entries as [| x entries IH]; intros acc; simpl.
  - now rewrite app_nil_r.
  - rewrite IH. rewrite (IH (if isEmpty x then _ else _)).
    destruct (isEmpty x); simpl; [now rewrite <- app_assoc | reflexivity].
Qed.

Lemma findEmpty_cons x entries root :
  findEmptyLocaleValues relative (x :: entries) root
  = (if isEmpty x then
       [{| i_type := empty_value; i_severity := warning;
           i_file := getRelativePath relative (e_file x) root;
           i_line := 0;
           i_key := Some (e_key x);
           i_text := None;
           i_message := "Translation key '" +:+ e_key x
                        +:+ "' has an empty value in locale file" |}]
     else [])
    ++ findEmptyLocaleValues relative entries root.
Proof.
  unfold findEmptyLocaleValues at 1. simpl. rewrite findEmpty_fold.
  now destruct (isEmpty x).
Qed.

Lemma findEmpty_keys entries root :
  map i_key (findEmptyLocaleValues relative entries root)
  = map (fun e => Some (e_key e)) (filter (fun e => isEmpty e = true) entries) /\
  Forall (fun i => i_type i = empty_value /\ i_severity i = warning /\ i_line i = 0)
         (findEmptyLocaleValues relative entries root).
Proof.
  induction entries as [| x entries [IH1 IH2]]; [split; [reflexivity | constructor] |].
  rewrite findEmpty_cons, map_app, IH1, filter_cons.
  destruct (isEmpty x) eqn:E; simpl.
  - split; [reflexivity |]. constructor; [now repeat split | exact IH2].
  - split; [reflexivity | exact IH2].
Qed.
End WithHost.

(** X13: [findEmptyLocaleValues] reports the keys of the entries whose
    empty flag is set, in order, each as an [empty_value] warning at line
    0; and whenever [validateKeys], run with the lookup table of the same
    entries, reports an empty value for a key, so does
    [findEmptyLocaleValues]. *)
Theorem findEmptyLocaleValues_spec (relative : string -> string -> string)
  (entries : list LocaleEntry) (root : string) :
  map i_key (findEmptyLocaleValues relative entries root)
  = map (fun e => Some (e_key e)) (filter (fun e => isEmpty e = true) entries) /\
  Forall (fun i => i_type i = empty_value /\ i_severity i = warning /\ i_line i = 0)
         (findEmptyLocaleValues relative entries root) /\
  (forall keys i,
     In i (validateKeys relative keys (createLocaleLookup entries) root) ->
     i_type i = empty_value ->
     In (i_key i) (map i_key (findEmptyLocaleValues relative entries root))).
Proof.
  destruct (findEmpty_keys relative entries root) as [Hk Hf].
  split; [exact Hk |]. split; [exact Hf |].
  intros keys i Hi Ht. rewrite Hk.
  rewrite validateKeys_flat in Hi. apply in_flat_map in Hi as (k & _ & Hi).
  unfold validateKey in Hi. destruct (isDynamic k).
  - destruct Hi as [<- | []]. discriminate.
  - destruct (createLocaleLookup entries !! key k) as [e |] eqn:E.
    + destruct (isEmpty e) eqn:He; [| contradiction].
      destruct Hi as [<- | []]. simpl.
      rewrite createLocaleLookup_last in E.
      apply last_Some_elem_of, list_elem_of_In, filter_key_In in E as [Hin Hkey].
      apply in_map_iff. exists e. split; [now rewrite Hkey |].
      apply list_elem_of_In, list_elem_of_filter. split; [exact He |].
      now apply list_elem_of_In.
    + destruct Hi as [<- | []]. discriminate.
Qed.

Lemma findEmptyLocaleValues_spec_witness :
  In Samples.issue_title
     (validateKeys Examples.relative0 [Examples.key_title]
                   (createLocaleLookup [Examples.entry_title]) "/app") /\
  i_type Samples.issue_title = empty_value /\
  In (i_key Samples.issue_title)
     (map i_key (findEmptyLocaleValues Examples.relative0 [Examples.entry_title] "/app")).
Proof.
  assert (Hin : In Samples.issue_title
                   (validateKeys Examples.relative0 [Examples.key_title]
                                 (createLocaleLookup [Examples.entry_title]) "/app"))
    by (vm_compute; auto).
  split; [exact Hin |]. split; [reflexivity |].
  exact (proj2 (proj2 (findEmptyLocaleValues_spec Examples.relative0
                         [Examples.entry_title] "/app"))
           [Examples.key_title] Samples.issue_title Hin eq_refl).
Defined.

End LocalesMore.

(** ** extractor.ts *)

Module ExtractorMore.
Import JS JSFacts Regex RegexFacts RegexAnalysis Extractor ExtractorFacts UniqueFacts
       Markup.

(** *** Static and dynamic keys *)

Lemma extracted_counted parsed k :
  In k (extractTranslationKeys parsed) ->
  (counted k = true <-> isDynamic k = false).
Proof.
  intros Hin. rewrite counted_spec.
  apply extractTranslationKeys_from_line in Hin as (text & ln & _ & _ & Hk).
  destruct Hk as [(Hd & Hkey & _) | (Hd & _)]; split; try tauto; congruence.
Qed.

Lemma filter_equiv {A} (P Q : A -> Prop)
  `{forall x, Decision (P x)} `{forall x, Decision (Q x)} (l : list A) :
  (forall x, In x l -> (P x <-> Q x)) -> filter P l = filter Q l.
Proof.
  induction l as [| x l IH]; intros Hpq; [reflexivity |].
  rewrite !filter_cons, IH by (intros y Hy; apply Hpq; now right).
  pose proof (Hpq x (or_introl eq_refl)).
  destruct (decide (P x)), (decide (Q x)); tauto.
Qed.

(** X14: among the records of [extractTranslationKeys] the static keys of
    [getStaticKeys] are exactly the records that are not dynamic, so every
    record is either in [getDynamicKeys] or in [getStaticKeys] and none is
    dropped. *)
Theorem extracted_keys_partition (parsed : ParsedVueSFC) :
  let keys := extractTranslationKeys parsed in
  getStaticKeys keys = filter (fun k => isDynamic k = false) keys /\
  length (getDynamicKeys keys) + length (getStaticKeys keys) = length keys /\
  getDynamicKeys keys ++ getStaticKeys keys ≡ₚ keys.
Proof.
  simpl. set (keys := extractTranslationKeys parsed).
  assert (Hs : getStaticKeys keys = filter (fun k => isDynamic k = false) keys).
  { unfold getStaticKeys. apply filter_equiv. intros k Hk.
    now apply extracted_counted in Hk. }
  assert (Hp : getDynamicKeys keys ++ getStaticKeys keys ≡ₚ keys).
  { rewrite Hs. unfold getDynamicKeys.
    rewrite <- (filter_app_complement (fun k => isDynamic k = true) keys) at 3.
    apply Permutation_app_head. apply reflexive_eq. apply filter_equiv.
    intros k _. destruct (isDynamic k); split; congruence. }
  split; [exact Hs |]. split; [| exact Hp].
  rewrite <- length_app. now apply Permutation_length.
Qed.

(** *** Unique keys *)

Lemma getUniqueKeys_sorted keys :
  StronglySorted String.le (getUniqueKeys keys) /\
  NoDup (getUniqueKeys keys) /\
  forall s, s ∈ getUniqueKeys keys <->
            exists k, In k keys /\ counted k = true /\ key k = s.
Proof.
  unfold getUniqueKeys, sort.
  destruct (uniqueSet_fold keys [] (NoDup_nil_2 (A:=string))) as [Hnd Hmem].
  fold (uniqueSet keys) in Hnd, Hmem.
  pose proof (merge_sort_Permutation String.le (uniqueSet keys)) as Hperm.
  split; [apply StronglySorted_merge_sort; apply _ |].
  split; [now rewrite Hperm |].
  intros s. rewrite Hperm, Hmem. split.
  - intros [H | H]; [now apply elem_of_nil in H | exact H].
  - intros H. now right.
Qed.

(** The result depends only on which static keys occur. *)
Lemma getUniqueKeys_ext keys keys' :
  (forall s, (exists k, In k keys /\ counted k = true /\ key k = s) <->
             (exists k, In k keys' /\ counted k = true /\ key k = s)) ->
  getUniqueKeys keys = getUniqueKeys keys'.
Proof.
  intros H.
  destruct (getUniqueKeys_sorted keys) as (S1 & N1 & M1).
  destruct (getUniqueKeys_sorted keys') as (S2 & N2 & M2).
  apply (StronglySorted_unique String.le); [exact S1 | exact S2 |].
  apply NoDup_Permutation; [exact N1 | exact N2 |].
  intros s. now rewrite M1, M2.
Qed.

(** X15: [getUniqueKeys] does not depend on the order of the call sites
    nor on how often a key is used, and only its static keys matter:
    permuting or doubling the input, or keeping only the static keys,
    gives the same list. *)
Theorem getUniqueKeys_invariant :
  (forall keys keys', keys ≡ₚ keys' -> getUniqueKeys keys = getUniqueKeys keys') /\
  (forall keys, getUniqueKeys (keys ++ keys) = getUniqueKeys keys) /\
  (forall keys, getUniqueKeys (getStaticKeys keys) = getUniqueKeys keys) /\
  (forall keys, length (getUniqueKeys keys) <= length (getStaticKeys keys)).
Proof.
  split; [| split; [| split]].
  - intros keys keys' Hp. apply getUniqueKeys_ext. intros s.
    split; intros (k & Hk & Hc); exists k; (split; [| exact Hc]).
    + apply list_elem_of_In. rewrite <- Hp. now apply list_elem_of_In.
    + apply list_elem_of_In. rewrite Hp. now apply list_elem_of_In.
  - intros keys. apply getUniqueKeys_ext. intros s.
    split; intros (k & Hk & Hc); exists k; (split; [| exact Hc]).
    + apply in_app_iff in Hk. tauto.
    + apply in_app_iff. now left.
  - intros keys. apply getUniqueKeys_ext. intros s. unfold getStaticKeys.
    split; intros (k & Hk & Hc & Hs); exists k.
    + apply list_elem_of_In, list_elem_of_filter in Hk as [_ Hk].
      split; [now apply list_elem_of_In | now split].
    + split; [| now split].
      apply list_elem_of_In, list_elem_of_filter. split; [exact Hc |].
      now apply list_elem_of_In.
  - intros keys. unfold getUniqueKeys, sort.
    rewrite (Permutation_length (merge_sort_Permutation String.le (uniqueSet keys))).
    unfold uniqueSet, getStaticKeys.
    assert (H : forall seen,
               length (fold_left (fun seen k => if counted k then set_add (key k) seen
                                                else seen) keys seen)
               <= length seen + length (filter (fun k => counted k = true) keys)).
    { induction keys as [| k keys IH]; intros seen; simpl; [lia |].
      rewrite filter_cons. etransitivity; [apply IH |].
      destruct (counted k) eqn:E.
      - destruct (decide (true = true)) as [_ | ?]; [| congruence].
        unfold set_add. destruct (decide (key k ∈ seen)); simpl;
          rewrite ?length_app; simpl; lia.
      - destruct (decide (false = true)) as [? | _]; [discriminate | lia]. }
    apply (H []).
Qed.

Lemma getUniqueKeys_invariant_witness :
  [Examples.key_title; Examples.key_save] ≡ₚ [Examples.key_save; Examples.key_title] /\
  getUniqueKeys [Examples.key_title; Examples.key_save]
  = getUniqueKeys [Examples.key_save; Examples.key_title].
Proof.
  assert (H : [Examples.key_title; Examples.key_save]
              ≡ₚ [Examples.key_save; Examples.key_title]) by apply perm_swap.
  split; [exact H |]. exact (proj1 getUniqueKeys_invariant _ _ H).
Defined.

(** *** Where a record comes from *)

Lemma in_concat_imap_iff {A B} (f : nat -> A -> list B) l x :
  In x (concat (imap f l)) <-> exists i y, l !! i = Some y /\ In x (f i y).
Proof.
  split; [apply in_concat_imap |]. intros (i & y & Hl & Hx).
  apply in_concat. exists (f i y). split; [| exact Hx].
  apply list_elem_of_In, elem_of_lookup_imap. now exists i, y.
Qed.

Lemma templateLine_found filePath startLine i ln k :
  In k (templateLine filePath startLine i ln) <->
  found_in_markup filePath (startLine + i + 1) ln k.
Proof.
  unfold templateLine, found_in_markup.
  replace (calculateSourceLine (i + 1) startLine) with (startLine + i + 1)
    by (unfold calculateSourceLine; lia).
  rewrite !in_app_iff, !in_map_iff. split.
  - intros [(m & <- & Hm) | [(m & <- & Hm) | (m & <- & Hm)]]; exists m; tauto.
  - intros (m & [(Hm & ->) | [(Hm & ->) | (Hm & ->)]]);
      [left | right; left | right; right]; now exists m.
Qed.

Lemma scriptLine_found filePath startLine i ln k :
  In k (scriptLine filePath startLine i ln) <->
  startsWith (trim ln) "import " = false /\
  startsWith (trim ln) "type " = false /\
  found_in_code filePath (startLine + i + 1) ln k.
Proof.
  unfold scriptLine, found_in_code.
  replace (calculateSourceLine (i + 1) startLine) with (startLine + i + 1)
    by (unfold calculateSourceLine; lia).
  destruct (startsWith (trim ln) "import ");
    [simpl; split; [contradiction | intros [H _]; discriminate] |].
  destruct (startsWith (trim ln) "type ");
    [simpl; split; [contradiction | intros (_ & H & _); discriminate] |].
  simpl. rewrite !in_app_iff, !in_map_iff. split.
  - intros [(m & <- & Hm) | (m & <- & Hm)];
      (split; [reflexivity |]; split; [reflexivity |]); exists m; tauto.
  - intros (_ & _ & m & [(Hm & ->) | (Hm & ->)]); [left | right]; now exists m.
Qed.

Lemma extractFromTemplate_found tpl filePath startLine k :
  In k (extractFromTemplate tpl filePath startLine) <->
  exists i ln, split_lines tpl !! i = Some ln /\
               found_in_markup filePath (startLine + i + 1) ln k.
Proof.
  unfold extractFromTemplate. rewrite in_concat_imap_iff.
  split; intros (i & ln & Hl & H); exists i, ln; (split; [exact Hl |]);
    now apply templateLine_found.
Qed.

Lemma extractFromScript_found src filePath startLine k :
  In k (extractFromScript src filePath startLine) <->
  usesI18n src = true /\
  exists i ln, split_lines src !! i = Some ln /\
    startsWith (trim ln) "import " = false /\
    startsWith (trim ln) "type " = false /\
    found_in_code filePath (startLine + i + 1) ln k.
Proof.
  unfold extractFromScript. destruct (usesI18n src); simpl.
  - rewrite in_concat_imap_iff. split.
    + intros (i & ln & Hl & H). split; [reflexivity |]. exists i, ln.
      split; [exact Hl |]. now apply scriptLine_found.
    + intros (_ & i & ln & Hl & H). exists i, ln. split; [exact Hl |].
      now apply scriptLine_found.
  - split; [contradiction | intros [H _]; discriminate].
Qed.

(** What a record found on a line looks like *)
Lemma found_in_markup_fields filePath n ln k :
  found_in_markup filePath n ln k ->
  file k = filePath /\ line k = n /\ ctx k = template /\ from_line ln k.
Proof.
  intros (m & [(Hm & ->) | [(Hm & ->) | (Hm & ->)]]).
  - repeat split.
    apply (quoted_from_line [lit "{{"; ws; Opt (Chr "$"); Chr "t"; ws; Chr "("; ws]
             interpolationPattern filePath n template ln m eq_refl eq_refl Hm).
  - repeat split.
    apply (quoted_from_line
             [Chr ":"; Plus word; Star (Seq (Chr "-") (Plus word)); Chr "=";
              Cls false [CChar dquote; CChar "'"]; ws; Opt (Chr "$"); Chr "t"; ws;
              Chr "("; ws]
             boundAttrPattern filePath n template ln m eq_refl eq_refl Hm).
  - pose proof (fromLiteral_from_line [Opt (Chr "$"); Chr "t"; ws; Chr "("; ws]
                  templateLiteralPattern filePath n template ln m eq_refl eq_refl Hm)
      as Hf.
    unfold fromLiteral in *. destruct (includes (group m 1) "${"); now repeat split.
Qed.

Lemma found_in_code_fields filePath n ln k :
  found_in_code filePath n ln k ->
  file k = filePath /\ line k = n /\ ctx k = script /\ from_line ln k.
Proof.
  intros (m & [(Hm & ->) | (Hm & ->)]).
  - repeat split.
    apply (quoted_from_line [WordB; Chr "t"; ws; Chr "("; ws]
             simplePattern filePath n script ln m eq_refl eq_refl Hm).
  - pose proof (fromLiteral_from_line [WordB; Chr "t"; ws; Chr "("; ws]
                  scriptTemplateLiteralPattern filePath n script ln m eq_refl eq_refl Hm)
      as Hf.
    unfold fromLiteral in *. destruct (includes (group m 1) "${"); now repeat split.
Qed.

(** X16: the records of [extractTranslationKeys] are exactly the records
    found on the lines of the scanned sections: a record is extracted if
    and only if it is what the extractor pushes for a match of one of its
    patterns on the line of index [i] of a section, numbered with the start
    line of that section plus [i + 1]; the section is the markup, or a
    script section that shows evidence of the translation function, and
    then the trimmed line starts neither with [import ] nor with [type ].
    Such a record carries the path of the file, that line number and the
    kind of the section, and its text is a piece of that very line. *)
Theorem extracted_key_provenance (parsed : ParsedVueSFC) :
  (forall k,
     In k (extractTranslationKeys parsed) <->
     exists text i ln,
       split_lines text !! i = Some ln /\
       ((present (p_template parsed) = Some text /\
         found_in_markup (filePath parsed) (templateStartLine parsed + i + 1) ln k) \/
        (usesI18n text = true /\
         startsWith (trim ln) "import " = false /\
         startsWith (trim ln) "type " = false /\
         ((present (scriptSetup parsed) = Some text /\
           found_in_code (filePath parsed) (scriptSetupStartLine parsed + i + 1) ln k) \/
          (present (p_script parsed) = Some text /\
           found_in_code (filePath parsed) (scriptStartLine parsed + i + 1) ln k))))) /\
  (forall n ln k,
     found_in_markup (filePath parsed) n ln k ->
     file k = filePath parsed /\ line k = n /\ ctx k = template /\ from_line ln k) /\
  (forall n ln k,
     found_in_code (filePath parsed) n ln k ->
     file k = filePath parsed /\ line k = n /\ ctx k = script /\ from_line ln k).
Proof.
  split; [| split; [intros n ln k; apply found_in_markup_fields
                   | intros n ln k; apply found_in_code_fields]].
  intros k. unfold extractTranslationKeys. rewrite !in_app_iff. split.
  - intros [H | [H | H]].
    + destruct (present (p_template parsed)) as [text |]; [| contradiction].
      apply extractFromTemplate_found in H as (i & ln & Hl & H).
      exists text, i, ln. split; [exact Hl |]. left. now split.
    + destruct (present (scriptSetup parsed)) as [text |]; [| contradiction].
      apply extractFromScript_found in H as (Hu & i & ln & Hl & H1 & H2 & H).
      exists text, i, ln. split; [exact Hl |]. right.
      split; [exact Hu |]. split; [exact H1 |]. split; [exact H2 |]. left. now split.
    + destruct (present (p_script parsed)) as [text |]; [| contradiction].
      apply extractFromScript_found in H as (Hu & i & ln & Hl & H1 & H2 & H).
      exists text, i, ln. split; [exact Hl |]. right.
      split; [exact Hu |]. split; [exact H1 |]. split; [exact H2 |]. right. now split.
  - intros (text & i & ln & Hl & [(Ht & H) | (Hu & H1 & H2 & [(Ht & H) | (Ht & H)])]).
    + left. rewrite Ht. apply extractFromTemplate_found. now exists i, ln.
    + right. left. rewrite Ht. apply extractFromScript_found.
      split; [exact Hu |]. now exists i, ln.
    + right. right. rewrite Ht. apply extractFromScript_found.
      split; [exact Hu |]. now exists i, ln.
Qed.

Lemma extracted_key_provenance_witness :
  found_in_code (filePath Examples.page_dynamic) 8
    "const label = t(`status.${state}`)" Examples.key_dynamic /\
  line Examples.key_dynamic = 8 /\
  from_line "const label = t(`status.${state}`)" Examples.key_dynamic.
Proof.
  assert (H : found_in_code (filePath Examples.page_dynamic) 8
                "const label = t(`status.${state}`)" Examples.key_dynamic).
  { eexists. right. split; [vm_compute; left; reflexivity | reflexivity]. }
  pose proof (proj2 (proj2 (extracted_key_provenance Examples.page_dynamic)) _ _ _ H)
    as (_ & Hn & _ & Hf).
  split; [exact H |]. split; [exact Hn | exact Hf].
Defined.

(** *** What is never reported *)

Lemma matches_must_have c r st st' :
  matches false r st st' ->
  exists w, frame st w st' /\ (must_have c r = true -> In c w).
Proof.
  induction 1 as [st | a x rest st E Hx | neg items x rest st E _
                 | r1 r2 st st1 st2 _ (w1 & F1 & H1) _ (w2 & F2 & H2)
                 | r1 r2 st st' _ (w & F & H) | r1 r2 st st' _ (w & F & H)
                 | r st | r st st1 st2 M1 _ M2 _
                 | n r st st' _ (w & F & H)
                 | n st _ | n w st st' _ _ Ha
                 | st _ | st _ | st _]; simpl.
  - exists []. split; [apply frame_refl | discriminate].
  - exists [x]. split; [now apply frame_advance |].
    intros Ha. apply Ascii.eqb_eq in Ha. apply Ascii.eqb_eq in Hx.
    left. congruence.
  - exists [x]. split; [now apply frame_advance | discriminate].
  - exists (w1 ++ w2). split; [eapply frame_trans; eauto |].
    intros Hm. apply orb_true_iff in Hm. apply in_app_iff. tauto.
  - exists w. split; [exact F |]. intros Hm. apply andb_true_iff in Hm. tauto.
  - exists w. split; [exact F |]. intros Hm. apply andb_true_iff in Hm. tauto.
  - exists []. split; [apply frame_refl | discriminate].
  - destruct (matches_frame _ _ _ _ M1) as [w1 F1].
    destruct (matches_frame _ _ _ _ M2) as [w2 F2].
    exists (w1 ++ w2). split; [eapply frame_trans; eauto | discriminate].
  - exists w. split; [exact F | exact H].
  - exists []. split; [apply frame_refl | discriminate].
  - apply advance_by_frame in Ha as (w' & _ & F & _). exists w'.
    split; [exact F | discriminate].
  - exists []. split; [apply frame_refl | discriminate].
  - exists []. split; [apply frame_refl | discriminate].
  - exists []. split; [apply frame_refl | discriminate].
Qed.

(** A subject without a character the pattern needs has no match. *)
Lemma exec_all_must_have re c s :
  re_icase re = false -> must_have c (re_pat re) = true ->
  ~ In c (chars s) -> exec_all re s = [].
Proof.
  intros Hic Hm Hc. destruct (exec_all re s) as [| m ms] eqn:E; [reflexivity |].
  exfalso. apply Hc.
  assert (Hin : In m (exec_all re s)) by (rewrite E; now left).
  apply exec_all_spec in Hin as (st0 & st' & w0 & M & _ & _ & Hs & _).
  rewrite Hic in M.
  apply (matches_must_have c) in M as (w & [R _] & Hw).
  rewrite Hs, R. apply in_app_iff. right. apply in_app_iff. left. now apply Hw.
Qed.

Lemma split_at_chars sep l : forall cur more c,
  split_at sep l = (cur, more) ->
  (In c cur \/ exists x, In x more /\ In c x) -> In c l.
Proof.
  induction l as [| a l IH]; intros cur more c H Hc; simpl in H.
  - injection H as <- <-. destruct Hc as [[] | (x & [] & _)].
  - destruct (split_at sep l) as [cur' more'] eqn:E.
    destruct (Ascii.eqb a sep).
    + injection H as <- <-. right. apply (IH cur' more' c eq_refl).
      destruct Hc as [[] | (x & [<- | Hx] & Hc)]; [now left |].
      right. now exists x.
    + injection H as <- <-.
      destruct Hc as [[<- | Hc] | Hc]; [now left | |];
        right; apply (IH cur' more' c eq_refl); tauto.
Qed.

Lemma split_lines_chars text ln c :
  In ln (split_lines text) -> In c (chars ln) -> In c (chars text).
Proof.
  unfold split_lines. destruct (split_at newline (chars text)) as [cur more] eqn:E.
  intros Hl Hc. apply in_map_iff in Hl as (x & <- & Hx).
  rewrite chars_str in Hc. apply (split_at_chars _ _ _ _ c E).
  destruct Hx as [<- | Hx]; [now left | right; now exists x].
Qed.

Lemma lookup_In {A} (l : list A) i x : l !! i = Some x -> In x l.
Proof. intros H. apply list_elem_of_In. eapply list_elem_of_lookup_2; eauto. Qed.

Lemma extractFromTemplate_without c tpl filePath startLine :
  (c = "t"%char \/ c = "("%char) -> ~ In c (chars tpl) ->
  extractFromTemplate tpl filePath startLine = [].
Proof.
  intros Hc Hno.
  destruct (extractFromTemplate tpl filePath startLine) as [| k ks] eqn:E;
    [reflexivity |].
  exfalso.
  assert (Hin : In k (extractFromTemplate tpl filePath startLine))
    by (rewrite E; now left).
  apply in_concat_imap in Hin as (i & ln & Hl & Hin).
  assert (Hln : ~ In c (chars ln)).
  { intros H. apply Hno. eapply split_lines_chars; [eapply lookup_In |]; eauto. }
  unfold templateLine in Hin.
  rewrite !(exec_all_must_have _ c ln) in Hin; try exact Hln; try reflexivity;
    try (destruct Hc as [-> | ->]; reflexivity).
  exact Hin.
Qed.

Lemma extractFromScript_without c src filePath startLine :
  (c = "t"%char \/ c = "("%char) -> ~ In c (chars src) ->
  extractFromScript src filePath startLine = [].
Proof.
  intros Hc Hno. unfold extractFromScript.
  destruct (negb (usesI18n src)); [reflexivity |].
  destruct (concat _) as [| k ks] eqn:E; [reflexivity |].
  exfalso.
  assert (Hin : In k (concat (imap (scriptLine filePath startLine) (split_lines src))))
    by (rewrite E; now left).
  apply in_concat_imap in Hin as (i & ln & Hl & Hin).
  assert (Hln : ~ In c (chars ln)).
  { intros H. apply Hno. eapply split_lines_chars; [eapply lookup_In |]; eauto. }
  unfold scriptLine in Hin.
  destruct (_ || _); [exact Hin |].
  rewrite !(exec_all_must_have _ c ln) in Hin; try exact Hln; try reflexivity;
    try (destruct Hc as [-> | ->]; reflexivity).
  exact Hin.
Qed.

(** X17: a file none of whose sections contains the letter [t], or none of
    whose sections contains an opening parenthesis, yields no record at
    all. *)
Theorem no_call_without_t_or_parenthesis (parsed : ParsedVueSFC) (c : ascii) :
  c = "t"%char \/ c = "("%char ->
  Forall (fun text => ~ In c (chars text)) (sections parsed) ->
  extractTranslationKeys parsed = [].
Proof.
  intros Hc Hall. unfold extractTranslationKeys, sections in *. simpl in Hall.
  destruct (present (p_template parsed)) as [t |];
    destruct (present (scriptSetup parsed)) as [s1 |];
    destruct (present (p_script parsed)) as [s2 |]; simpl in Hall;
    repeat match goal with
           | H : Forall _ (_ :: _) |- _ => apply Forall_cons in H as [? H]
           end;
    rewrite ?(extractFromTemplate_without c), ?(extractFromScript_without c);
    auto.
Qed.

Lemma no_call_without_t_or_parenthesis_witness :
  ("("%char = "t"%char \/ "("%char = "("%char) /\
  Forall (fun text => ~ In "("%char (chars text)) (sections Examples.page_text) /\
  extractTranslationKeys Examples.page_text = [].
Proof.
  assert (Hc : "("%char = "t"%char \/ "("%char = "("%char) by (right; reflexivity).
  assert (Hs : Forall (fun text => ~ In "("%char (chars text))
                      (sections Examples.page_text)).
  { apply List.Forall_cons; [not_in | apply List.Forall_nil]. }
  split; [exact Hc |]. split; [exact Hs |].
  exact (no_call_without_t_or_parenthesis Examples.page_text "(" Hc Hs).
Defined.

End ExtractorMore.

(** ** hardcoded.ts: what a reported candidate looks like *)

Module HardcodedMore.
Import JS JSFacts TrimFacts Regex RegexFacts RegexAnalysis Extractor ExtractorFacts
       Hardcoded HardcodedFacts.

(** *** Text nodes *)

Lemma noneof_tag_brace c :
  cls_match false true [CChar "<"; CChar "{"] c = true ->
  c <> "<"%char /\ c <> "{"%char.
Proof.
  intros H. split; intros ->; vm_compute in H; discriminate H.
Qed.

Lemma textPattern_match line m :
  In m (exec_all textPattern line) ->
  exists w, Forall (fun c => c <> "<"%char /\ c <> "{"%char) w /\
            group m 1 = str w.
Proof.
  intros H. apply exec_all_spec in H
    as (st0 & st' & w0 & M & _ & _ & _ & _ & _ & Hcaps & _).
  simpl in M.
  apply matches_seq in M as (s1 & M1 & M).
  apply matches_seq in M as (s2 & M2 & M).
  apply matches_seq in M as (s3 & M3 & M).
  apply matches_eps in M as ->.
  apply matches_grp in M2 as (s2' & M2 & ->).
  apply matches_plus_cls in M2 as (w & F & _ & A & _).
  apply matches_chr in M3 as (c3 & rest3 & E3 & _ & ->).
  exists w. split.
  - eapply Forall_impl; [exact A |]. intros c. apply noneof_tag_brace.
  - unfold group. rewrite Hcaps. simpl.
    rewrite (frame_consumed _ _ _ F), lookup_insert_eq. reflexivity.
Qed.

Lemma textNodesOfLine_spec i ln node :
  In node (textNodesOfLine i ln) ->
  n_line node = i + 1 /\
  n_text node <> "" /\
  trim (n_text node) = n_text node /\
  (forall c, In c (chars (n_text node)) -> c <> "<"%char /\ c <> "{"%char) /\
  test blankPattern (n_text node) = false /\
  includes (n_text node) "}}" = false.
Proof.
  unfold textNodesOfLine. intros H. apply in_flat_map in H as (m & Hm & H).
  destruct (negb (truthy (trim (group m 1))) || test blankPattern (trim (group m 1)))
    eqn:E1; [contradiction |].
  destruct (includes (trim (group m 1)) "{{" || includes (trim (group m 1)) "}}")
    eqn:E2; [contradiction |].
  destruct H as [<- | []]. simpl.
  apply orb_false_iff in E1 as [E1 E1'], E2 as [_ E2].
  apply negb_false_iff, truthy_nonempty in E1.
  apply textPattern_match in Hm as (w & A & Hg).
  split; [reflexivity |]. split; [exact E1 |]. split; [apply trim_idem |].
  split; [| now split].
  intros c Hc. apply trim_chars in Hc. rewrite Hg, chars_str in Hc.
  rewrite List.Forall_forall in A. now apply A.
Qed.

Lemma extractTextNodes_spec tpl node :
  In node (extractTextNodes tpl) ->
  exists i ln, split_lines tpl !! i = Some ln /\ In node (textNodesOfLine i ln).
Proof. apply in_concat_imap. Qed.

Lemma matchesExclusionPattern_false text patterns :
  matchesExclusionPattern text patterns = false <->
  Forall (fun p => match p with
                   | PRegExp re_test => re_test text = false
                   | PString s => startsWith text s = false
                   end) patterns.
Proof.
  induction patterns as [| [re_test | s] rest IH]; simpl.
  - split; [constructor | reflexivity].
  - rewrite Forall_cons, <- IH. destruct (re_test text); intuition congruence.
  - rewrite Forall_cons, <- IH. destruct (startsWith text s); intuition congruence.
Qed.

Section WithHost.
Variable relative : string -> string -> string.
Variable new_RegExp : string -> option (string -> bool).
Variable toUpperCase : string -> string.

Lemma compilePatterns_Some sources res :
  compilePatterns new_RegExp sources = Some res ->
  Forall2 (fun p re => new_RegExp p = Some re) sources res.
Proof.
  revert res. induction sources as [| p rest IH]; intros res; simpl.
  - intros H. injection H as <-. constructor.
  - destruct (new_RegExp p) as [re |] eqn:E; [| discriminate].
    destruct (compilePatterns new_RegExp rest) as [res' |]; [| discriminate].
    intros H. injection H as <-. constructor; [exact E | now apply IH].
Qed.

Lemma compilePatterns_None sources :
  compilePatterns new_RegExp sources = None <->
  Exists (fun p => new_RegExp p = None) sources.
Proof using Type.
  induction sources as [| p rest IH]; simpl.
  - split; [discriminate | intros H; inversion H].
  - rewrite Exists_cons, <- IH. destruct (new_RegExp p) as [re |].
    + destruct (compilePatterns new_RegExp rest); split.
      * discriminate.
      * intros [H | H]; discriminate.
      * intros _. now right.
      * reflexivity.
    + split; [now left | reflexivity].
Qed.

(** What the filters of the loop leave *)
Lemma keepNode_spec rules patterns text :
  keepNode toUpperCase rules patterns text = true ->
  (minLength rules <= Z.of_nat (units text))%Z /\
  (excludeAllCaps rules = true -> 2 < units text ->
   text <> toUpperCase text) /\
  matchesExclusionPattern text patterns = false /\
  isComponentName text = false /\ isTechnicalIdentifier text = false.
Proof.
  unfold keepNode.
  destruct (Z.ltb_spec (Z.of_nat (units text)) (minLength rules));
    [discriminate |].
  destruct (excludeAllCaps rules && String.eqb text (toUpperCase text)
            && (2 <? units text)) eqn:E; [discriminate |].
  destruct (matchesExclusionPattern text patterns); [discriminate |].
  destruct (isComponentName text); [discriminate |].
  destruct (isTechnicalIdentifier text); [discriminate |]. intros _.
  split; [lia |]. split; [| now repeat split].
  intros Hc Hl Heq. rewrite Hc in E. apply String.eqb_eq in Heq.
  apply Nat.ltb_lt in Hl. rewrite Heq, Hl in E. discriminate.
Qed.

Lemma detect_in parsed rules root l h :
  detectHardcodedStrings relative new_RegExp toUpperCase parsed rules root = Some l ->
  In h l ->
  exists tpl user node,
    present (p_template parsed) = Some tpl /\
    compilePatterns new_RegExp (excludePatterns rules) = Some user /\
    In node (extractTextNodes tpl) /\
    keepNode toUpperCase rules (map (fun re => PRegExp (test re)) DEFAULT_EXCLUDE_PATTERNS
                    ++ map PRegExp user) (n_text node) = true /\
    h = {| h_text := n_text node;
           h_file := relative root (filePath parsed);
           h_line := calculateSourceLine (n_line node) (templateStartLine parsed);
           h_confidence := calculateConfidence (n_text node);
           h_context := n_context node |}.
Proof.
  unfold detectHardcodedStrings.
  destruct (present (p_template parsed)) as [tpl |];
    [| intros H; injection H as <-; contradiction].
  destruct (compilePatterns new_RegExp (excludePatterns rules)) as [user |];
    [| discriminate].
  intros H Hin. injection H as <-. apply in_flat_map in Hin as (node & Hn & Hin).
  destruct (keepNode _ _ _) eqn:K; [| contradiction].
  destruct Hin as [<- | []]. exists tpl, user, node. now repeat split.
Qed.
End WithHost.

(** X18: every candidate that [detectHardcodedStrings] returns carries
    the relative path of the file, the confidence computed from its text and
    the line [templateStartLine + i + 1] of a line [i] of the markup; its
    text is trimmed (of all white space that [trim] knows) and not empty,
    has a [length] of at least [minLength], contains no [<], no [{] and no
    [}}], is no component name and no technical identifier, is rejected by
    every pattern of the rules and, when [excludeAllCaps] is set and its
    [length] is more than two, differs from [text.toUpperCase()].  The
    [length] is that of the program, in UTF-16 code units ([units]), and
    the upper-case form is the one of the host, whatever its case tables
    are. *)
Theorem hardcoded_candidate_invariant
  (relative : string -> string -> string)
  (new_RegExp : string -> option (string -> bool))
  (toUpperCase : string -> string)
  (parsed : ParsedVueSFC) (rules : HardcodedTextRules) (root : string)
  (l : list HardcodedString) (h : HardcodedString) :
  detectHardcodedStrings relative new_RegExp toUpperCase parsed rules root = Some l ->
  In h l ->
  h_file h = relative root (filePath parsed) /\
  h_confidence h = calculateConfidence (h_text h) /\
  (exists tpl i ln,
     present (p_template parsed) = Some tpl /\ split_lines tpl !! i = Some ln /\
     h_line h = templateStartLine parsed + i + 1) /\
  h_text h <> "" /\ trim (h_text h) = h_text h /\
  (minLength rules <= Z.of_nat (units (h_text h)))%Z /\
  (forall c, In c (chars (h_text h)) -> c <> "<"%char /\ c <> "{"%char) /\
  includes (h_text h) "}}" = false /\
  isComponentName (h_text h) = false /\
  isTechnicalIdentifier (h_text h) = false /\
  (forall p, In p (excludePatterns rules) ->
             exists re, new_RegExp p = Some re /\ re (h_text h) = false) /\
  (excludeAllCaps rules = true -> 2 < units (h_text h) ->
   h_text h <> toUpperCase (h_text h)).
Proof.
  intros Hd Hin.
  destruct (detect_in _ _ _ _ _ _ _ _ Hd Hin)
    as (tpl & user & node & Ht & Hc & Hn & K & ->). simpl.
  apply extractTextNodes_spec in Hn as (i & ln & Hl & Hn).
  apply textNodesOfLine_spec in Hn as (Hline & Hne & Htrim & Hch & _ & Hbr).
  apply keepNode_spec in K as (Hmin & Hcaps & Hex & Hcomp & Htech).
  split; [reflexivity |]. split; [reflexivity |]. split.
  { exists tpl, i, ln. split; [exact Ht |]. split; [exact Hl |].
    unfold calculateSourceLine. rewrite Hline. lia. }
  split; [exact Hne |]. split; [exact Htrim |]. split; [exact Hmin |].
  split; [exact Hch |]. split; [exact Hbr |]. split; [exact Hcomp |].
  split; [exact Htech |]. split; [| exact Hcaps].
  intros p Hp. rewrite matchesExclusionPattern_app in Hex.
  apply orb_false_iff in Hex as [_ Hex].
  apply matchesExclusionPattern_false in Hex.
  apply compilePatterns_Some in Hc.
  apply list_elem_of_In in Hp. apply list_elem_of_lookup in Hp as [j Hj].
  destruct (Forall2_lookup_l _ _ _ _ _ Hc Hj) as (re & Hre & Hnew).
  exists re. split; [exact Hnew |].
  rewrite Forall_map in Hex. rewrite Forall_lookup in Hex.
  exact (Hex j re Hre).
Qed.

Lemma hardcoded_candidate_invariant_witness :
  detectHardcodedStrings Examples.relative0 Examples.new_RegExp0 Examples.toUpperCase0 Examples.page_text
    (withMinLength Examples.rules0 12) "/app"
  = Some [Examples.text_welcome] /\
  In Examples.text_welcome [Examples.text_welcome] /\
  h_file Examples.text_welcome
  = Examples.relative0 "/app" (filePath Examples.page_text) /\
  h_confidence Examples.text_welcome
  = calculateConfidence (h_text Examples.text_welcome).
Proof.
  assert (Hd : detectHardcodedStrings Examples.relative0 Examples.new_RegExp0 Examples.toUpperCase0
                 Examples.page_text (withMinLength Examples.rules0 12) "/app"
               = Some [Examples.text_welcome]) by (vm_compute; reflexivity).
  assert (Hin : In Examples.text_welcome [Examples.text_welcome])
    by (left; reflexivity).
  pose proof (hardcoded_candidate_invariant _ _ _ _ _ _ _ _ Hd Hin) as (H1 & H2 & _).
  split; [exact Hd |]. split; [exact Hin |]. split; [exact H1 | exact H2].
Defined.

(** *** Texts the built-in filters always reject *)

Lemma run_seq ic r1 r2 st k :
  run ic (Seq r1 r2) st k = run ic r1 st (fun st1 => run ic r2 st1 k).
Proof. reflexivity. Qed.

Lemma run_bol ic st k : m_left st = [] -> run ic Bol st k = k st.
Proof. intros H. simpl. now rewrite H. Qed.

Lemma run_eol_eps ic st :
  m_right st = [] -> run ic (Seq Eol Eps) st Some = Some st.
Proof. intros H. simpl. now rewrite H. Qed.

Lemma run_cls ic neg items st k c rest :
  m_right st = c :: rest ->
  run ic (Cls neg items) st k
  = if cls_match ic neg items c then k (advance st c rest) else None.
Proof. intros H. simpl. now rewrite H. Qed.

(** A starred class over a rest made of members of the class reaches the
    end of the input. *)
Lemma run_star_cls_all neg items k : forall w st,
  m_right st = w ->
  Forall (fun c => cls_match false neg items c = true) w ->
  (forall st', m_right st' = [] -> is_Some (k st')) ->
  is_Some (run false (Star (Cls neg items)) st k).
Proof.
  induction w as [| c w IH]; intros st Hr Hall Hk; rewrite run_star.
  - simpl. rewrite Hr. now apply Hk.
  - rewrite (run_cls _ _ _ _ _ c w Hr).
    apply Forall_cons in Hall as [Hc Hall]. rewrite Hc, Hr.
    cbn [advance m_right length].
    assert (Hlt : (length w <? S (length w)) = true) by (apply Nat.ltb_lt; lia).
    rewrite Hlt.
    destruct (IH (advance st c w) eq_refl Hall Hk) as [res Hres].
    rewrite Hres. now exists res.
Qed.

Lemma test_at_start re s :
  is_Some (match_at (re_icase re) (re_pat re) [] (chars s)) -> test re s = true.
Proof.
  intros [st H]. unfold test. destruct (chars s); simpl; now rewrite H.
Qed.

(** A match of an expression that starts with [^] starts the subject. *)
Lemma test_anchored_sound rs text :
  test (mkRegExp (anchored rs) false) text = true ->
  exists st', matches false (cat rs) (mkState [] (chars text) ∅) st'.
Proof.
  unfold test. cbn [re_icase re_pat].
  destruct (search false (anchored rs) [] (chars text)) as [[i st] |] eqn:E;
    [| discriminate].
  intros _. apply search_spec in E as (skipped & rest & Hs & _ & Hm).
  unfold match_at in Hm. apply run_sound in Hm as (st' & M & _).
  apply matches_seq in M as (s1 & MB & M).
  inversion MB as [| | | | | | | | | | | st0 Hl | |]; subst. simpl in Hl.
  rewrite app_nil_r in Hl. apply (f_equal (@rev ascii)) in Hl.
  rewrite rev_involutive in Hl. simpl in Hl. subst skipped.
  exists st'. rewrite Hs. exact M.
Qed.

Lemma cls_upper c : cls_match false false upper_class c = is_upper c.
Proof. destruct c as [[] [] [] [] [] [] [] []]; vm_compute; reflexivity. Qed.

Lemma cls_lower c : cls_match false false lower_class c = is_lower c.
Proof. destruct c as [[] [] [] [] [] [] [] []]; vm_compute; reflexivity. Qed.

Lemma cls_alnum c :
  cls_match false false alnum_class c = is_digit c || is_upper c || is_lower c.
Proof. destruct c as [[] [] [] [] [] [] [] []]; vm_compute; reflexivity. Qed.

Lemma cls_digit c : cls_match false false [CDigit] c = is_digit c.
Proof. destruct c as [[] [] [] [] [] [] [] []]; vm_compute; reflexivity. Qed.

Lemma lower_alnum c : is_lower c = true -> cls_match false false alnum_class c = true.
Proof. intros H. rewrite cls_alnum, H. now rewrite orb_true_r. Qed.

(** [^X[a-zA-Z0-9]*$] on a word that starts in the class [X] *)
Lemma word_pattern_complete first text c w :
  chars text = c :: w ->
  cls_match false false first c = true ->
  Forall (fun c => is_digit c || is_upper c || is_lower c = true) w ->
  test (mkRegExp (anchored [Cls false first; Star alnum; Eol]) false) text = true.
Proof.
  intros Hc Hf Hw. apply test_at_start. cbn [re_icase re_pat]. rewrite Hc.
  unfold match_at, anchored, cat. cbn [foldr].
  rewrite run_seq, run_bol by reflexivity.
  rewrite run_seq. erewrite run_cls by reflexivity. rewrite Hf, run_seq.
  apply (run_star_cls_all _ _ _ w); [reflexivity | |].
  - eapply Forall_impl; [exact Hw |]. intros x Hx. cbn beta in Hx.
    now rewrite <- cls_alnum in Hx.
  - intros st' Hr. rewrite (run_eol_eps _ _ Hr). now eexists.
Qed.

Lemma isComponentName_complete text c w :
  chars text = c :: w -> is_upper c = true ->
  Forall (fun c => is_digit c || is_upper c || is_lower c = true) w ->
  isComponentName text = true.
Proof.
  intros Hc Hu Hw. apply (word_pattern_complete upper_class text c w Hc); [| exact Hw].
  now rewrite cls_upper.
Qed.

Lemma isTechnicalIdentifier_complete text c w :
  chars text = c :: w -> is_lower c = true ->
  Forall (fun c => is_digit c || is_upper c || is_lower c = true) w ->
  units text < 20 ->
  isTechnicalIdentifier text = true.
Proof.
  intros Hc Hl Hw Hlen. unfold isTechnicalIdentifier.
  destruct (test _ text); [reflexivity |].
  assert (H : test (mkRegExp (anchored [az; Star alnum; Eol]) false) text = true).
  { apply (word_pattern_complete lower_class text c w Hc); [| exact Hw].
    now rewrite cls_lower. }
  rewrite H. apply Nat.ltb_lt in Hlen. rewrite Hlen. reflexivity.
Qed.

(** [^\d+$] on digits *)
Lemma digits_pattern_complete text c w :
  chars text = c :: w -> Forall (fun c => is_digit c = true) (c :: w) ->
  test (mkRegExp (anchored [Plus digit; Eol]) false) text = true.
Proof.
  intros Hc Hall. apply Forall_cons in Hall as [Hd Hw].
  apply test_at_start. cbn [re_icase re_pat]. rewrite Hc.
  unfold match_at, anchored, cat, Plus, digit. cbn [foldr].
  rewrite run_seq, run_bol by reflexivity.
  rewrite !run_seq. erewrite run_cls by reflexivity. rewrite cls_digit, Hd.
  apply (run_star_cls_all _ _ _ w); [reflexivity | |].
  - eapply Forall_impl; [exact Hw |]. intros x Hx. now rewrite cls_digit.
  - intros st' Hr. rewrite (run_eol_eps _ _ Hr). now eexists.
Qed.

Lemma prefix_cons a p s :
  String.prefix (String a p) s = true ->
  exists s', s = String a s' /\ String.prefix p s' = true.
Proof.
  destruct s as [| c s']; [discriminate |]. cbn [String.prefix].
  destruct (ascii_dec a c) as [<- |]; [| discriminate]. now exists s'.
Qed.

Ltac peel H :=
  repeat match type of H with
         | String.prefix (String _ _) ?s = true =>
             let s' := fresh "s" in
             apply prefix_cons in H as (s' & -> & H)
         end.

Lemma builtin_prefix_excluded p text :
  In p builtin_prefixes -> startsWith text p = true ->
  Exists (fun re => test re text = true) DEFAULT_EXCLUDE_PATTERNS.
Proof.
  unfold builtin_prefixes, startsWith. simpl.
  intros Hp Hs.
  repeat (destruct Hp as [<- | Hp]; [
    peel Hs; unfold DEFAULT_EXCLUDE_PATTERNS;
    repeat first [ apply Exists_cons_hd; reflexivity
                 | apply Exists_cons_tl ] |]).
  contradiction.
Qed.

Lemma default_rejects text more :
  matchesExclusionPattern text
    (map (fun re => PRegExp (test re)) DEFAULT_EXCLUDE_PATTERNS ++ more) = false ->
  ~ Exists (fun re => test re text = true) DEFAULT_EXCLUDE_PATTERNS.
Proof.
  rewrite matchesExclusionPattern_app. intros H.
  apply orb_false_iff in H as [H _]. apply matchesExclusionPattern_false in H.
  rewrite Forall_map in H. intros E. apply Exists_exists in E as (re & Hin & Ht).
  rewrite Forall_forall in H. specialize (H re Hin). simpl in H. congruence.
Qed.

(** X19: no candidate of [detectHardcodedStrings] starts with a Vue
    directive or binding mark, a route call, a URL scheme or a slash, none
    is made of digits only, and a candidate made of ASCII letters and
    digits only starts neither with an upper-case letter nor, when it has
    fewer than 20 characters, with a lower-case one: a single capitalised
    word is never reported. *)
Theorem technical_text_never_reported
  (relative : string -> string -> string)
  (new_RegExp : string -> option (string -> bool))
  (toUpperCase : string -> string)
  (parsed : ParsedVueSFC) (rules : HardcodedTextRules) (root : string)
  (l : list HardcodedString) (h : HardcodedString) :
  detectHardcodedStrings relative new_RegExp toUpperCase parsed rules root = Some l ->
  In h l ->
  (forall p, In p builtin_prefixes -> startsWith (h_text h) p = false) /\
  ~ Forall (fun c => is_digit c = true) (chars (h_text h)) /\
  (forall c w,
     chars (h_text h) = c :: w ->
     Forall (fun c => is_digit c || is_upper c || is_lower c = true) w ->
     is_upper c = false /\
     (is_lower c = true -> 20 <= String.length (h_text h))).
Proof.
  intros Hd Hin.
  destruct (detect_in _ _ _ _ _ _ _ _ Hd Hin)
    as (tpl & user & node & Ht & Hc & Hn & K & ->). simpl.
  apply extractTextNodes_spec in Hn as (i & ln & Hl & Hn).
  apply textNodesOfLine_spec in Hn as (_ & Hne & _).
  apply keepNode_spec in K as (_ & _ & Hex & Hcomp & Htech).
  apply default_rejects in Hex.
  split; [| split].
  - intros p Hp. destruct (startsWith (n_text node) p) eqn:E; [| reflexivity].
    exfalso. apply Hex. now apply (builtin_prefix_excluded p).
  - intros Hall. apply Hex. unfold DEFAULT_EXCLUDE_PATTERNS.
    do 11 apply Exists_cons_tl. apply Exists_cons_hd.
    destruct (chars (n_text node)) as [| c w] eqn:E.
    + exfalso. apply Hne. rewrite <- (str_chars (n_text node)), E. reflexivity.
    + now apply (digits_pattern_complete _ c w).
  - intros c w Hcw Hw. split.
    + destruct (is_upper c) eqn:E; [| reflexivity].
      rewrite (isComponentName_complete _ c w Hcw E Hw) in Hcomp. discriminate.
    + intros Hlow.
      assert (Hu : units (n_text node) = String.length (n_text node)).
      { apply units_ascii. rewrite Hcw. constructor.
        - apply alnum_ascii. rewrite Hlow. now rewrite orb_true_r.
        - eapply Forall_impl; [exact Hw |]. intros x. apply alnum_ascii. }
      rewrite <- Hu.
      destruct (Nat.lt_ge_cases (units (n_text node)) 20)
        as [Hlt | Hge]; [| exact Hge].
      rewrite (isTechnicalIdentifier_complete _ c w Hcw Hlow Hw Hlt) in Htech.
      discriminate.
Qed.

Lemma technical_text_never_reported_witness :
  detectHardcodedStrings Examples.relative0 Examples.new_RegExp0 Examples.toUpperCase0 Examples.page_text
    (withMinLength Examples.rules0 12) "/app"
  = Some [Examples.text_welcome] /\
  In Examples.text_welcome [Examples.text_welcome] /\
  (forall p, In p builtin_prefixes ->
             startsWith (h_text Examples.text_welcome) p = false).
Proof.
  assert (Hd : detectHardcodedStrings Examples.relative0 Examples.new_RegExp0 Examples.toUpperCase0
                 Examples.page_text (withMinLength Examples.rules0 12) "/app"
               = Some [Examples.text_welcome]) by (vm_compute; reflexivity).
  assert (Hin : In Examples.text_welcome [Examples.text_welcome])
    by (left; reflexivity).
  split; [exact Hd |]. split; [exact Hin |].
  exact (proj1 (technical_text_never_reported _ _ _ _ _ _ _ _ Hd Hin)).
Defined.

(** X20: a candidate reported with medium confidence contains a space and
    has a [length] of more than ten, counted as the program counts it, in
    UTF-16 code units ([units]); the single capitalised word that
    [calculateConfidence] rates medium is filtered out as a component name
    before it is rated. *)
Theorem medium_confidence_is_multi_word
  (relative : string -> string -> string)
  (new_RegExp : string -> option (string -> bool))
  (toUpperCase : string -> string)
  (parsed : ParsedVueSFC) (rules : HardcodedTextRules) (root : string)
  (l : list HardcodedString) (h : HardcodedString) :
  detectHardcodedStrings relative new_RegExp toUpperCase parsed rules root = Some l ->
  In h l -> h_confidence h = medium ->
  includes (h_text h) " " = true /\ 10 < units (h_text h).
Proof.
  intros Hd Hin.
  destruct (detect_in _ _ _ _ _ _ _ _ Hd Hin)
    as (tpl & user & node & Ht & Hc & Hn & K & ->). simpl.
  apply extractTextNodes_spec in Hn as (i & ln & Hl & Hn).
  apply textNodesOfLine_spec in Hn as (_ & _ & Htrim & _).
  apply keepNode_spec in K as (_ & _ & _ & Hcomp & _).
  unfold calculateConfidence. rewrite Htrim. cbn zeta.
  destruct (test _ (n_text node) && includes (n_text node) " "); [discriminate |].
  destruct (test _ (n_text node) && (5 <? units (n_text node)));
    [discriminate |].
  destruct (test (mkRegExp (anchored [AZ; Plus az; Eol]) false) (n_text node))
    eqn:E.
  - exfalso. apply test_anchored_sound in E as (st' & M).
    cbn [cat foldr] in M.
    apply matches_seq in M as (s1 & M1 & M).
    apply matches_seq in M as (s2 & M2 & M).
    apply matches_seq in M as (s3 & M3 & M).
    apply matches_eps in M as ->.
    apply matches_cls in M1 as (c & rest & E1 & Hc1 & ->). simpl in E1.
    apply matches_plus_cls in M2 as (w & [F _] & _ & A & _). simpl in F.
    inversion M3 as [| | | | | | | | | | | | st0 Hr |]; subst.
    rewrite Hr, app_nil_r in E1.
    fold upper_class in Hc1. rewrite cls_upper in Hc1.
    rewrite (isComponentName_complete _ c w E1 Hc1) in Hcomp; [discriminate |].
    eapply Forall_impl; [exact A |]. intros x Hx. cbn beta in Hx.
    fold lower_class in Hx. rewrite cls_lower in Hx. rewrite Hx.
    now rewrite orb_true_r.
  - destruct (includes (n_text node) " ") eqn:Ei; [| discriminate].
    destruct (Nat.ltb_spec 10 (units (n_text node))); [| discriminate].
    intros _. now split.
Qed.

Lemma medium_confidence_is_multi_word_witness :
  detectHardcodedStrings Examples.relative0 Examples.new_RegExp0 Examples.toUpperCase0 Samples.page_plain
    Examples.rules0 "/app"
  = Some [Samples.text_plain] /\
  In Samples.text_plain [Samples.text_plain] /\
  h_confidence Samples.text_plain = medium /\
  includes (h_text Samples.text_plain) " " = true /\
  10 < units (h_text Samples.text_plain).
Proof.
  assert (Hd : detectHardcodedStrings Examples.relative0 Examples.new_RegExp0 Examples.toUpperCase0
                 Samples.page_plain Examples.rules0 "/app"
               = Some [Samples.text_plain]) by (vm_compute; reflexivity).
  assert (Hin : In Samples.text_plain [Samples.text_plain]) by (left; reflexivity).
  split; [exact Hd |]. split; [exact Hin |]. split; [reflexivity |].
  exact (medium_confidence_is_multi_word _ _ _ _ _ _ _ _ Hd Hin eq_refl).
Defined.

(** *** [filterByConfidence] *)

(** X21: [filterByConfidence] keeps the order of the list; with [low] it
    keeps everything, with [high] only candidates rated high; raising the
    minimum keeps fewer, and filtering twice is filtering once with the
    larger minimum, in either order. *)
Theorem filterByConfidence_levels (strings : list HardcodedString) :
  filterByConfidence strings low = strings /\
  (forall s, In s (filterByConfidence strings high) <->
             In s strings /\ h_confidence s = high) /\
  (forall c, filterByConfidence strings c `sublist_of` strings) /\
  (forall a b,
     confidenceLevel a <= confidenceLevel b ->
     filterByConfidence strings b `sublist_of` filterByConfidence strings a /\
     filterByConfidence (filterByConfidence strings a) b
     = filterByConfidence strings b) /\
  (forall a b,
     filterByConfidence (filterByConfidence strings a) b
     = filterByConfidence (filterByConfidence strings b) a).
Proof.
  unfold filterByConfidence. split; [| split; [| split; [| split]]].
  - induction strings as [| s strings IH]; [reflexivity |].
    rewrite filter_cons. destruct (decide _) as [_ | Hn].
    + now rewrite IH.
    + exfalso. apply Hn. simpl. destruct (h_confidence s); simpl; lia.
  - intros s. rewrite <- !list_elem_of_In, list_elem_of_filter.
    split; intros [H1 H2].
    + split; [exact H2 |].
      destruct (h_confidence s); simpl in H1; try lia; reflexivity.
    + split; [| exact H1]. rewrite H2. simpl. lia.
  - intros c. apply sublist_filter.
  - intros a b Hab. split.
    + induction strings as [| s strings IH]; [constructor |].
      rewrite !filter_cons.
      destruct (decide (confidenceLevel b <= confidenceLevel (h_confidence s)))
        as [Hb | Hb];
        destruct (decide (confidenceLevel a <= confidenceLevel (h_confidence s)))
        as [Ha | Ha].
      * now apply sublist_skip.
      * lia.
      * now apply sublist_cons.
      * exact IH.
    + rewrite list_filter_filter. apply list_filter_iff. intros s. lia.
  - intros a b. rewrite !list_filter_filter. apply list_filter_iff.
    intros s. tauto.
Qed.

Lemma filterByConfidence_levels_witness :
  confidenceLevel low <= confidenceLevel high /\
  filterByConfidence
    (filterByConfidence [Examples.text_welcome; Samples.text_plain] low) high
  = filterByConfidence [Examples.text_welcome; Samples.text_plain] high.
Proof.
  assert (H : confidenceLevel low <= confidenceLevel high) by (simpl; lia).
  split; [exact H |].
  exact (proj2 (proj1 (proj2 (proj2 (proj2 (filterByConfidence_levels
           [Examples.text_welcome; Samples.text_plain])))) low high H)).
Defined.

End HardcodedMore.

(** ** audit.ts: hardcoded text in the report *)

Module AuditHardcoded.
Import JS Regex Extractor Locales Validator ValidatorFacts Hardcoded HardcodedFacts
       Audit Report ValidationMore AuditMore HardcodedMore.

Section WithHost.
Variable relative : string -> string -> string.
Variable new_RegExp : string -> option (string -> bool).
Variable toUpperCase : string -> string.
Variable rules : HardcodedTextRules.
Variable root : string.
Variable lookup : gmap string LocaleEntry.

Abbreviation loop files :=
  (fold_left (processFile relative new_RegExp toUpperCase rules root lookup) files (mkAcc [] [] [])).

Lemma detect_invalid parsed :
  Exists (fun p => new_RegExp p = None) (excludePatterns rules) ->
  detectHardcodedStrings relative new_RegExp toUpperCase parsed rules root
  = match present (p_template parsed) with Some _ => None | None => Some [] end.
Proof.
  intros H. apply compilePatterns_None in H. unfold detectHardcodedStrings.
  destruct (present (p_template parsed)); [| reflexivity]. now rewrite H.
Qed.

Lemma loop_invalid files :
  Exists (fun p => new_RegExp p = None) (excludePatterns rules) ->
  allIssues (loop files)
  = flat_map (fun f => match snd f with
                       | Some parsed =>
                           validateKeys relative (extractTranslationKeys parsed)
                                        lookup root
                       | None => []
                       end) files.
Proof.
  intros H. induction files as [| f files IH]; [reflexivity |].
  rewrite (loop_cons relative new_RegExp toUpperCase rules root lookup). cbn [allIssues flat_map].
  rewrite IH. f_equal. cbn [fold_left]. unfold processFile.
  destruct (snd f) as [parsed |]; simpl; [| reflexivity].
  rewrite (detect_invalid parsed H).
  destruct (present (p_template parsed)); simpl; now rewrite app_nil_r.
Qed.

Lemma loop_hardcoded files i :
  In i (allIssues (loop files)) /\ i_type i = hardcoded_text <->
  exists path parsed l h,
    In (path, Some parsed) files /\
    detectHardcodedStrings relative new_RegExp toUpperCase parsed rules root = Some l /\
    In h l /\ i = hardcodedIssue h.
Proof.
  rewrite (loop_issue_in relative new_RegExp toUpperCase rules root lookup). split.
  - intros [([path [parsed |]] & Hf & Hi) Ht]; simpl in Hi; [| contradiction].
    apply in_app_iff in Hi as [Hi | Hi].
    + apply validateKeys_issue_in in Hi as (k & _ & _ & _ & Hn & _). contradiction.
    + destruct (detectHardcodedStrings _ _ _ _ _ _) as [l |] eqn:E; [| contradiction].
      apply in_map_iff in Hi as (h & <- & Hh). now exists path, parsed, l, h.
  - intros (path & parsed & l & h & Hf & Hd & Hh & ->). split; [| reflexivity].
    exists (path, Some parsed). split; [exact Hf |]. simpl.
    apply in_app_iff. right. rewrite Hd. now apply in_map.
Qed.
End WithHost.

Lemma filter_hardcoded_keys relative keys lookup root :
  filter (fun i => i_type i = hardcoded_text)
         (validateKeys relative keys lookup root) = [].
Proof.
  destruct (filter _ _) as [| i rest] eqn:E; [reflexivity |]. exfalso.
  assert (Hin : i ∈ filter (fun i => i_type i = hardcoded_text)
                           (validateKeys relative keys lookup root))
    by (rewrite E; left).
  apply list_elem_of_filter in Hin as [Ht Hin]. apply list_elem_of_In in Hin.
  apply validateKeys_issue_in in Hin as (k & _ & _ & _ & Hn & _). contradiction.
Qed.

(** X22: the issues of type [hardcoded_text] in the report of [runAudit]
    are exactly the candidates that [detectHardcodedStrings] returns for the
    parsed files, each as a warning with the candidate's file, line and
    text and no key. *)
Theorem hardcoded_issue_from_candidate
  (relative : string -> string -> string)
  (new_RegExp : string -> option (string -> bool))
  (toUpperCase : string -> string)
  (rules : HardcodedTextRules) (root : string)
  (localeFiles : list LocaleFile)
  (vueFiles : list (string * option ParsedVueSFC)) (i : AuditIssue) :
  In i (issues (runAudit relative new_RegExp toUpperCase rules root localeFiles vueFiles)) /\
  i_type i = hardcoded_text <->
  exists path parsed l h,
    In (path, Some parsed) vueFiles /\
    detectHardcodedStrings relative new_RegExp toUpperCase parsed rules root = Some l /\
    In h l /\
    i_type i = hardcoded_text /\ i_severity i = warning /\
    i_file i = h_file h /\ i_line i = h_line h /\
    i_text i = Some (h_text h) /\ i_key i = None /\
    i_message i = "Potential hardcoded text: " +:+ String dquote (h_text h)
                  +:+ String dquote " (confidence: "
                  +:+ show_confidence (h_confidence h) +:+ ")".
Proof.
  unfold runAudit. cbn [issues]. rewrite loop_hardcoded. split.
  - intros (path & parsed & l & h & Hf & Hd & Hh & ->).
    exists path, parsed, l, h. now repeat split.
  - intros (path & parsed & l & h & Hf & Hd & Hh & H1 & H2 & H3 & H4 & H5 & H6 & H7).
    exists path, parsed, l, h. repeat split; try assumption.
    destruct i. simpl in *. unfold hardcodedIssue. congruence.
Qed.

(** X23: when one of the configured exclusion patterns is not a valid
    expression, [detectHardcodedStrings] throws for every file that has
    markup and returns nothing for the others; [runAudit] swallows the
    error: its report has no hardcoded-text issue at all and holds exactly
    the issues of [validateKeys] for the parsed files, in scan order. *)
Theorem invalid_pattern_disables_detection
  (relative : string -> string -> string)
  (new_RegExp : string -> option (string -> bool))
  (toUpperCase : string -> string)
  (rules : HardcodedTextRules) (root : string) :
  Exists (fun p => new_RegExp p = None) (excludePatterns rules) ->
  (forall parsed,
     detectHardcodedStrings relative new_RegExp toUpperCase parsed rules root
     = match present (p_template parsed) with Some _ => None | None => Some [] end) /\
  (forall localeFiles vueFiles,
     let report := runAudit relative new_RegExp toUpperCase rules root localeFiles vueFiles in
     hardcodedStrings (summary report) = 0 /\
     issues report
     = flat_map (fun f =>
                   match snd f with
                   | Some parsed =>
                       validateKeys relative (extractTranslationKeys parsed)
                         (createLocaleLookup (loadLocaleEntries localeFiles)) root
                   | None => []
                   end) vueFiles).
Proof.
  intros H. split; [intros parsed; now apply detect_invalid |].
  intros localeFiles vueFiles. unfold runAudit. cbn [summary issues hardcodedStrings].
  rewrite (loop_invalid _ _ _ _ _ _ _ H). split; [| reflexivity].
  induction vueFiles as [| f files IH]; [reflexivity |].
  cbn [flat_map]. rewrite filter_app, length_app, IH.
  destruct (snd f); [now rewrite filter_hardcoded_keys | reflexivity].
Qed.

Lemma invalid_pattern_disables_detection_witness :
  Exists (fun p => Examples.new_RegExp0 p = None) (excludePatterns Samples.rules_bad) /\
  detectHardcodedStrings Examples.relative0 Examples.new_RegExp0 Examples.toUpperCase0 Examples.page_text
    Samples.rules_bad "/app" = None /\
  hardcodedStrings
    (summary (runAudit Examples.relative0 Examples.new_RegExp0 Examples.toUpperCase0 Samples.rules_bad "/app"
                       [] [("/app/Pages/Home.vue", Some Examples.page_text)])) = 0.
Proof.
  assert (H : Exists (fun p => Examples.new_RegExp0 p = None)
                     (excludePatterns Samples.rules_bad))
    by (apply Exists_cons_hd; reflexivity).
  pose proof (invalid_pattern_disables_detection Examples.relative0
                Examples.new_RegExp0 Examples.toUpperCase0 Samples.rules_bad "/app" H) as [H1 H2].
  split; [exact H |]. split; [exact (H1 Examples.page_text) |].
  exact (proj1 (H2 [] [("/app/Pages/Home.vue", Some Examples.page_text)])).
Defined.

End AuditHardcoded.

(** ** scanner.ts *)

Module ScannerFacts.
Import JS Extractor Scanner.

(** X24: [scanVueFiles] returns the files in ascending order; it returns
    what the search found, each file as often, when partials are included,
    and otherwise exactly the files whose path does not contain
    [/Partials/]; when the search throws it returns no file. *)
Theorem scanVueFiles_spec (includePartials : bool) (found : option (list string)) :
  StronglySorted String.le (scanVueFiles includePartials found) /\
  scanVueFiles includePartials None = [] /\
  (forall files,
     found = Some files ->
     (includePartials = true -> scanVueFiles includePartials found ≡ₚ files) /\
     (includePartials = false ->
      scanVueFiles includePartials found
      ≡ₚ filter (fun f => includes f "/Partials/" = false) files /\
      forall f, In f (scanVueFiles includePartials found) <->
                In f files /\ includes f "/Partials/" = false)).
Proof.
  split; [| split; [reflexivity |]].
  - destruct found as [files |]; simpl; [| constructor].
    unfold sort. apply StronglySorted_merge_sort; apply _.
  - intros files ->. simpl. unfold sort. split.
    + intros ->. apply merge_sort_Permutation.
    + intros ->. split; [apply merge_sort_Permutation |].
      intros f. rewrite <- !list_elem_of_In, merge_sort_Permutation.
      rewrite list_elem_of_filter. tauto.
Qed.

End ScannerFacts.

(** ** extractor.ts: a call that is found *)


Module RoundTrip.
Import JS JSFacts Regex RegexFacts RegexAnalysis Extractor ExtractorFacts
       ExtractorMore HardcodedMore Markup.

Lemma chars_app a b : chars (a +:+ b) = chars a ++ chars b.
Proof.
  induction a as [| x a IH]; [reflexivity |].
  change (String x a +:+ b) with (String x (a +:+ b)).
  cbn [chars list_ascii_of_string]. fold (chars (a +:+ b)). now rewrite IH.
Qed.

Lemma step_chr ic a st k c rest res :
  m_right st = c :: rest -> char_eq ic a c = true ->
  k (advance st c rest) = Some res -> run ic (Chr a) st k = Some res.
Proof. intros H1 H2 H3. simpl. now rewrite H1, H2. Qed.

Lemma step_cls ic neg items st k c rest res :
  m_right st = c :: rest -> cls_match ic neg items c = true ->
  k (advance st c rest) = Some res -> run ic (Cls neg items) st k = Some res.
Proof. intros H1 H2 H3. simpl. now rewrite H1, H2. Qed.

Lemma step_skip ic a st k c rest res :
  m_right st = c :: rest -> char_eq ic a c = false ->
  k st = Some res -> run ic (Opt (Chr a)) st k = Some res.
Proof. intros H1 H2 H3. simpl. now rewrite H1, H2. Qed.

Lemma step_take ic r st k res :
  run ic r st k = Some res -> run ic (Opt r) st k = Some res.
Proof. intros H. simpl. now rewrite H. Qed.

Lemma step_star ic neg items k w : forall st rest res,
  m_right st = w ++ rest ->
  Forall (fun c => cls_match ic neg items c = true) w ->
  match rest with c :: _ => cls_match ic neg items c = false | [] => True end ->
  k {| m_left := rev w ++ m_left st; m_right := rest; m_caps := m_caps st |}
  = Some res ->
  run ic (Star (Cls neg items)) st k = Some res.
Proof.
  induction w as [| c w IH]; intros st rest res Hr Hall Hrest Hk; rewrite run_star.
  - simpl in Hr, Hk. destruct st as [l r caps]. simpl in *. subst r.
    destruct rest as [| c rest]; [exact Hk |]. now rewrite Hrest.
  - simpl in Hr. rewrite (run_cls _ _ _ _ _ c (w ++ rest) Hr).
    apply Forall_cons in Hall as [Hc Hall]. rewrite Hc, Hr.
    cbn [advance m_right length].
    assert (Hlt : (length (w ++ rest) <? S (length (w ++ rest))) = true)
      by (apply Nat.ltb_lt; lia).
    rewrite Hlt.
    rewrite (IH (advance st c (w ++ rest)) rest res eq_refl Hall Hrest);
      [reflexivity |].
    simpl. simpl in Hk. now rewrite <- app_assoc in Hk.
Qed.

Lemma run_alt ic r1 r2 st k :
  run ic (Alt r1 r2) st k
  = match run ic r1 st k with Some res => Some res | None => run ic r2 st k end.
Proof. reflexivity. Qed.

(** [\s] takes a one-byte white-space character, *)
Lemma step_space k st c rest res :
  m_right st = c :: rest -> is_space c = true ->
  k (advance st c rest) = Some res -> run false space st k = Some res.
Proof.
  intros Hr Hs Hk. unfold space. rewrite run_alt.
  rewrite (step_cls false false [CSpace] st k c rest res Hr); [reflexivity | | exact Hk].
  unfold cls_match, item_match. simpl. now rewrite Hs.
Qed.

(** and nothing at the end of the text or at an ASCII character that is no
    white space. *)
Lemma run_space_none k st :
  match m_right st with
  | c :: _ => (code c <? 128) && negb (is_space c) = true
  | [] => True
  end ->
  run false space st k = None.
Proof.
  unfold space. cbn [run]. destruct (m_right st) as [| c rest]; [reflexivity |].
  intros H.
  destruct c as [[] [] [] [] [] [] [] []]; vm_compute in H; try discriminate H;
    reflexivity.
Qed.

Lemma step_ws k w : forall st rest res,
  m_right st = w ++ rest ->
  Forall (fun c => is_space c = true) w ->
  match rest with
  | c :: _ => (code c <? 128) && negb (is_space c) = true
  | [] => True
  end ->
  k {| m_left := rev w ++ m_left st; m_right := rest; m_caps := m_caps st |}
  = Some res ->
  run false (Star space) st k = Some res.
Proof.
  induction w as [| c w IH]; intros st rest res Hr Hall Hrest Hk; rewrite run_star.
  - simpl in Hr, Hk. rewrite run_space_none by now rewrite Hr.
    destruct st as [l r caps]. simpl in *. now subst r.
  - simpl in Hr. apply Forall_cons in Hall as [Hc Hall].
    rewrite (step_space _ st c (w ++ rest) res Hr Hc); [reflexivity |].
    rewrite Hr. cbn [advance m_right length].
    assert (Hlt : (length (w ++ rest) <? S (length (w ++ rest))) = true)
      by (apply Nat.ltb_lt; lia).
    rewrite Hlt. apply (IH (advance st c (w ++ rest)) rest res eq_refl Hall Hrest).
    simpl. simpl in Hk. now rewrite <- app_assoc in Hk.
Qed.

Lemma step_bref ic n st k w st' res :
  m_caps st !! n = Some w -> prefix_ic ic w (m_right st) = true ->
  advance_by w st = Some st' -> k st' = Some res ->
  run ic (Bref n) st k = Some res.
Proof. intros H1 H2 H3 H4. simpl. now rewrite H1, H2, H3. Qed.

Lemma consumed_app st st' w :
  m_right st = w ++ m_right st' -> consumed st st' = w.
Proof.
  intros H. unfold consumed. rewrite H, length_app.
  replace (length w + length (m_right st') - length (m_right st')) with (length w)
    by lia.
  apply take_app_length.
Qed.

Lemma search_here ic r left right st :
  match_at ic r left right = Some st ->
  search ic r left right = Some (length left, st).
Proof. intros H. destruct right; simpl; now rewrite H. Qed.

Lemma match_at_frame ic r s st :
  match_at ic r [] s = Some st -> s = rev (m_left st) ++ m_right st.
Proof.
  unfold match_at. intros H. apply run_sound in H as (st' & M & Hk).
  injection Hk as ->. apply matches_frame in M as (w & FR & FL).
  simpl in FR, FL. rewrite FL, app_nil_r, rev_involutive. exact FR.
Qed.

Lemma quote_class c :
  cls_match false true (map CChar (chars quotes)) c
  = negb (Ascii.eqb c "'" || Ascii.eqb c dquote || Ascii.eqb c "`").
Proof. destruct c as [[] [] [] [] [] [] [] []]; vm_compute; reflexivity. Qed.

Lemma run_grp ic n r st k :
  run ic (Grp n r) st k
  = run ic r st (fun st' => k (set_cap n (consumed st st') st')).
Proof. reflexivity. Qed.

Lemma run_eps ic st k : run ic Eps st k = k st.
Proof. reflexivity. Qed.

(** One step of a run whose next item is decided by the next character *)
Ltac step :=
  cbn beta; cbn [advance set_cap m_left m_right m_caps];
  lazymatch goal with
  | |- run _ (Seq _ _) _ _ = Some _ => rewrite run_seq
  | |- run _ Eps _ _ = Some _ => rewrite run_eps
  | |- run _ (Chr _) _ _ = Some _ =>
      eapply step_chr; [reflexivity | reflexivity |]
  | |- run _ (Opt (Chr _)) _ _ = Some _ =>
      first [ eapply step_take; eapply step_chr; [reflexivity | reflexivity |]
            | eapply step_skip; [reflexivity | reflexivity |] ]
  | |- run _ (Grp _ _) _ _ = Some _ => rewrite run_grp
  | |- run _ (Cls _ _) _ _ = Some _ =>
      eapply step_cls; [reflexivity | first [reflexivity | eassumption] |]
  end.

Ltac wstar w :=
  cbn beta; cbn [advance set_cap m_left m_right m_caps];
  eapply (step_ws _ w);
  [ reflexivity
  | repeat constructor
  | reflexivity
  | cbn [m_left m_right m_caps rev app] ].

Ltac star w :=
  cbn beta; cbn [advance set_cap m_left m_right m_caps];
  eapply (step_star _ _ _ _ w);
  [ reflexivity
  | first [ eassumption | repeat constructor ]
  | reflexivity
  | cbn [m_left m_right m_caps rev app] ].

Lemma interpolation_match (dollar : bool) q c0 kc :
  q = "'"%char \/ q = dquote \/ q = "`"%char ->
  Forall (fun c => cls_match false true (map CChar (chars quotes)) c = true)
         (c0 :: kc) ->
  exists st,
    match_at false (re_pat interpolationPattern) []
      ("{"%char :: "{"%char :: " "%char ::
       chars (if dollar then "$t(" else "t(") ++ q :: c0 :: kc ++ q :: chars ") }}")
    = Some st /\
    m_caps st !! 2 = Some (c0 :: kc) /\
    m_right st = chars ") }}".
Proof.
  intros Hq Hall. apply Forall_cons in Hall as [Hc0 Hkc].
  destruct Hq as [-> | [-> | ->]]; destruct dollar.
  all: eexists; split;
    [ unfold match_at, interpolationPattern;
      cbv [re_pat cat lit foldr map chars list_ascii_of_string ws Plus oneof
           noneof quotes];
      cbn [app];
      repeat step; wstar [" "%char]; repeat step; wstar (@nil ascii);
      repeat step; wstar (@nil ascii); repeat step;
      (erewrite (consumed_app _ _ [_]) by reflexivity);
      star kc; repeat step;
      (rewrite (consumed_app _ _ (c0 :: kc)) by reflexivity);
      (eapply step_bref;
       [ cbn [m_caps set_cap]; rewrite lookup_insert_ne by lia;
         apply lookup_insert_eq
       | reflexivity | reflexivity | ]);
      repeat step; reflexivity
    | split; [apply lookup_insert_eq | reflexivity] ].
Qed.

(** A search from [j] on finds nothing when what is left lacks a character
    the pattern needs. *)
Lemma exec_must_have re c s j :
  re_icase re = false -> must_have c (re_pat re) = true ->
  ~ In c (drop j s) -> exec re s j = None.
Proof.
  intros Hic Hm Hno. destruct (exec re s j) as [m |] eqn:E; [| reflexivity].
  exfalso. apply Hno.
  pose proof (exec_index _ _ _ _ E) as Hj.
  apply exec_spec in E as (st0 & st' & w0 & M & _ & _ & Hs & Hi & _).
  rewrite Hic in M. apply (matches_must_have c) in M as (w & [R _] & Hw).
  rewrite Hs, R. rewrite drop_app_le by (rewrite length_rev; lia).
  apply in_app_iff. right. apply in_app_iff. left. now apply Hw.
Qed.

Lemma exec_loop_none re s j fuel : exec re s j = None -> exec_loop fuel re s j = [].
Proof. intros H. destruct fuel; simpl; [reflexivity | now rewrite H]. Qed.

(** A line on which the pattern matches at the start and what follows the
    match lacks a character the pattern needs has this one match. *)
Lemma exec_all_single re line st c :
  re_icase re = false -> must_have c (re_pat re) = true ->
  match_at false (re_pat re) [] (chars line) = Some st ->
  ~ In c (m_right st) ->
  exists m, exec_all re line = [m] /\ mr_caps m = m_caps st.
Proof.
  intros Hic Hm Hat Hno. unfold exec_all. cbn [exec_loop].
  assert (E : exec re (chars line) 0
              = Some {| mr_index := 0; mr_end := length (m_left st);
                        mr_whole := str (take (length (m_left st) - 0)
                                              (drop 0 (chars line)));
                        mr_caps := m_caps st |}).
  { unfold exec. rewrite Hic.
    destruct (Nat.ltb_spec (length (chars line)) 0) as [Hlt | _]; [lia |].
    change (take 0 (chars line)) with (@nil ascii).
    change (drop 0 (chars line)) with (chars line).
    cbn [rev]. now rewrite (search_here _ _ _ _ _ Hat). }
  rewrite E. match type of E with _ = Some ?m => exists m end.
  split; [| reflexivity]. f_equal. cbn [mr_end].
  apply exec_loop_none. apply (exec_must_have _ c); [exact Hic | exact Hm |].
  rewrite (match_at_frame _ _ _ _ Hat) at 1.
  rewrite drop_app_length' by now rewrite length_rev. exact Hno.
Qed.




Lemma split_at_none sep l : ~ In sep l -> split_at sep l = (l, []).
Proof.
  induction l as [| c l IH]; [reflexivity |]. intros H. simpl.
  rewrite IH by (intros Hin; apply H; now right).
  destruct (Ascii.eqb_spec c sep) as [-> | _]; [| reflexivity].
  exfalso. apply H. now left.
Qed.

Lemma split_lines_single s : ~ In newline (chars s) -> split_lines s = [s].
Proof.
  intros H. unfold split_lines. rewrite (split_at_none _ _ H). simpl.
  now rewrite str_chars.
Qed.

Lemma interpolation_chars dollar q k :
  chars (interpolation dollar q k)
  = "{"%char :: "{"%char :: " "%char ::
    chars (if dollar then "$t(" else "t(") ++ q :: chars k ++ q :: chars ") }}".
Proof.
  unfold interpolation. rewrite !chars_app.
  change (chars (String q (k +:+ String q ") }}")))
    with (q :: chars (k +:+ String q ") }}")).
  rewrite chars_app. reflexivity.
Qed.

Lemma interpolation_chars_in dollar q k c :
  In c (chars (interpolation dollar q k)) ->
  In c (chars k) \/ c = q \/ In c (chars "{ $t()}").
Proof.
  rewrite interpolation_chars. destruct dollar; simpl; rewrite ?in_app_iff; simpl;
    rewrite ?in_app_iff; simpl; intuition auto.
Qed.

(** X25: a line of markup that is one interpolation, [{{ t('key') }}] or
    [{{ $t('key') }}] with single or double quotes, yields exactly one
    record: the static key between the quotes, at the line after the start
    line of the markup; the key is any non-empty text without quote
    characters, colon and line break. *)
Theorem interpolation_round_trip (dollar : bool) (q : ascii)
  (k filePath : string) (startLine : nat) :
  q = "'"%char \/ q = dquote -> k <> "" ->
  Forall (fun c => ~ In c ["'"%char; dquote; "`"%char; ":"%char; newline])
         (chars k) ->
  extractFromTemplate (interpolation dollar q k) filePath startLine
  = [staticKey k filePath (startLine + 1) template].
Proof.
  intros Hq Hne Hk.
  assert (Hno : forall c, In c [":"%char; "`"%char; newline] ->
                          ~ In c (chars (interpolation dollar q k))).
  { intros c Hc Hin. apply interpolation_chars_in in Hin as [Hin | [-> | Hin]].
    - rewrite List.Forall_forall in Hk. apply (Hk c Hin).
      simpl in Hc. simpl. tauto.
    - unfold dquote, newline in *. simpl in Hc.
      destruct Hq as [-> | ->]; intuition discriminate.
    - unfold newline in *. simpl in Hc, Hin. intuition congruence. }
  unfold extractFromTemplate.
  rewrite split_lines_single by (apply Hno; simpl; tauto).
  cbn [imap concat]. rewrite app_nil_r. unfold templateLine.
  rewrite (exec_all_must_have boundAttrPattern ":" _ eq_refl eq_refl)
    by (apply Hno; simpl; tauto).
  rewrite (exec_all_must_have templateLiteralPattern "`" _ eq_refl eq_refl)
    by (apply Hno; simpl; tauto).
  destruct (chars k) as [| c0 kc] eqn:Ek.
  { exfalso. apply Hne. rewrite <- (str_chars k), Ek. reflexivity. }
  destruct (interpolation_match dollar q c0 kc) as (st & Hat & Hcap & Hr).
  { tauto. }
  { eapply Forall_impl; [exact Hk |]. intros c Hc. cbn beta in Hc.
    rewrite quote_class. apply negb_true_iff.
    destruct (Ascii.eqb_spec c "'") as [-> | _]; [exfalso; apply Hc; simpl; tauto |].
    destruct (Ascii.eqb_spec c dquote) as [-> | _];
      [exfalso; apply Hc; simpl; tauto |].
    destruct (Ascii.eqb_spec c "`") as [-> | _]; [exfalso; apply Hc; simpl; tauto |].
    reflexivity. }
  destruct (exec_all_single interpolationPattern (interpolation dollar q k) st "t"
              eq_refl eq_refl) as (m & -> & Hm).
  { rewrite interpolation_chars, Ek. exact Hat. }
  { rewrite Hr. simpl. intuition discriminate. }
  cbn [map app]. unfold staticKey, calculateSourceLine, group.
  rewrite Hm, Hcap, <- Ek, str_chars. reflexivity.
Qed.

Lemma interpolation_round_trip_witness :
  ("'"%char = "'"%char \/ "'"%char = dquote) /\
  "auth.login" <> "" /\
  Forall (fun c => ~ In c ["'"%char; dquote; "`"%char; ":"%char; newline])
         (chars "auth.login") /\
  extractFromTemplate (interpolation false "'" "auth.login") "/app/Pages/Login.vue" 4
  = [staticKey "auth.login" "/app/Pages/Login.vue" (4 + 1) template].
Proof.
  assert (Hq : "'"%char = "'"%char \/ "'"%char = dquote) by (left; reflexivity).
  assert (Hne : "auth.login" <> "") by discriminate.
  assert (Hk : Forall (fun c => ~ In c ["'"%char; dquote; "`"%char; ":"%char; newline])
                      (chars "auth.login")).
  { cbn [chars list_ascii_of_string].
    repeat (apply List.Forall_cons; [not_in |]). apply List.Forall_nil. }
  split; [exact Hq |]. split; [exact Hne |]. split; [exact Hk |].
  exact (interpolation_round_trip false "'" "auth.login" "/app/Pages/Login.vue" 4
           Hq Hne Hk).
Defined.

End RoundTrip.

(** ** A dynamic call, from the markup to its issues *)

Module DynamicCalls.
Import JS JSFacts Regex RegexFacts RegexAnalysis Extractor ExtractorFacts
       ExtractorMore Locales Validator ValidatorFacts Markup RoundTrip.






End DynamicCalls.
